(** * The SEO audit script of keyrxng.xyz (scripts/seo-audit.ts)

    A shallow embedding of the script's pure core: the lexical pipeline
    ([toWords], [normalizeTerm]), the readability scorer ([countSyllables],
    [computeReadability]), the link classifier ([isExternal]), the warnings
    of [analyzeFile], the TF-IDF engine ([computeTfidfEnhanced],
    [canonicalizeCorpus]) and the missing-metadata lists of
    [generateReport].

    Conventions.
    - A JavaScript string is a [string]: a sequence of code units below 256
      (the Latin-1 range), on which [toLowerCase], [\s] and [trim] are
      written out.
    - A JavaScript number that counts something is a [nat]; a score is a
      binary64 [float], computed with the primitive operations.
    - A [Map] is an association list in insertion order, because the script
      iterates over its maps and the order of iteration decides ties.
    - What the platform or a dependency provides ([Math.log], the [stemmer]
      package, [new URL], [path.relative]) is a variable of the section that
      uses it. *)

From Stdlib Require Import Bool Arith PeanoNat ZArith Lia List.
From Stdlib Require Import Ascii String.
From Stdlib Require Import Sorted Permutation.
From Stdlib Require Import Uint63 Floats.
From Stdlib Require Import DecimalString.
Import ListNotations.

(** Decimal literals are read as JavaScript reads them: rounded to the
    nearest binary64 value. *)
Set Warnings "-inexact-float".

Local Open Scope string_scope.
Local Open Scope list_scope.
Local Open Scope nat_scope.

(** ** JavaScript strings *)

Module JSString.

Definition code (c : ascii) : nat := nat_of_ascii c.

Definition between (lo hi : nat) (c : ascii) : bool :=
  (lo <=? code c) && (code c <=? hi).

(** [[a-z]], [[A-Z]] and [\d]. *)
Definition isLowerAZ (c : ascii) : bool := between 97 122 c.
Definition isUpperAZ (c : ascii) : bool := between 65 90 c.
Definition isDigit (c : ascii) : bool := between 48 57 c.

(** [\s] below 256: TAB, LF, VT, FF, CR, SPACE and NBSP; [trim] strips
    the same code units. *)
Definition isSpace (c : ascii) : bool :=
  between 9 13 c || (code c =? 32) || (code c =? 160).

(** [toLowerCase] on one code unit: A-Z, and the Latin-1 capitals
    U+00C0..U+00DE except the multiplication sign U+00D7. *)
Definition toLowerChar (c : ascii) : ascii :=
  if isUpperAZ c || (between 192 222 c && negb (code c =? 215))
  then ascii_of_nat (code c + 32)
  else c.

Fixpoint smap (f : ascii -> ascii) (s : string) : string :=
  match s with
  | EmptyString => EmptyString
  | String c s' => String (f c) (smap f s')
  end.

Fixpoint sfilter (p : ascii -> bool) (s : string) : string :=
  match s with
  | EmptyString => EmptyString
  | String c s' => if p c then String c (sfilter p s') else sfilter p s'
  end.

Fixpoint sforallb (p : ascii -> bool) (s : string) : bool :=
  match s with
  | EmptyString => true
  | String c s' => p c && sforallb p s'
  end.

Fixpoint sexistsb (p : ascii -> bool) (s : string) : bool :=
  match s with
  | EmptyString => false
  | String c s' => p c || sexistsb p s'
  end.

Definition toLowerCase (s : string) : string := smap toLowerChar s.

(** Truthiness of a string: [Boolean(s)], [!s] is its negation. *)
Definition truthy (s : string) : bool :=
  match s with EmptyString => false | _ => true end.

Fixpoint trimStart (s : string) : string :=
  match s with
  | EmptyString => EmptyString
  | String c s' => if isSpace c then trimStart s' else s
  end.

(** [trimEnd]: a white-space character is dropped when everything after
    it has been dropped. *)
Fixpoint trimEnd (s : string) : string :=
  match s with
  | EmptyString => EmptyString
  | String c s' =>
      match trimEnd s' with
      | EmptyString => if isSpace c then EmptyString else String c EmptyString
      | t => String c t
      end
  end.

Definition trim (s : string) : string := trimEnd (trimStart s).

Fixpoint last_char (s : string) : option ascii :=
  match s with
  | EmptyString => None
  | String c EmptyString => Some c
  | String _ s' => last_char s'
  end.

Definition first_char (s : string) : option ascii :=
  match s with
  | EmptyString => None
  | String c _ => Some c
  end.

(** [s.startsWith(p)] and [s.endsWith(p)]. *)
Definition startsWith (p s : string) : bool := String.prefix p s.

Fixpoint srev_app (s acc : string) : string :=
  match s with
  | EmptyString => acc
  | String c s' => srev_app s' (String c acc)
  end.

Definition srev (s : string) : string := srev_app s EmptyString.

Definition endsWith (p s : string) : bool := String.prefix (srev p) (srev s).

(** [s.split(/\s+/)]: the pieces between the maximal runs of white
    space; a run at either end leaves an empty piece there, and the empty
    string gives one empty piece. [cur] is the piece being read, reversed,
    [inws] tells that the previous character was white space. *)
Fixpoint split_ws_from (inws : bool) (cur : string) (s : string) : list string :=
  match s with
  | EmptyString => [srev cur]
  | String c s' =>
      if isSpace c
      then if inws then split_ws_from true cur s'
           else srev cur :: split_ws_from true EmptyString s'
      else split_ws_from false (String c cur) s'
  end.

Definition split_ws (s : string) : list string :=
  split_ws_from false EmptyString s.

(** Decimal rendering of a count, as a template literal prints it. *)
Definition ofNat (n : nat) : string := NilZero.string_of_uint (Nat.to_uint n).

End JSString.

Import JSString.

(** ** 4.3 Lexical pipeline: [toWords] *)

Module Lexical.

Definition EXTRA_STOPWORDS : list string :=
  [ "a";"about";"above";"after";"again";"against";"all";
    "am";"an";"and";"any";"are";"as";"at";"be";"because";
    "been";"before";"being";"below";"between";"both";"but";
    "by";"could";"did";"do";"does";"doing";"down";"during";
    "each";"few";"for";"from";"further";"had";"has";"have";
    "having";"he";"her";"here";"hers";"herself";"him";"himself";
    "his";"how";"i";"if";"in";"into";"is";"it";"its";"itself";
    "just";"me";"more";"most";"my";"myself";"no";"nor";"not";"now";"of";
    "off";"on";"once";"only";"or";"other";"our";"ours";"ourselves";"out";
    "over";"own";"same";"she";"should";"so";"some";"such";"than";"that";
    "the";"their";"theirs";"them";"themselves";"then";"there";"these";"they";
    "this";"those";"through";"to";"too";"under";"until";"up";"very";"was";"we";
    "were";"what";"when";"where";"which";"while";"who";"whom";"why";"with";"you";
    "your";"yours";"yourself";"yourselves";
    "https";"http";"www";"com";"net";"org";"io";"dev";
    "github";"docs";"doc";"api";"readme";"license";"faq";
    "png";"jpg";"jpeg";"gif";"webp";"svg";"pdf";"xml";"rss";
    "js";"ts";"tsx";"jsx";"css";"html";"md";"mdx";"astro";"json";
    "import";"export";"const";"var";"let";"function";"return";"class";"interface";
    "npm";"yarn";"pnpm";"node";"bun";"sitemap";"og";"meta";"link";"href";"src";"alt";
    "title";"description";"pr";"ci";"cd" ].

(** [EXTRA_STOPWORDS.has(w)]. *)
Definition isStopword (w : string) : bool :=
  existsb (String.eqb w) EXTRA_STOPWORDS.

(** The character class of the [replace] in [toWords], by code unit, in
    the order of the source: backquote, tilde, exclamation mark, at sign,
    ... , question mark, slash, hyphen. These are the 32 punctuation
    characters of ASCII. *)
Definition punctuationCodes : list nat :=
  [ 96; 126; 33; 64; 35; 36; 37; 94; 38; 42; 40; 41; 95; 43; 61; 123; 125;
    91; 93; 124; 92; 58; 59; 34; 39; 60; 62; 44; 46; 63; 47; 45 ].

Definition isPunctuation (c : ascii) : bool :=
  existsb (Nat.eqb (code c)) punctuationCodes.

(** [/[a-z]/.test(w)] and [/^\d+$/.test(w)]. *)
Definition hasLetter (w : string) : bool := sexistsb isLowerAZ w.
Definition allDigits (w : string) : bool := truthy w && sforallb isDigit w.

(** The five filters that [toWords] and [filterTerms] share. *)
Definition keepToken (w : string) : bool :=
  truthy w && (1 <? String.length w) && negb (isStopword w)
  && hasLetter w && negb (allDigits w).

Definition tokenFilters (ws : list string) : list string :=
  filter (fun w => negb (allDigits w))
    (filter hasLetter
      (filter (fun w => negb (isStopword w))
        (filter (fun w => 1 <? String.length w)
          (filter truthy ws)))).

Definition toWords (raw : string) : list string :=
  tokenFilters
    (map trim
      (split_ws
        (smap (fun c => if isPunctuation c then " "%char else c)
          (toLowerCase raw)))).

Definition filterTerms (terms : list string) : list string :=
  tokenFilters (map trim (map toLowerCase terms)).

(** [buildNgrams(tokens, n)]: the windows of [n] consecutive tokens,
    joined by one space. *)
Fixpoint joinSpace (ws : list string) : string :=
  match ws with
  | [] => EmptyString
  | [w] => w
  | w :: ws' => (w ++ " " ++ joinSpace ws')%string
  end.

Fixpoint buildNgrams_from (fuel : nat) (tokens : list string) (n : nat) : list string :=
  match fuel with
  | O => []
  | S fuel' =>
      joinSpace (firstn n tokens) :: buildNgrams_from fuel' (tl tokens) n
  end.

Definition buildNgrams (tokens : list string) (n : nat) : list string :=
  buildNgrams_from (S (List.length tokens) - n) tokens n.

End Lexical.

Import Lexical.

Example toWords_sample :
toWords "The Quick-brown fox, v2 & 42 times: testing the API!"
= ["quick"; "brown"; "fox"; "v2"; "times"; "testing"].
Proof. vm_compute. reflexivity. Qed.

Example buildNgrams_sample :
  buildNgrams ["static"; "site"; "audit"] 2 = ["static site"; "site audit"]
  /\ buildNgrams ["static"; "site"; "audit"] 3 = ["static site audit"]
  /\ buildNgrams ["static"; "site"] 3 = [].
Proof. repeat split. Qed.

Example filterTerms_sample :
  filterTerms ["Astro"; " SEO "; "the"; "42"; "x"; "v2"] = ["seo"; "v2"].
Proof. vm_compute. reflexivity. Qed.

(** ** Properties of the lexical pipeline *)

Section LexicalFacts.

Lemma sexistsb_exists (p : ascii -> bool) (w : string) :
  sexistsb p w = true <->
  exists c, In c (list_ascii_of_string w) /\ p c = true.
Proof.
  induction w as [|a w IH]; simpl.
  - split; [discriminate | intros [c [[] _]]].
  - rewrite orb_true_iff, IH. split.
    + intros [Ha | [c [Hc Hp]]]; [exists a | exists c]; auto.
    + intros [c [[<- | Hc] Hp]]; [left | right; exists c]; auto.
Qed.

Lemma sforallb_forall (p : ascii -> bool) (w : string) :
  sforallb p w = true <->
  forall c, In c (list_ascii_of_string w) -> p c = true.
Proof.
  induction w as [|a w IH]; simpl.
  - split; [intros _ c [] | reflexivity].
  - rewrite andb_true_iff, IH. split.
    + intros [Ha Hw] c [<- | Hc]; auto.
    + intros H; split; [|intros c Hc]; apply H; auto.
Qed.

Lemma truthy_true (w : string) : truthy w = true <-> w <> "".
Proof. destruct w; simpl; split; congruence. Qed.

Lemma isStopword_In (w : string) :
  isStopword w = true <-> In w EXTRA_STOPWORDS.
Proof.
  unfold isStopword. rewrite existsb_exists. split.
  - intros [x [Hx He]]. apply String.eqb_eq in He. now subst.
  - intros H. exists w. split; [assumption | apply String.eqb_refl].
Qed.

Lemma tokenFilters_In (ws : list string) (w : string) :
  In w (tokenFilters ws) <-> In w ws /\ keepToken w = true.
Proof.
  unfold tokenFilters, keepToken.
  repeat rewrite filter_In. repeat rewrite andb_true_iff. tauto.
Qed.

Lemma toWords_keepToken (raw w : string) :
  In w (toWords raw) -> keepToken w = true.
Proof. unfold toWords. intros H. now apply tokenFilters_In in H. Qed.

End LexicalFacts.

(** C5. Every token that [toWords] returns is non-empty, is longer than one
  character, contains a letter a-z, is not made of digits only, and is not
  in [EXTRA_STOPWORDS]. *)
Theorem toWords_tokens_filtered (raw : string) :
Forall (fun w =>
          w <> ""
          /\ 1 < String.length w
          /\ (exists c, In c (list_ascii_of_string w)
                        /\ 97 <= code c /\ code c <= 122)
          /\ ~ (w <> "" /\ forall c, In c (list_ascii_of_string w)
                                     -> 48 <= code c /\ code c <= 57)
          /\ ~ In w EXTRA_STOPWORDS)
       (toWords raw).
Proof.
apply Forall_forall. intros w Hw.
apply toWords_keepToken in Hw. unfold keepToken in Hw.
repeat rewrite andb_true_iff in Hw.
destruct Hw as [[[[Ht Hl] Hs] Ha] Hd].
apply truthy_true in Ht. apply Nat.ltb_lt in Hl.
apply negb_true_iff in Hs. apply negb_true_iff in Hd.
repeat split; try assumption.
- apply sexistsb_exists in Ha. destruct Ha as [c [Hc Hp]].
  exists c. split; [assumption|].
  unfold isLowerAZ, between in Hp. apply andb_true_iff in Hp.
  destruct Hp as [H1 H2]. apply Nat.leb_le in H1. apply Nat.leb_le in H2.
  now split.
- intros [_ Hall].
  assert (allDigits w = true) as Habs; [|congruence].
  unfold allDigits. apply andb_true_iff. split.
  + now apply truthy_true.
  + apply sforallb_forall. intros c Hc. destruct (Hall c Hc) as [H1 H2].
    unfold isDigit, between. apply andb_true_iff.
    split; now apply Nat.leb_le.
- intros Hin. apply isStopword_In in Hin. congruence.
Qed.

(** ** 4.4 Readability scorer *)

Module Readability.

(** A count as a JavaScript number. A counter that is incremented by one
    stays at 2^53 once it gets there; the counts of the script are bounded
    by the length of an array and stay far below. *)
Definition num_of_nat (n : nat) : float :=
  PrimFloat.of_uint63 (Uint63.of_Z (Z.min (Z.of_nat n) 9007199254740992)).

(** [vowels.includes(ch)] with [vowels = "aeiouy"]. *)
Definition isVowel (ch : ascii) : bool :=
  existsb (Ascii.eqb ch) (list_ascii_of_string "aeiouy").

(** The [for (const ch of w)] loop of [countSyllables], with its two
    variables [count] and [prevVowel]. *)
Fixpoint vowelLoop (w : string) (count : nat) (prevVowel : bool) : nat :=
  match w with
  | EmptyString => count
  | String ch w' =>
      let v := isVowel ch in
      vowelLoop w' (if v && negb prevVowel then S count else count) v
  end.

(** [word.toLowerCase().replace(/[^a-z]/g, "")]. *)
Definition lettersOf (word : string) : string :=
  sfilter isLowerAZ (toLowerCase word).

Definition countSyllables (word : string) : nat :=
  let w := lettersOf word in
  if negb (truthy w) then 0
  else
    let count := vowelLoop w 0 false in
    let count := if endsWith "e" w && (1 <? count) then count - 1 else count in
    Nat.max 1 count.

(** [text.split(/[.!?]+\s+/)]. A separator is a maximal run of end marks
    that white space follows, together with all of that white space. The
    scanner is in a piece, in a run of end marks after the piece ([Marks],
    holding the run reversed), or in the white space of a separator
    ([Gap]); [cur] is the piece read so far, reversed. *)
Inductive splitState : Type :=
| Piece
| Marks (run : string)
| Gap.

Definition isEndMark (c : ascii) : bool :=
  existsb (Ascii.eqb c) (list_ascii_of_string ".!?").

Fixpoint split_sentences_from (st : splitState) (cur : string) (s : string)
  : list string :=
  match s with
  | EmptyString =>
      match st with
      | Marks run => [srev (run ++ cur)%string]
      | _ => [srev cur]
      end
  | String c s' =>
      if isEndMark c then
        match st with
        | Marks run => split_sentences_from (Marks (String c run)) cur s'
        | _ => split_sentences_from (Marks (String c EmptyString)) cur s'
        end
      else if isSpace c then
        match st with
        | Marks _ => srev cur :: split_sentences_from Gap EmptyString s'
        | Gap => split_sentences_from Gap EmptyString s'
        | Piece => split_sentences_from Piece (String c cur) s'
        end
      else
        match st with
        | Marks run => split_sentences_from Piece (String c (run ++ cur)%string) s'
        | _ => split_sentences_from Piece (String c cur) s'
        end
  end.

Definition split_sentences (text : string) : list string :=
  split_sentences_from Piece EmptyString text.

(** The locals of [computeReadability], in the order of the source. *)
Definition sentencesOf (text : string) : list string :=
  filter truthy (split_sentences text).

Definition wordsOf (text : string) : list string :=
  filter truthy
    (split_ws
      (smap (fun c => if isLowerAZ c || isSpace c then c else " "%char)
        (toLowerCase text))).

Definition wordCountOf (text : string) : nat := List.length (wordsOf text).

Definition sentenceCountOf (text : string) : nat :=
  Nat.max 1 (List.length (sentencesOf text)).

Definition syllableCountOf (text : string) : nat :=
  fold_left (fun acc w => acc + countSyllables w) (wordsOf text) 0.

Definition wordsPerSentence (text : string) : float :=
  (num_of_nat (wordCountOf text) / num_of_nat (sentenceCountOf text))%float.

Definition syllablesPerWord (text : string) : float :=
  if wordCountOf text =? 0 then 0%float
  else (num_of_nat (syllableCountOf text) / num_of_nat (wordCountOf text))%float.

Record Scores : Type := {
  fleschReadingEase : float;
  fleschKincaidGrade : float;
  wordCount : nat;
  sentenceCount : nat
}.

Definition computeReadability (text : string) : Scores :=
  {| fleschReadingEase :=
       (206.835 - 1.015 * wordsPerSentence text - 84.6 * syllablesPerWord text)%float;
     fleschKincaidGrade :=
       (0.39 * wordsPerSentence text + 11.8 * syllablesPerWord text - 15.59)%float;
     wordCount := wordCountOf text;
     sentenceCount := sentenceCountOf text |}.

(** The same computation with a division that fails on a zero divisor,
    to state that [computeReadability] never divides by zero. *)
Definition checkedDiv (a b : nat) : option float :=
  if b =? 0 then None else Some (num_of_nat a / num_of_nat b)%float.

Definition computeReadabilityChecked (text : string) : option Scores :=
  match checkedDiv (wordCountOf text) (sentenceCountOf text) with
  | None => None
  | Some wps =>
      match
        (if wordCountOf text =? 0 then Some 0%float
         else checkedDiv (syllableCountOf text) (wordCountOf text))
      with
      | None => None
      | Some spw =>
          Some {| fleschReadingEase := (206.835 - 1.015 * wps - 84.6 * spw)%float;
                  fleschKincaidGrade := (0.39 * wps + 11.8 * spw - 15.59)%float;
                  wordCount := wordCountOf text;
                  sentenceCount := sentenceCountOf text |}
      end
  end.

(** The count of the claim, in its words: a vowel group starts at a vowel
    that is the first character or follows a non-vowel. *)
Definition startsGroup (l : list ascii) (i : nat) : bool :=
  isVowel (nth i l " "%char)
  && ((i =? 0) || negb (isVowel (nth (i - 1) l " "%char))).

Definition vowelGroups (w : string) : nat :=
  let l := list_ascii_of_string w in
  List.length (filter (startsGroup l) (seq 0 (List.length l))).

Definition endsInE (w : string) : bool :=
  match last_char w with
  | Some c => Ascii.eqb c "e"
  | None => false
  end.

Definition syllablesBySpec (w : string) : nat :=
  let groups := vowelGroups w in
  Nat.max 1 (if endsInE w && (1 <? groups) then groups - 1 else groups).

End Readability.

Import Readability.

Example countSyllables_samples :
  map countSyllables ["the"; "readable"; "rhythm"; "audit"; "Queue"; "e"]
  = [1; 2; 1; 2; 1; 1].
Proof. vm_compute. reflexivity. Qed.

Example split_sentences_sample :
  split_sentences "One. Two!  Three?! four.five. "
  = ["One"; "Two"; "Three"; "four.five"; ""].
Proof. vm_compute. reflexivity. Qed.

Example computeReadability_empty :
  computeReadability ""
  = {| fleschReadingEase := 206.835%float;
       fleschKincaidGrade := (-15.59)%float;
       wordCount := 0;
       sentenceCount := 1 |}.
Proof. vm_compute. reflexivity. Qed.

(** ** Order and subtraction of binary64 numbers

    The comparator of the final sort subtracts two scores and the sort
    looks at the sign of the difference. For the binary64 operations, as
    their specification in the standard library gives them, the difference
    [y - x] is positive exactly when [x < y]: a difference of two distinct
    numbers is never rounded to zero. *)

Module FloatOrder.

Local Open Scope Z_scope.

(** Order of spec floats through a rank. *)
Definition rank (x : spec_float) : Z * Z * Z :=
  match x with
  | S754_nan => (0, 0, 0)
  | S754_zero _ => (0, 0, 0)
  | S754_infinity true => (-2, 0, 0)
  | S754_infinity false => (2, 0, 0)
  | S754_finite true m e => (-1, - e, Zneg m)
  | S754_finite false m e => (1, e, Zpos m)
  end.

Definition lexlt (a b : Z * Z * Z) : Prop :=
  fst (fst a) < fst (fst b)
  \/ (fst (fst a) = fst (fst b)
      /\ (snd (fst a) < snd (fst b)
          \/ (snd (fst a) = snd (fst b) /\ snd a < snd b))).

Definition notNaN (x : spec_float) : Prop := x <> S754_nan.

Lemma SFltb_rank (x y : spec_float) :
  notNaN x -> notNaN y -> (SFltb x y = true <-> lexlt (rank x) (rank y)).
Proof.
  unfold notNaN, SFltb, lexlt.
  destruct x as [sx|sx| |sx mx ex]; destruct y as [sy|sy| |sy my ey];
    try congruence; intros _ _;
    try (destruct sx); try (destruct sy); cbn;
    try (split; [discriminate | lia]);
    try (split; [reflexivity | lia]);
    try (split; [intros _; lia | reflexivity]).
  - destruct (Z.compare_spec ex ey); [|split; [discriminate|lia]|split; [intros _; lia|reflexivity]].
    change (Pos.compare_cont Eq mx my) with (Pos.compare mx my).
    destruct (Pos.compare_spec mx my); cbn; split; try discriminate; try reflexivity; lia.
  - destruct (Z.compare_spec ex ey); [|split; [intros _; lia|reflexivity]|split; [discriminate|lia]].
    change (Pos.compare_cont Eq mx my) with (Pos.compare mx my).
    destruct (Pos.compare_spec mx my); cbn; split; try discriminate; try reflexivity; lia.
Qed.

Lemma SFleb_rank (x y : spec_float) :
  notNaN x -> notNaN y -> (SFleb x y = true <-> ~ lexlt (rank y) (rank x)).
Proof.
  unfold notNaN, SFleb, lexlt.
  destruct x as [sx|sx| |sx mx ex]; destruct y as [sy|sy| |sy my ey];
    try congruence; intros _ _;
    try (destruct sx); try (destruct sy); cbn;
    try (split; [discriminate | lia]);
    try (split; [reflexivity | lia]);
    try (split; [intros _; lia | reflexivity]).
  - destruct (Z.compare_spec ex ey); [|split; [discriminate|lia]|split; [intros _; lia|reflexivity]].
    change (Pos.compare_cont Eq mx my) with (Pos.compare mx my).
    destruct (Pos.compare_spec mx my); cbn; split; try discriminate; try reflexivity; lia.
  - destruct (Z.compare_spec ex ey); [|split; [intros _; lia|reflexivity]|split; [discriminate|lia]].
    change (Pos.compare_cont Eq mx my) with (Pos.compare mx my).
    destruct (Pos.compare_spec mx my); cbn; split; try discriminate; try reflexivity; lia.
Qed.

Lemma SFeqb_refl_notNaN (x : spec_float) : SFeqb x x = true <-> notNaN x.
Proof.
  unfold SFeqb, notNaN. destruct x as [s|s| |s m e]; cbn.
  - split; [discriminate | reflexivity].
  - destruct s; split; try discriminate; reflexivity.
  - split; [discriminate | congruence].
  - rewrite Z.compare_refl.
    change (Pos.compare_cont Eq m m) with (Pos.compare m m).
    rewrite Pos.compare_refl. destruct s; split; try discriminate; reflexivity.
Qed.

(** Digits. *)
Lemma digits2_pos_size (m : positive) : digits2_pos m = Pos.size m.
Proof. induction m; simpl; congruence. Qed.

Lemma digits2_bounds (m : positive) :
  2 ^ (Zpos (digits2_pos m) - 1) <= Zpos m < 2 ^ Zpos (digits2_pos m).
Proof.
  rewrite digits2_pos_size. split.
  - pose proof (Pos.size_le m) as H.
    apply Pos2Z.pos_le_pos in H.
    rewrite Pos2Z.inj_pow in H.
    change (Zpos m~0) with (2 * Zpos m) in H.
    replace (Zpos (Pos.size m)) with (Z.succ (Zpos (Pos.size m) - 1)) in H by lia.
    rewrite Z.pow_succ_r in H by lia. lia.
  - pose proof (Pos.size_gt m) as H.
    apply Pos2Z.pos_lt_pos in H.
    now rewrite Pos2Z.inj_pow in H.
Qed.

Lemma iter_xO (m d : positive) : Zpos (Pos.iter xO m d) = Zpos m * 2 ^ Zpos d.
Proof.
  induction d as [|d IH] using Pos.peano_ind.
  - cbn. lia.
  - rewrite Pos.iter_succ, Pos2Z.inj_xO, IH, Pos2Z.inj_succ, Z.pow_succ_r by lia.
    lia.
Qed.

Lemma shl_align_value (m : positive) (e ez : Z) :
  ez <= e ->
  Zpos (fst (shl_align m e ez)) = Zpos m * 2 ^ (e - ez)
  /\ snd (shl_align m e ez) = ez.
Proof.
  intros H. unfold shl_align.
  destruct (ez - e) as [|d|d] eqn:E.
  - assert (e = ez) by lia. subst. rewrite Z.sub_diag. cbn [fst snd]. lia.
  - lia.
  - cbn [fst snd]. rewrite iter_xO. replace (e - ez) with (Zpos d) by lia. lia.
Qed.

(** Rounding a positive mantissa never gives zero. *)
Lemma shr_1_m (mrs : shr_record) :
  0 <= shr_m mrs -> shr_m (shr_1 mrs) = shr_m mrs / 2.
Proof.
  destruct mrs as [m r s]. cbn [shr_m]. intros H. unfold shr_1.
  destruct m as [|p|p]; [reflexivity| |lia].
  destruct p as [p|p|]; cbn [shr_m].
  - rewrite Pos2Z.inj_xI. apply Z.div_unique with (r := 1); lia.
  - rewrite Pos2Z.inj_xO. apply Z.div_unique with (r := 0); lia.
  - reflexivity.
Qed.

Lemma iter_shr_m (p : positive) (mrs : shr_record) :
  0 <= shr_m mrs ->
  shr_m (iter_pos shr_1 p mrs) = shr_m mrs / 2 ^ Zpos p.
Proof.
  revert mrs. induction p as [p IH|p IH|]; intros mrs H; cbn [iter_pos].
  - assert (0 <= shr_m (shr_1 mrs)) as H1
      by (rewrite shr_1_m by assumption; apply Z.div_pos; lia).
    assert (0 <= shr_m (iter_pos shr_1 p (shr_1 mrs))) as H2
      by (rewrite IH by assumption; apply Z.div_pos; lia).
    rewrite IH, IH, shr_1_m by assumption.
    rewrite !Z.div_div by lia. f_equal.
    replace (Z.pos p~1) with (1 + Z.pos p + Z.pos p) by lia.
    rewrite !Z.pow_add_r, Z.pow_1_r by lia. ring.
  - assert (0 <= shr_m (iter_pos shr_1 p mrs)) as H2
      by (rewrite IH by assumption; apply Z.div_pos; lia).
    rewrite IH, IH by assumption.
    rewrite Z.div_div by lia. f_equal.
    replace (Z.pos p~0) with (Z.pos p + Z.pos p) by lia.
    rewrite Z.pow_add_r by lia. reflexivity.
  - rewrite shr_1_m by assumption. reflexivity.
Qed.

Lemma Zdigits2_bounds (m : Z) :
  0 < m -> 0 < Zdigits2 m /\ 2 ^ (Zdigits2 m - 1) <= m.
Proof.
  destruct m as [|p|p]; try lia. intros _. cbn [Zdigits2].
  split; [lia | apply digits2_bounds].
Qed.

Lemma shr_positive (mrs : shr_record) (e n : Z) :
  0 < shr_m mrs -> n < Zdigits2 (shr_m mrs) ->
  0 < shr_m (fst (shr mrs e n)).
Proof.
  intros Hm Hn. unfold shr. destruct n as [|p|p]; cbn [fst]; try assumption.
  rewrite iter_shr_m by lia.
  destruct (Zdigits2_bounds _ Hm) as [Hd Hb].
  apply Z.div_str_pos. split; [lia|].
  apply Z.le_trans with (2 ^ (Zdigits2 (shr_m mrs) - 1)); [|assumption].
  apply Z.pow_le_mono_r; lia.
Qed.

Lemma shr_exponent (mrs : shr_record) (e n : Z) :
  snd (shr mrs e n) = e + Z.max n 0.
Proof. unfold shr. destruct n; cbn [snd]; lia. Qed.

Lemma shr_record_of_loc_m (m : Z) (l : location) :
  shr_m (shr_record_of_loc m l) = m.
Proof. destruct l as [|[]]; reflexivity. Qed.

Lemma shr_fexp_positive (m e : Z) (l : location) :
  0 < m -> emin <= e ->
  0 < shr_m (fst (shr_fexp prec emax m e l))
  /\ emin <= snd (shr_fexp prec emax m e l).
Proof.
  intros Hm He. unfold shr_fexp. split.
  - apply shr_positive; rewrite shr_record_of_loc_m; [assumption|].
    destruct (Zdigits2_bounds m Hm) as [Hd _].
    unfold fexp, SpecFloat.emin, prec, emax in *. lia.
  - rewrite shr_exponent. unfold fexp, SpecFloat.emin, prec, emax in *. lia.
Qed.

Lemma round_nearest_even_ge (m : Z) (l : location) :
  m <= round_nearest_even m l.
Proof.
  unfold round_nearest_even. destruct l as [|[]]; try lia.
  destruct (Z.even m); lia.
Qed.

Definition positiveSF (r : spec_float) : Prop :=
  match r with
  | S754_finite false _ _ | S754_infinity false => True
  | _ => False
  end.

Lemma binary_round_aux_positive (m e : Z) (l : location) :
  0 < m -> emin <= e -> positiveSF (binary_round_aux prec emax false m e l).
Proof.
  intros Hm He. unfold binary_round_aux.
  destruct (shr_fexp_positive m e l Hm He) as [H1 H2].
  destruct (shr_fexp prec emax m e l) as [mrs' e'].
  cbn [fst snd] in H1, H2.
  pose proof (round_nearest_even_ge (shr_m mrs') (loc_of_shr_record mrs')) as Hr.
  destruct (shr_fexp_positive
              (round_nearest_even (shr_m mrs') (loc_of_shr_record mrs')) e'
              loc_Exact ltac:(lia) H2) as [H3 _].
  destruct (shr_fexp prec emax _ e' loc_Exact) as [mrs'' e''].
  cbn [fst] in H3.
  destruct (shr_m mrs'') as [|p|p]; try lia.
  destruct (e'' <=? emax - prec); exact I.
Qed.

Lemma binary_round_aux_negative (m e : Z) (l : location) :
  SFltb (S754_zero false) (binary_round_aux prec emax true m e l) = false.
Proof.
  unfold binary_round_aux.
  destruct (shr_fexp prec emax m e l) as [mrs' e'].
  destruct (shr_fexp prec emax _ e' loc_Exact) as [mrs'' e''].
  destruct (shr_m mrs'') as [|p|p]; try reflexivity.
  destruct (e'' <=? emax - prec); reflexivity.
Qed.

Lemma positiveSF_ltb (r : spec_float) :
  positiveSF r -> SFltb (S754_zero false) r = true.
Proof. destruct r as [s|s| |s m e]; try destruct s; cbn; tauto. Qed.

Lemma binary_normalize_sign (M e : Z) :
  emin <= e ->
  SFltb (S754_zero false) (binary_normalize prec emax M e false) = (0 <? M).
Proof.
  intros He. unfold binary_normalize, binary_round.
  destruct M as [|p|p].
  - reflexivity.
  - change (0 <? Zpos p) with true. apply positiveSF_ltb.
    destruct (shl_align p e (fexp prec emax (Zpos (digits2_pos p) + e)))
      as [mz ez] eqn:E.
    apply binary_round_aux_positive; [lia|].
    unfold shl_align in E.
    destruct (fexp prec emax (Zpos (digits2_pos p) + e) - e) eqn:D;
      injection E as _ <-; try assumption.
    unfold fexp, SpecFloat.emin, prec, emax. lia.
  - change (0 <? Zneg p) with false.
    destruct (shl_align p e (fexp prec emax (Zpos (digits2_pos p) + e)))
      as [mz ez].
    apply binary_round_aux_negative.
Qed.

(** Canonical mantissas compare like the numbers they stand for. *)
Definition canonical (m : positive) (e : Z) : Prop :=
  fexp prec emax (Zpos (digits2_pos m) + e) = e.

Lemma canonical_lt (mx my : positive) (ex ey : Z) :
  canonical mx ex -> canonical my ey -> ex < ey ->
  Zpos mx < Zpos my * 2 ^ (ey - ex).
Proof.
  unfold canonical, fexp, SpecFloat.emin, prec, emax. intros Hx Hy Hlt.
  pose proof (digits2_bounds mx) as [_ Bx].
  pose proof (digits2_bounds my) as [By _].
  assert (Zpos (digits2_pos my) = 53) as Dy by lia.
  assert (Zpos (digits2_pos mx) <= 53) as Dx by lia.
  rewrite Dy in By.
  assert (2 ^ Zpos (digits2_pos mx) <= 2 ^ 53) as P1
    by (apply Z.pow_le_mono_r; lia).
  assert (2 ^ 1 <= 2 ^ (ey - ex)) as P2 by (apply Z.pow_le_mono_r; lia).
  change (2 ^ 1) with 2 in P2. change (53 - 1) with 52 in By.
  assert (2 ^ 53 = 2 * 2 ^ 52) as P3 by reflexivity.
  nia.
Qed.

Definition aligned (s : bool) (m : positive) (e ez : Z) : Z :=
  cond_Zopp s (Zpos (fst (shl_align m e ez))).

Lemma aligned_value (s : bool) (m : positive) (e ez : Z) :
  ez <= e -> aligned s m e ez = cond_Zopp s (Zpos m * 2 ^ (e - ez)).
Proof.
  intros H. unfold aligned. now destruct (shl_align_value m e ez H) as [-> _].
Qed.

Lemma rank_aligned (sx sy : bool) (mx my : positive) (ex ey : Z) :
  canonical mx ex -> canonical my ey ->
  lexlt (rank (S754_finite sx mx ex)) (rank (S754_finite sy my ey))
  <-> aligned sx mx ex (Z.min ex ey) < aligned sy my ey (Z.min ex ey).
Proof.
  intros Cx Cy.
  rewrite !aligned_value by lia.
  assert (0 < 2 ^ (ex - Z.min ex ey)) as Px by (apply Z.pow_pos_nonneg; lia).
  assert (0 < 2 ^ (ey - Z.min ex ey)) as Py by (apply Z.pow_pos_nonneg; lia).
  assert (ex < ey -> Zpos mx * 2 ^ (ex - Z.min ex ey)
                     < Zpos my * 2 ^ (ey - Z.min ex ey)) as Hlt.
  { intros H. rewrite Z.min_l by lia. rewrite Z.sub_diag, Z.mul_1_r.
    now apply canonical_lt. }
  assert (ey < ex -> Zpos my * 2 ^ (ey - Z.min ex ey)
                     < Zpos mx * 2 ^ (ex - Z.min ex ey)) as Hgt.
  { intros H. rewrite Z.min_r by lia. rewrite Z.sub_diag, Z.mul_1_r.
    now apply canonical_lt. }
  assert (ex = ey -> 2 ^ (ex - Z.min ex ey) = 1 /\ 2 ^ (ey - Z.min ex ey) = 1)
    as Heq.
  { intros ->. rewrite Z.min_id, Z.sub_diag. now split. }
  unfold lexlt. destruct sx, sy; cbn [rank fst snd cond_Zopp];
    destruct (Z.lt_total ex ey) as [H | [H | H]];
    try specialize (Hlt H); try specialize (Hgt H);
    try (destruct (Heq H) as [E1 E2]; rewrite E1, E2);
    nia.
Qed.

Lemma valid_canonical (s : bool) (m : positive) (e : Z) :
  valid_binary (S754_finite s m e) = true -> canonical m e /\ emin <= e.
Proof.
  unfold SpecFloat.valid_binary, bounded, canonical_mantissa, canonical.
  intros H. apply andb_true_iff in H. destruct H as [H _].
  apply Z.eqb_eq in H. split; [assumption|].
  unfold fexp, SpecFloat.emin, prec, emax in *. lia.
Qed.

(** The sign of a difference is the order of its operands. *)
Lemma SFsub_sign_finite (sx sy : bool) (mx my : positive) (ex ey : Z) :
  canonical mx ex -> canonical my ey -> emin <= ex -> emin <= ey ->
  SFltb (S754_zero false)
        (SF64sub (S754_finite sy my ey) (S754_finite sx mx ex))
  = SFltb (S754_finite sx mx ex) (S754_finite sy my ey).
Proof.
  intros Cx Cy Ex Ey. unfold SF64sub, SFsub.
  rewrite binary_normalize_sign by lia.
  pose proof (SFltb_rank (S754_finite sx mx ex) (S754_finite sy my ey)
                ltac:(discriminate) ltac:(discriminate)) as Hr.
  pose proof (rank_aligned sx sy mx my ex ey Cx Cy) as Ha.
  unfold aligned in Ha. rewrite (Z.min_comm ey ex).
  destruct (SFltb (S754_finite sx mx ex) (S754_finite sy my ey)).
  - apply Z.ltb_lt. assert (H : true = true) by reflexivity.
    apply Hr, Ha in H. lia.
  - apply Z.ltb_ge.
    assert (~ (cond_Zopp sx (Zpos (fst (shl_align mx ex (Z.min ex ey))))
               < cond_Zopp sy (Zpos (fst (shl_align my ey (Z.min ex ey))))))
      as H.
    { intros H. apply Ha, Hr in H. discriminate. }
    lia.
Qed.

Lemma SFsub_sign (x y : spec_float) :
  valid_binary x = true -> valid_binary y = true ->
  SFltb (S754_zero false) (SF64sub y x) = SFltb x y.
Proof.
  intros Vx Vy.
  destruct x as [sx|sx| |sx mx ex]; destruct y as [sy|sy| |sy my ey];
    try (destruct sx); try (destruct sy); try reflexivity.
  all: destruct (valid_canonical _ _ _ Vx) as [Cx Ex].
  all: destruct (valid_canonical _ _ _ Vy) as [Cy Ey].
  all: now apply SFsub_sign_finite.
Qed.

(** On primitive floats. *)
Lemma sub_sign (x y : float) : (0 <? y - x)%float = (x <? y)%float.
Proof.
  rewrite !ltb_spec, sub_spec.
  change (Prim2SF 0%float) with (S754_zero false).
  apply SFsub_sign; apply Prim2SF_valid.
Qed.

Definition isNaN (x : float) : bool := negb (x =? x)%float.

Lemma ltb_asym (x y : float) : (x <? y)%float = true -> (y <? x)%float = false.
Proof.
  rewrite !ltb_spec. intros H.
  destruct (SFltb (Prim2SF y) (Prim2SF x)) eqn:E; [|reflexivity].
  assert (notNaN (Prim2SF x) /\ notNaN (Prim2SF y)) as [Nx Ny].
  { unfold notNaN. split; intros N; rewrite N in *;
      [discriminate H | discriminate E]. }
  apply SFltb_rank in H; try assumption.
  apply SFltb_rank in E; try assumption.
  unfold lexlt in *. lia.
Qed.

Lemma ltb_false_leb (x y : float) :
  isNaN x = false -> isNaN y = false ->
  ((x <? y)%float = false <-> (y <=? x)%float = true).
Proof.
  unfold isNaN. rewrite !negb_false_iff, !eqb_spec, ltb_spec, leb_spec.
  intros Nx Ny. apply SFeqb_refl_notNaN in Nx, Ny.
  rewrite (SFleb_rank _ _ Ny Nx).
  pose proof (SFltb_rank _ _ Nx Ny) as H.
  destruct (SFltb (Prim2SF x) (Prim2SF y)).
  - split; [discriminate|]. intros H'. exfalso. apply H'. now apply H.
  - split; [|reflexivity]. intros _ H'. apply H in H'. discriminate.
Qed.

Lemma leb_trans (x y z : float) :
  isNaN x = false -> isNaN y = false -> isNaN z = false ->
  (x <=? y)%float = true -> (y <=? z)%float = true -> (x <=? z)%float = true.
Proof.
  unfold isNaN. rewrite !negb_false_iff, !eqb_spec, !leb_spec.
  intros Nx Ny Nz. apply SFeqb_refl_notNaN in Nx, Ny, Nz.
  rewrite (SFleb_rank _ _ Nx Ny), (SFleb_rank _ _ Ny Nz), (SFleb_rank _ _ Nx Nz).
  unfold lexlt. lia.
Qed.

(** Conversion of a machine integer: positive integers give positive
    numbers. *)
Lemma of_uint63_positive (z : Z) :
  0 < z < 2 ^ 63 ->
  (0 <? PrimFloat.of_uint63 (Uint63.of_Z z))%float = true.
Proof.
  intros Hz. rewrite ltb_spec, of_uint63_spec, Uint63.of_Z_spec.
  change (Prim2SF 0%float) with (S754_zero false).
  rewrite binary_normalize_sign by (unfold SpecFloat.emin, prec, emax; lia).
  apply Z.ltb_lt. rewrite Z.mod_small; [lia|].
  change Uint63.wB with (2 ^ 63). lia.
Qed.

End FloatOrder.

(** ** Properties of the readability scorer *)

Section ReadabilityFacts.

(** The groups of [l] when the character before [l] was a vowel or not. *)
Fixpoint groupsAfter (prev : bool) (l : list ascii) : nat :=
  match l with
  | [] => 0
  | c :: l' =>
      (if isVowel c && negb prev then 1 else 0) + groupsAfter (isVowel c) l'
  end.

Definition endsInVowel (p : list ascii) : bool :=
  match p with
  | [] => false
  | _ => isVowel (last p " "%char)
  end.

Lemma vowelLoop_groupsAfter (w : string) (count : nat) (prev : bool) :
  vowelLoop w count prev = count + groupsAfter prev (list_ascii_of_string w).
Proof.
  revert count prev. induction w as [|c w IH]; intros count prev; simpl.
  - lia.
  - rewrite IH. destruct (isVowel c && negb prev); lia.
Qed.

Lemma nth_last_prefix (p l : list ascii) (d : ascii) :
  p <> [] -> nth (List.length p - 1) (p ++ l) d = last p d.
Proof.
  intros Hp. rewrite app_nth1.
  - destruct p as [|a p]; [congruence|].
    clear Hp. revert a. induction p as [|b p IH]; intros a.
    + reflexivity.
    + change (last (a :: b :: p) d) with (last (b :: p) d).
      rewrite <- IH. simpl. now rewrite Nat.sub_0_r.
  - destruct p; [congruence | simpl; lia].
Qed.

Lemma startsGroup_at_boundary (p l : list ascii) (c : ascii) :
  startsGroup (p ++ c :: l) (List.length p)
  = isVowel c && negb (endsInVowel p).
Proof.
  unfold startsGroup. rewrite nth_middle. f_equal.
  destruct p as [|a p].
  - reflexivity.
  - rewrite nth_last_prefix by discriminate. reflexivity.
Qed.

Lemma groups_from_prefix (l p : list ascii) :
  List.length (filter (startsGroup (p ++ l)) (seq (List.length p) (List.length l)))
  = groupsAfter (endsInVowel p) l.
Proof.
  revert p. induction l as [|c l IH]; intros p.
  - reflexivity.
  - cbn [List.length seq filter groupsAfter].
    rewrite startsGroup_at_boundary.
    specialize (IH (p ++ [c])).
    rewrite <- app_assoc in IH. cbn [app] in IH.
    rewrite length_app in IH. cbn [List.length] in IH.
    rewrite Nat.add_1_r in IH.
    assert (endsInVowel (p ++ [c]) = isVowel c) as Hend.
    { unfold endsInVowel. destruct (p ++ [c]) eqn:E.
      - destruct p; discriminate.
      - rewrite <- E. now rewrite last_last. }
    rewrite Hend in IH.
    destruct (isVowel c && negb (endsInVowel p)); cbn [List.length]; lia.
Qed.

Lemma vowelLoop_vowelGroups (w : string) :
  vowelLoop w 0 false = vowelGroups w.
Proof.
  rewrite vowelLoop_groupsAfter. unfold vowelGroups. cbn zeta.
  exact (eq_sym (groups_from_prefix (list_ascii_of_string w) [])).
Qed.

Lemma srev_app_first (s acc : string) (c : ascii) :
  last_char s = Some c -> exists t, srev_app s acc = String c t.
Proof.
  revert acc. induction s as [|a s IH]; intros acc H.
  - discriminate.
  - destruct s as [|b s].
    + injection H as <-. simpl. now exists acc.
    + apply (IH (String a acc)). exact H.
Qed.

Lemma endsWith_e (w : string) : endsWith "e" w = endsInE w.
Proof.
  unfold endsWith, endsInE, srev.
  destruct (last_char w) as [c|] eqn:E.
  - destruct (srev_app_first w EmptyString c E) as [t ->].
    change (srev_app "e" EmptyString) with "e"%string.
    cbn [String.prefix].
    destruct (Ascii.ascii_dec "e"%char c) as [<- | Hne].
    + rewrite Ascii.eqb_refl. now destruct t.
    + symmetry. apply Ascii.eqb_neq. congruence.
  - destruct w as [|a w]; [reflexivity|].
    exfalso. clear -E. revert a E. induction w as [|b w IH]; intros a E.
    + discriminate.
    + apply (IH b). exact E.
Qed.

Lemma sfilter_all (p : ascii -> bool) (w : string) :
  sforallb p w = true -> sfilter p w = w.
Proof.
  induction w as [|c w IH]; simpl; [reflexivity|].
  intros H. apply andb_true_iff in H. destruct H as [Hc Hw].
  now rewrite Hc, IH.
Qed.

Lemma toLowerChar_lower (c : ascii) : isLowerAZ c = true -> toLowerChar c = c.
Proof.
  destruct c as [[] [] [] [] [] [] [] []]; vm_compute; congruence.
Qed.

Lemma toLowerCase_lower (w : string) :
  sforallb isLowerAZ w = true -> toLowerCase w = w.
Proof.
  induction w as [|c w IH]; simpl; [reflexivity|].
  intros H. apply andb_true_iff in H. destruct H as [Hc Hw].
  unfold toLowerCase in *. simpl. now rewrite toLowerChar_lower, IH.
Qed.

(** The number of a positive count is positive: it is not a zero
    divisor. *)
Lemma num_of_nat_positive (n : nat) :
  1 <= n -> (0 <? num_of_nat n)%float = true.
Proof.
  intros H. unfold num_of_nat. apply FloatOrder.of_uint63_positive.
  change (2 ^ 63)%Z with 9223372036854775808%Z. lia.
Qed.

(** A word of [computeReadability] is its own letters. *)
Lemma lettersOf_alphabetic (w : string) :
  sforallb isLowerAZ w = true -> lettersOf w = w.
Proof.
  intros H. unfold lettersOf. rewrite toLowerCase_lower by assumption.
  now apply sfilter_all.
Qed.

End ReadabilityFacts.

(** The count as the code has it, for any argument: with [w] the letters
    a-z of the lower-cased word, 0 by the guard when [w] is empty, else the
    count of the vowel groups of [w], less one for a final e when there is
    more than one group, floored at 1. *)
Lemma countSyllables_letters (word : string) :
  countSyllables word
  = if truthy (lettersOf word) then syllablesBySpec (lettersOf word) else 0.
Proof.
  unfold countSyllables, syllablesBySpec. cbn zeta.
  destruct (truthy (lettersOf word)); [|reflexivity].
  cbn [negb]. now rewrite vowelLoop_vowelGroups, endsWith_e.
Qed.

(** C7. [computeReadability] is a total function of the text. Its two
    divisions never have a zero divisor: the version with a failing division
    succeeds with the same scores, and each divisor is a positive number.
    The sentence count is the number of non-empty sentences floored at 1,
    and the syllables-per-word ratio is 0 when there is no word. *)
Theorem computeReadability_no_zero_division (text : string) :
  computeReadabilityChecked text = Some (computeReadability text)
  /\ sentenceCount (computeReadability text)
     = Nat.max 1 (List.length (sentencesOf text))
  /\ 1 <= sentenceCount (computeReadability text)
  /\ wordsPerSentence text
     = (num_of_nat (wordCount (computeReadability text))
        / num_of_nat (sentenceCount (computeReadability text)))%float
  /\ (0 <? num_of_nat (sentenceCount (computeReadability text)))%float = true
  /\ (wordCount (computeReadability text) = 0 ->
      syllablesPerWord text = 0%float)
  /\ (wordCount (computeReadability text) <> 0 ->
      syllablesPerWord text
      = (num_of_nat (syllableCountOf text)
         / num_of_nat (wordCount (computeReadability text)))%float
      /\ (0 <? num_of_nat (wordCount (computeReadability text)))%float = true).
Proof.
  assert (1 <= sentenceCountOf text) as Hfloor
    by (unfold sentenceCountOf; apply Nat.le_max_l).
  split; [|split; [|split; [|split; [|split; [|split]]]]].
  - unfold computeReadabilityChecked, computeReadability, checkedDiv.
    unfold wordsPerSentence, syllablesPerWord.
    assert ((sentenceCountOf text =? 0) = false) as ->
      by (apply Nat.eqb_neq; lia).
    destruct (wordCountOf text =? 0); reflexivity.
  - reflexivity.
  - exact Hfloor.
  - reflexivity.
  - now apply num_of_nat_positive.
  - cbn [wordCount computeReadability]. intros H.
    unfold syllablesPerWord. now rewrite H.
  - cbn [wordCount computeReadability]. intros H. split.
    + unfold syllablesPerWord. apply Nat.eqb_neq in H. now rewrite H.
    + apply num_of_nat_positive. lia.
Qed.

Lemma computeReadability_no_zero_division_witness :
  wordCount (computeReadability "2024. 42!") = 0
  /\ sentenceCount (computeReadability "2024. 42!") = 2
  /\ syllablesPerWord "2024. 42!" = 0%float.
Proof.
  split; [reflexivity | split; [reflexivity |]].
  apply (proj1 (proj2 (proj2 (proj2 (proj2 (proj2
           (computeReadability_no_zero_division "2024. 42!"))))))).
  reflexivity.
Defined.

(** ** 4.3 Lexical pipeline: [normalizeTerm] *)

Section Normalization.

(** The [stemmer] package, a dependency of the script: [Some r] when it
    returns [r], [None] when it throws. *)
Variable stemmer : string -> option string.

(** [[a-z0-9\s]], the characters that the [replace] keeps. *)
Definition isTermChar (c : ascii) : bool :=
  isLowerAZ c || isDigit c || isSpace c.

(** [t.toLowerCase().replace(/[^a-z0-9\s]/g, "").trim()]. *)
Definition cleanTerm (t : string) : string :=
  trim (sfilter isTermChar (toLowerCase t)).

(** The terms that are returned without stemming. *)
Definition skipsStemming (s : string) : bool :=
  allDigits s || (String.length s <=? 2).

Definition normalizeTerm (t : string) : string :=
  let s := cleanTerm t in
  if negb (truthy s) then EmptyString
  else if skipsStemming s then s
  else match stemmer s with
       | Some r => r
       | None => s
       end.

End Normalization.

(** Values of the [stemmer] package at the words used as examples below.
    Those of running and tests are expectations of the repository's own
    tests of [normalizeTerm], and the words around outcome are those of its
    test of [canonicalizeCorpus]. The package maps agreed to agre and agre
    to agr. On the other words of the examples (run, test, http2, banana,
    audit, ...) the package returns the word as it is, and so does the last
    line. *)
Definition stemmer_excerpt (s : string) : option string :=
  if String.eqb s "running" then Some "run"
  else if String.eqb s "tests" then Some "test"
  else if String.eqb s "agreed" then Some "agre"
  else if String.eqb s "agre" then Some "agr"
  else if String.eqb s "apple" then Some "appl"
  else if String.eqb s "cherry" then Some "cherri"
  else if String.eqb s "outcome" then Some "outcom"
  else if String.eqb s "outcoming" then Some "outcom"
  else Some s.

Example normalizeTerm_samples :
  map (normalizeTerm stemmer_excerpt) ["Running"; "tests"; "HTTP/2"; "a"; " 2024 "; "--"]
  = ["run"; "test"; "http2"; "a"; "2024"; ""].
Proof. vm_compute. reflexivity. Qed.

Section NormalizationFacts.

Variable stemmer : string -> option string.

Definition startsClean (s : string) : bool :=
  match s with
  | EmptyString => true
  | String c _ => negb (isSpace c)
  end.

Lemma trimStart_startsClean (s : string) : startsClean (trimStart s) = true.
Proof.
  induction s as [|c s IH]; simpl; [reflexivity|].
  destruct (isSpace c) eqn:E; [exact IH | simpl; now rewrite E].
Qed.

Lemma trimStart_fixed (s : string) : startsClean s = true -> trimStart s = s.
Proof.
  destruct s as [|c s]; simpl; [reflexivity|].
  intros H. apply negb_true_iff in H. now rewrite H.
Qed.

Lemma trimEnd_startsClean (s : string) :
  startsClean s = true -> startsClean (trimEnd s) = true.
Proof.
  destruct s as [|c s]; simpl; [reflexivity|].
  intros H. destruct (trimEnd s); [|exact H].
  apply negb_true_iff in H. rewrite H. simpl. now rewrite H.
Qed.

Lemma trimEnd_idempotent (s : string) : trimEnd (trimEnd s) = trimEnd s.
Proof.
  induction s as [|c s IH]; simpl; [reflexivity|].
  destruct (trimEnd s) as [|d t] eqn:E.
  - destruct (isSpace c) eqn:Ec; simpl; [reflexivity | now rewrite Ec].
  - change (trimEnd (String c (String d t))) with
      (match trimEnd (String d t) with
       | EmptyString => if isSpace c then EmptyString else String c EmptyString
       | u => String c u
       end).
    now rewrite IH.
Qed.

Lemma trim_idempotent (s : string) : trim (trim s) = trim s.
Proof.
  unfold trim.
  rewrite (trimStart_fixed (trimEnd (trimStart s))).
  - apply trimEnd_idempotent.
  - apply trimEnd_startsClean, trimStart_startsClean.
Qed.

Lemma sforallb_trimStart (p : ascii -> bool) (s : string) :
  sforallb p s = true -> sforallb p (trimStart s) = true.
Proof.
  induction s as [|c s IH]; simpl; [reflexivity|].
  intros H. destruct (isSpace c).
  - apply andb_true_iff in H. now apply IH.
  - exact H.
Qed.

Lemma sforallb_trimEnd (p : ascii -> bool) (s : string) :
  sforallb p s = true -> sforallb p (trimEnd s) = true.
Proof.
  induction s as [|c s IH]; simpl; [reflexivity|].
  intros H. apply andb_true_iff in H. destruct H as [Hc Hs].
  specialize (IH Hs). destruct (trimEnd s).
  - destruct (isSpace c); simpl; [reflexivity | now rewrite Hc].
  - simpl in *. now rewrite Hc.
Qed.

Lemma sforallb_sfilter (p : ascii -> bool) (s : string) :
  sforallb p (sfilter p s) = true.
Proof.
  induction s as [|c s IH]; simpl; [reflexivity|].
  destruct (p c) eqn:E; simpl; [now rewrite E | exact IH].
Qed.

Lemma toLowerChar_termChar (c : ascii) :
  isTermChar c = true -> toLowerChar c = c.
Proof.
  destruct c as [[] [] [] [] [] [] [] []]; vm_compute; congruence.
Qed.

Lemma toLowerCase_termChars (s : string) :
  sforallb isTermChar s = true -> toLowerCase s = s.
Proof.
  induction s as [|c s IH]; simpl; [reflexivity|].
  intros H. apply andb_true_iff in H. destruct H as [Hc Hs].
  unfold toLowerCase in *. simpl. now rewrite toLowerChar_termChar, IH.
Qed.

Lemma cleanTerm_termChars (t : string) :
  sforallb isTermChar (cleanTerm t) = true.
Proof.
  unfold cleanTerm, trim.
  apply sforallb_trimEnd, sforallb_trimStart, sforallb_sfilter.
Qed.

(** The cleaning step is idempotent. *)
Lemma cleanTerm_idempotent (t : string) : cleanTerm (cleanTerm t) = cleanTerm t.
Proof.
  pose proof (cleanTerm_termChars t) as H.
  unfold cleanTerm at 1.
  rewrite toLowerCase_termChars by exact H.
  rewrite sfilter_all by exact H.
  unfold cleanTerm. apply trim_idempotent.
Qed.

(** A clean term that is empty or skips stemming is its own normal form. *)
Lemma normalizeTerm_unstemmed (s : string) :
  cleanTerm s = s ->
  negb (truthy s) || skipsStemming s = true ->
  normalizeTerm stemmer s = s.
Proof.
  intros Hc Hs. unfold normalizeTerm. cbn zeta. rewrite Hc.
  destruct s as [|c s]; [reflexivity|].
  cbn [truthy negb orb] in *. now rewrite Hs.
Qed.

Lemma normalizeTerm_stable (s : string) :
  cleanTerm s = s ->
  stemmer s = Some s \/ stemmer s = None ->
  normalizeTerm stemmer s = s.
Proof.
  intros Hc Hs. unfold normalizeTerm. cbn zeta. rewrite Hc.
  destruct s as [|c s]; [reflexivity|].
  cbn [truthy negb].
  destruct (skipsStemming (String c s)); [reflexivity|].
  now destruct Hs as [-> | ->].
Qed.

(** Whatever the stemmer does elsewhere, these two values break
    idempotence at agreed. *)
Lemma normalizeTerm_agreed :
  stemmer "agreed" = Some "agre" -> stemmer "agre" = Some "agr" ->
  normalizeTerm stemmer "agreed" = "agre"
  /\ normalizeTerm stemmer (normalizeTerm stemmer "agreed") = "agr".
Proof.
  intros H1 H2.
  assert (normalizeTerm stemmer "agreed" = "agre") as E.
  { unfold normalizeTerm.
    change (cleanTerm "agreed") with "agreed". cbn. now rewrite H1. }
  split; [exact E|]. rewrite E.
  unfold normalizeTerm.
  change (cleanTerm "agre") with "agre". cbn. now rewrite H2.
Qed.

End NormalizationFacts.

(** C3, as the code has it. The cleaning step of [normalizeTerm] is
    idempotent, and [normalizeTerm] is idempotent at [t] when the cleaned
    term is not stemmed, when the stemmer throws, and when the stemmer
    returns a term that is already clean and that the stemmer would leave as
    it is (or not stem at all). *)
Theorem normalizeTerm_idempotent_on_stable_stems
  (stemmer : string -> option string) (t : string) :
  cleanTerm (cleanTerm t) = cleanTerm t
  /\ (negb (truthy (cleanTerm t)) || skipsStemming (cleanTerm t) = true ->
      normalizeTerm stemmer (normalizeTerm stemmer t) = normalizeTerm stemmer t)
  /\ (stemmer (cleanTerm t) = None ->
      normalizeTerm stemmer (normalizeTerm stemmer t) = normalizeTerm stemmer t)
  /\ (forall r,
        stemmer (cleanTerm t) = Some r ->
        cleanTerm r = r ->
        negb (truthy r) || skipsStemming r = true
        \/ stemmer r = Some r \/ stemmer r = None ->
        normalizeTerm stemmer (normalizeTerm stemmer t) = normalizeTerm stemmer t).
Proof.
  pose proof (cleanTerm_idempotent t) as Hclean.
  assert (forall r, normalizeTerm stemmer t = r -> cleanTerm r = r ->
            negb (truthy r) || skipsStemming r = true
            \/ stemmer r = Some r \/ stemmer r = None ->
            normalizeTerm stemmer r = r) as Hfix.
  { intros r _ Hr [Hs | Hs].
    - now apply normalizeTerm_unstemmed.
    - now apply normalizeTerm_stable. }
  assert (negb (truthy (cleanTerm t)) || skipsStemming (cleanTerm t) = true ->
          normalizeTerm stemmer t = cleanTerm t) as Hskip.
  { intros Hs. unfold normalizeTerm. cbn zeta.
    destruct (cleanTerm t) as [|c s]; [reflexivity|].
    cbn [truthy negb orb] in *. now rewrite Hs. }
  split; [exact Hclean | split; [|split]].
  - intros Hs. rewrite (Hskip Hs).
    apply normalizeTerm_unstemmed; assumption.
  - intros Hnone.
    assert (normalizeTerm stemmer t = cleanTerm t) as E.
    { unfold normalizeTerm. cbn zeta.
      destruct (cleanTerm t) as [|c s]; [reflexivity|].
      cbn [truthy negb]. rewrite Hnone. now destruct (skipsStemming _). }
    rewrite E. apply normalizeTerm_stable; auto.
  - intros r Hsome Hr Hstable.
    case_eq (negb (truthy (cleanTerm t)) || skipsStemming (cleanTerm t));
      intros Hs.
    + rewrite (Hskip Hs). apply normalizeTerm_unstemmed; assumption.
    + assert (normalizeTerm stemmer t = r) as E.
      { unfold normalizeTerm. cbn zeta.
        apply orb_false_iff in Hs. destruct Hs as [Ht Hk].
        rewrite Ht, Hk. now rewrite Hsome. }
      rewrite E. now apply Hfix.
Qed.

Lemma normalizeTerm_idempotent_on_stable_stems_witness :
  normalizeTerm stemmer_excerpt (normalizeTerm stemmer_excerpt "Tests!")
  = normalizeTerm stemmer_excerpt "Tests!"
  /\ normalizeTerm stemmer_excerpt (normalizeTerm stemmer_excerpt "v2")
     = normalizeTerm stemmer_excerpt "v2".
Proof.
  split.
  - apply (proj2 (proj2 (proj2
      (normalizeTerm_idempotent_on_stable_stems stemmer_excerpt "Tests!")))
      "test").
    + reflexivity.
    + reflexivity.
    + right. left. reflexivity.
  - apply (proj1 (proj2
      (normalizeTerm_idempotent_on_stable_stems stemmer_excerpt "v2"))).
    reflexivity.
Defined.

(** C3, where the claim fails: the stemmer reduces agreed to agre, and
    agre again to agr, so normalizing twice differs from normalizing once. *)
Lemma normalizeTerm_not_idempotent :
  normalizeTerm stemmer_excerpt "agreed" = "agre"
  /\ normalizeTerm stemmer_excerpt (normalizeTerm stemmer_excerpt "agreed") = "agr"
  /\ normalizeTerm stemmer_excerpt (normalizeTerm stemmer_excerpt "agreed")
     <> normalizeTerm stemmer_excerpt "agreed".
Proof.
  destruct (normalizeTerm_agreed stemmer_excerpt eq_refl eq_refl) as [H1 H2].
  split; [exact H1 | split; [exact H2|]].
  rewrite H2, H1. discriminate.
Qed.

(** ** 4.2 Link classification: [isExternal] *)

Section Links.

(** The platform's URL parser. [URL_host href (Some base)] is the outcome
    of [new URL(href, base)] and [URL_host href None] that of
    [new URL(href)]: [Some h] when the call succeeds and the [host] of the
    result is [h], [None] when it throws. *)
Variable URL_host : string -> option string -> option string.

Definition isExternal (href : string) : bool :=
  if negb (truthy href) then false
  else if startsWith "/" href || startsWith "#" href || startsWith "." href
  then false
  else
    match URL_host href (Some "http://example.com") with
    | Some host =>
        truthy host && negb (existsb (String.eqb host) ["example.com"])
    | None => false
    end.

(** The two pushes of [extractLinks] for each scanned [href]. *)
Definition classifyLinks (hrefs : list string) : list string * list string :=
  fold_left
    (fun '(internal, external) url =>
       if isExternal url then (internal, external ++ [url])
       else (internal ++ [url], external))
    hrefs ([], []).

(** The host of the [site] of the Astro configuration,
    [https://keyrxng.xyz]. *)
Definition siteHost : string := "keyrxng.xyz".

(** The classification of the claim, in its words: external if and only
    if parseable as an absolute URL with a non-empty host that differs from
    the host of the audited site. *)
Definition externalBySpec (href : string) : bool :=
  match URL_host href None with
  | Some host => truthy host && negb (String.eqb host siteHost)
  | None => false
  end.

Lemma startsWith_char (c : ascii) (href : string) :
  startsWith (String c EmptyString) href = true <-> first_char href = Some c.
Proof.
  unfold startsWith. destruct href as [|a s]; simpl.
  - split; discriminate.
  - destruct (Ascii.ascii_dec c a) as [<- | Hne].
    + split; [reflexivity | now destruct s].
    + split; [discriminate | congruence].
Qed.

End Links.

(** Values of the platform's URL parser at the links used as examples
    below: an absolute URL has its own host with or without a base, a
    relative reference has the host of the base and does not parse without
    one, and a mailto URL has an empty host. No example asks for another
    link, and the last line answers none. *)
Definition URL_host_excerpt (href : string) (base : option string) : option string :=
  if String.eqb href "https://keyrxng.xyz/writing" then Some "keyrxng.xyz"
  else if String.eqb href "https://github.com/Keyrxng" then Some "github.com"
  else if String.eqb href "http://example.com/docs" then Some "example.com"
  else if String.eqb href "mailto:keyrxng@proton.me" then Some ""
  else if String.eqb href "writing/post" then
         match base with
         | Some _ => Some "example.com"
         | None => None
         end
  else None.

Example isExternal_samples :
  map (isExternal URL_host_excerpt)
    ["https://github.com/Keyrxng"; "writing/post"; "/work"; "#top"; "./a";
     ""; "mailto:keyrxng@proton.me"]
  = [true; false; false; false; false; false; false].
Proof. vm_compute. reflexivity. Qed.

(** C2, as the code has it. A link is external if and only if it is not
    empty, does not start with a slash, a hash or a dot, and resolves
    against the placeholder base [http://example.com] to a URL with a
    non-empty host other than [example.com]. Every link that starts with a
    slash, a hash or a dot is internal. *)
Theorem isExternal_spec
  (URL_host : string -> option string -> option string) (href : string) :
  (isExternal URL_host href = true <->
     href <> ""
     /\ first_char href <> Some "/"%char
     /\ first_char href <> Some "#"%char
     /\ first_char href <> Some "."%char
     /\ exists host,
          URL_host href (Some "http://example.com") = Some host
          /\ host <> "" /\ host <> "example.com")
  /\ (first_char href = Some "/"%char \/ first_char href = Some "#"%char
      \/ first_char href = Some "."%char ->
      isExternal URL_host href = false).
Proof.
  unfold isExternal.
  pose proof (startsWith_char "/" href) as Hslash.
  pose proof (startsWith_char "#" href) as Hhash.
  pose proof (startsWith_char "." href) as Hdot.
  pose proof (truthy_true href) as Htruthy.
  destruct (truthy href); cbn [negb].
  - destruct (startsWith "/" href) eqn:E1;
      [|destruct (startsWith "#" href) eqn:E2;
         [|destruct (startsWith "." href) eqn:E3]]; cbn [orb].
    + split; [split; [discriminate | intros (_ & H & _); exfalso; apply H; now apply Hslash] | reflexivity].
    + split; [split; [discriminate | intros (_ & _ & H & _); exfalso; apply H; now apply Hhash] | reflexivity].
    + split; [split; [discriminate | intros (_ & _ & _ & H & _); exfalso; apply H; now apply Hdot] | reflexivity].
    + split.
      * assert (first_char href <> Some "/"%char) as N1
          by (intros H; apply Hslash in H; congruence).
        assert (first_char href <> Some "#"%char) as N2
          by (intros H; apply Hhash in H; congruence).
        assert (first_char href <> Some "."%char) as N3
          by (intros H; apply Hdot in H; congruence).
        assert (href <> "") as N0 by now apply Htruthy.
        destruct (URL_host href (Some "http://example.com")) as [host|].
        -- cbn [existsb orb]. rewrite orb_false_r.
           rewrite andb_true_iff, negb_true_iff, truthy_true, String.eqb_neq.
           split.
           ++ intros [Ha Hb]. repeat (split; [assumption|]).
              exists host. auto.
           ++ intros (_ & _ & _ & _ & h & Hh & Ha & Hb).
              injection Hh as <-. auto.
        -- split; [discriminate|].
           intros (_ & _ & _ & _ & h & Hh & _). discriminate.
      * intros [H | [H | H]];
          [apply Hslash in H | apply Hhash in H | apply Hdot in H]; congruence.
  - split; [|reflexivity].
    split; [discriminate|].
    intros (H & _). apply Htruthy in H. discriminate.
Qed.

Lemma isExternal_spec_witness :
  isExternal URL_host_excerpt "/work" = false
  /\ isExternal URL_host_excerpt "https://github.com/Keyrxng" = true.
Proof.
  split.
  - apply (proj2 (isExternal_spec URL_host_excerpt "/work")).
    left. reflexivity.
  - apply (proj1 (isExternal_spec URL_host_excerpt "https://github.com/Keyrxng")).
    repeat (split; [discriminate|]).
    exists "github.com". split; [reflexivity | split; discriminate].
Defined.

(** C2, where the claim fails. An absolute link to the audited site itself
    has a host other than [example.com], so it is classified as external,
    although its host is the host of the site; and a link to
    [example.com] is classified as internal although that host is
    foreign. *)
Lemma isExternal_own_site_link :
  isExternal URL_host_excerpt "https://keyrxng.xyz/writing" = true
  /\ externalBySpec URL_host_excerpt "https://keyrxng.xyz/writing" = false
  /\ isExternal URL_host_excerpt "http://example.com/docs" = false
  /\ externalBySpec URL_host_excerpt "http://example.com/docs" = true.
Proof. repeat split. Qed.

(** ** 4.2 and 4.6 Documents, their warnings and the missing-metadata lists *)

Module Analyzer.

Record Headings : Type := {
  h1 : list string;
  h2 : list string;
  h3 : list string
}.

(** What [analyzeFile] has in hand once the file is read and the
    extractors have run: the lower-cased extension, the title and the
    description that [extractTitleFromHtml] and [extractDescriptionFromHtml]
    find in the processed text, those that [extractFrontmatterMeta] reads in
    the front matter of an .md, .mdx or .astro file, the
    headings of [extractHeadingsFromHtml] or [extractMdHeadings], the [name]
    field of a JSON file (a string, when the file parses), and [text]. *)
Record Extracted : Type := {
  ex_filePath : string;
  ex_ext : string;
  ex_htmlTitle : option string;
  ex_htmlDescription : option string;
  ex_fmTitle : option string;
  ex_fmDescription : option string;
  ex_headings : Headings;
  ex_jsonName : option string;
  ex_text : string
}.

(** The fields of [DocumentMetrics] that do not depend on the route or on
    the links and images of the document. *)
Record DocumentMetrics : Type := {
  filePath : string;
  title : option string;
  description : option string;
  headings : Headings;
  wordCount : nat;
  sentenceCount : nat;
  fleschReadingEase : float;
  fleschKincaidGrade : float;
  warnings : list string;
  tokens : list string;
  bigrams : list string;
  trigrams : list string;
  tfidfTerms : list string
}.

(** Truthiness of an optional string: neither [undefined] nor empty. *)
Definition present (o : option string) : bool :=
  match o with
  | Some s => truthy s
  | None => false
  end.

(** [a ?? b]. *)
Definition orElse (a b : option string) : option string :=
  match a with
  | Some _ => a
  | None => b
  end.

Definition isHtmlLike (ext : string) : bool :=
  String.eqb ext ".astro" || String.eqb ext ".html".

(** The backfill of [headings.h1]: the title when there is one, else the
    trimmed [name] of a JSON file. *)
Definition backfillH1 (ext : string) (finalTitle jsonName : option string)
  (hs : Headings) : Headings :=
  if (List.length (h1 hs) =? 0) && present finalTitle then
    {| h1 := match finalTitle with Some t => [t] | None => [] end;
       h2 := h2 hs; h3 := h3 hs |}
  else if (List.length (h1 hs) =? 0) && String.eqb ext ".json" then
    match jsonName with
    | Some name =>
        if truthy (trim name)
        then {| h1 := [trim name]; h2 := h2 hs; h3 := h3 hs |}
        else hs
    | None => hs
    end
  else hs.

(** [pushWeighted(s, weight)]: the words of [s], [weight] times. *)
Fixpoint repeatWords (ws : list string) (weight : nat) : list string :=
  match weight with
  | O => []
  | S k => ws ++ repeatWords ws k
  end.

Definition pushWeighted (s : option string) (weight : nat) : list string :=
  if present s
  then match s with Some v => repeatWords (toWords v) weight | None => [] end
  else [].

(** [if (cond) warnings.push(msg)]. *)
Definition pushIf (cond : bool) (msg : string) (warnings : list string)
  : list string :=
  if cond then warnings ++ [msg] else warnings.

Definition descriptionLengthMessage (n : nat) : string :=
  ("Description length " ++ ofNat n ++ " (recommended 50-160)")%string.

Definition titleLengthMessage (n : nat) : string :=
  ("Title length " ++ ofNat n ++ " (recommended 15-65)")%string.

(** The five checks of [analyzeFile], in the order of the source. *)
Definition collectWarnings (finalTitle finalDescription : option string)
  (hs : Headings) : list string :=
  let warnings := [] in
  let warnings := pushIf (negb (present finalTitle)) "Missing <title>" warnings in
  let warnings :=
    pushIf (negb (present finalDescription)) "Missing meta description" warnings in
  let warnings :=
    pushIf (List.length (h1 hs) =? 0) "Missing H1 heading" warnings in
  let warnings :=
    match finalDescription with
    | Some d =>
        pushIf (truthy d && ((String.length d <? 50) || (160 <? String.length d)))
               (descriptionLengthMessage (String.length d)) warnings
    | None => warnings
    end in
  let warnings :=
    match finalTitle with
    | Some t =>
        pushIf (truthy t && ((String.length t <? 15) || (65 <? String.length t)))
               (titleLengthMessage (String.length t)) warnings
    | None => warnings
    end in
  warnings.

Definition analyzeFile (ex : Extracted) : DocumentMetrics :=
  let ext := ex_ext ex in
  let title := if isHtmlLike ext then ex_htmlTitle ex else None in
  let description := if isHtmlLike ext then ex_htmlDescription ex else None in
  let hasFrontmatter :=
    String.eqb ext ".md" || String.eqb ext ".mdx" || String.eqb ext ".astro" in
  let fmTitle := if hasFrontmatter then ex_fmTitle ex else None in
  let fmDescription := if hasFrontmatter then ex_fmDescription ex else None in
  let finalTitle := orElse title fmTitle in
  let finalDescription := orElse description fmDescription in
  let headings := backfillH1 ext finalTitle (ex_jsonName ex) (ex_headings ex) in
  let text := ex_text ex in
  let scores := computeReadability text in
  let tokens := toWords text in
  let tfidfTerms :=
    pushWeighted finalTitle 5
    ++ pushWeighted finalDescription 4
    ++ flat_map (fun h => pushWeighted (Some h) 4) (h1 headings)
    ++ flat_map (fun h => pushWeighted (Some h) 3) (h2 headings)
    ++ flat_map (fun h => pushWeighted (Some h) 2) (h3 headings)
    ++ tokens in
  {| filePath := ex_filePath ex;
     title := finalTitle;
     description := finalDescription;
     headings := headings;
     wordCount := Readability.wordCount scores;
     sentenceCount := Readability.sentenceCount scores;
     fleschReadingEase := Readability.fleschReadingEase scores;
     fleschKincaidGrade := Readability.fleschKincaidGrade scores;
     warnings := collectWarnings finalTitle finalDescription headings;
     tokens := tokens;
     bigrams := buildNgrams tokens 2;
     trigrams := buildNgrams tokens 3;
     tfidfTerms := filterTerms tfidfTerms |}.

(** The list of the claim, in its words: one slot per check, in the fixed
    order, each filled when its condition holds. *)
Definition slot (cond : bool) (msg : string) : list string :=
  if cond then [msg] else [].

Definition lengthOutside (lo hi : nat) (o : option string) : bool :=
  match o with
  | Some s => truthy s && ((String.length s <? lo) || (hi <? String.length s))
  | None => false
  end.

Definition lengthOf (o : option string) : nat :=
  match o with
  | Some s => String.length s
  | None => 0
  end.

Definition warningsInOrder (d : DocumentMetrics) : list string :=
  slot (negb (present (title d))) "Missing <title>"
  ++ slot (negb (present (description d))) "Missing meta description"
  ++ slot (List.length (h1 (headings d)) =? 0) "Missing H1 heading"
  ++ slot (lengthOutside 50 160 (description d))
          ("Description length " ++ ofNat (lengthOf (description d))
           ++ " (recommended 50-160)")%string
  ++ slot (lengthOutside 15 65 (title d))
          ("Title length " ++ ofNat (lengthOf (title d))
           ++ " (recommended 15-65)")%string.

Section Report.

(** [path.relative(rootDir, p)] of the platform. *)
Variable path_relative : string -> string -> string.

(** [rel.replace(/\\/g, "/")]. *)
Definition slashes (rel : string) : string :=
  smap (fun c => if Ascii.eqb c "\"%char then "/"%char else c) rel.

Definition isDataOnlyJson (rootDir p : string) : bool :=
  let rel := slashes (path_relative rootDir p) in
  if negb (truthy rel) then false
  else if negb (endsWith ".json" rel) then false
  else startsWith "competencies/" rel || startsWith "technologies/" rel.

(** The three missing-metadata lists of the summary of [generateReport]. *)
Record MissingMetadata : Type := {
  pagesMissingTitle : list string;
  pagesMissingDescription : list string;
  pagesMissingH1 : list string
}.

Definition missingMetadata (rootDir : string) (documents : list DocumentMetrics)
  : MissingMetadata :=
  let pagesMissingTitle :=
    map filePath (filter (fun d => negb (present (title d))) documents) in
  let pagesMissingDescription :=
    map filePath (filter (fun d => negb (present (description d))) documents) in
  let pagesMissingH1 :=
    map filePath
      (filter (fun d => List.length (h1 (headings d)) =? 0) documents) in
  let keep := fun p => negb (isDataOnlyJson rootDir p) in
  {| pagesMissingTitle := filter keep pagesMissingTitle;
     pagesMissingDescription := filter keep pagesMissingDescription;
     pagesMissingH1 := filter keep pagesMissingH1 |}.

End Report.

End Analyzer.

Example descriptionLengthMessage_sample :
  Analyzer.descriptionLengthMessage 7 = "Description length 7 (recommended 50-160)"
  /\ Analyzer.titleLengthMessage 120 = "Title length 120 (recommended 15-65)"
  /\ ofNat 0 = "0".
Proof. repeat split. Qed.

(** ** Properties of the warnings and of the missing-metadata lists *)

Section AnalyzerFacts.

Import Analyzer.

Lemma collectWarnings_slots (t d : option string) (hs : Headings) :
  collectWarnings t d hs
  = slot (negb (present t)) "Missing <title>"
    ++ slot (negb (present d)) "Missing meta description"
    ++ slot (List.length (h1 hs) =? 0) "Missing H1 heading"
    ++ slot (lengthOutside 50 160 d) (descriptionLengthMessage (lengthOf d))
    ++ slot (lengthOutside 15 65 t) (titleLengthMessage (lengthOf t)).
Proof.
  unfold collectWarnings, pushIf, slot, lengthOutside, lengthOf.
  destruct t as [t|]; destruct d as [d|]; cbn [present negb];
    repeat match goal with
           | |- context [if ?b then _ else _] => destruct b
           end; reflexivity.
Qed.

Lemma In_slot (cond : bool) (msg : string) (rest front : list string) :
  cond = true -> In msg (front ++ slot cond msg ++ rest).
Proof.
  intros ->. apply in_or_app. right. now left.
Qed.

Lemma warnings_missing_title (ex : Extracted) :
  present (title (analyzeFile ex)) = false ->
  In "Missing <title>" (warnings (analyzeFile ex)).
Proof.
  intros H. cbn [warnings analyzeFile title] in *.
  rewrite collectWarnings_slots. rewrite H. now left.
Qed.

Lemma warnings_missing_description (ex : Extracted) :
  present (description (analyzeFile ex)) = false ->
  In "Missing meta description" (warnings (analyzeFile ex)).
Proof.
  intros H. cbn [warnings analyzeFile description] in *.
  rewrite collectWarnings_slots. rewrite H.
  apply (In_slot true _ _ (slot _ _)). reflexivity.
Qed.

Lemma warnings_missing_h1 (ex : Extracted) :
  h1 (headings (analyzeFile ex)) = [] ->
  In "Missing H1 heading" (warnings (analyzeFile ex)).
Proof.
  intros H. cbn [warnings analyzeFile headings] in *.
  rewrite collectWarnings_slots. rewrite H.
  apply in_or_app. right. apply in_or_app. right. now left.
Qed.

Lemma not_In_filtered (keep : string -> bool) (l : list string) (p : string) :
  keep p = false -> ~ In p (filter keep l).
Proof. intros H Hin. apply filter_In in Hin. destruct Hin. congruence. Qed.

End AnalyzerFacts.

(** C4. The warnings of a document are the five checks in the fixed order
    missing title, missing description, missing H1, description length
    outside 50..160, title length outside 15..65, each present when its
    condition holds; the two length messages carry the length in decimal. A
    document without title, description and H1 has exactly the first three
    warnings. *)
Theorem analyzeFile_warnings_in_order (ex : Analyzer.Extracted) :
  Analyzer.warnings (Analyzer.analyzeFile ex)
  = Analyzer.warningsInOrder (Analyzer.analyzeFile ex)
  /\ (Analyzer.present (Analyzer.title (Analyzer.analyzeFile ex)) = false ->
      Analyzer.present (Analyzer.description (Analyzer.analyzeFile ex)) = false ->
      Analyzer.h1 (Analyzer.headings (Analyzer.analyzeFile ex)) = [] ->
      Analyzer.warnings (Analyzer.analyzeFile ex)
      = ["Missing <title>"; "Missing meta description"; "Missing H1 heading"]).
Proof.
  assert (Analyzer.warnings (Analyzer.analyzeFile ex)
          = Analyzer.warningsInOrder (Analyzer.analyzeFile ex)) as Horder.
  { unfold Analyzer.warningsInOrder.
    cbn [Analyzer.warnings Analyzer.analyzeFile Analyzer.title
         Analyzer.description Analyzer.headings].
    apply collectWarnings_slots. }
  split; [exact Horder|].
  intros Ht Hd Hh. rewrite Horder. unfold Analyzer.warningsInOrder.
  rewrite Ht, Hd, Hh.
  assert (forall lo hi o, Analyzer.present o = false ->
            Analyzer.lengthOutside lo hi o = false) as Hlen.
  { intros lo hi [s|] H; [|reflexivity]. cbn in *. now rewrite H. }
  rewrite (Hlen _ _ _ Ht), (Hlen _ _ _ Hd). reflexivity.
Qed.

Definition draft_without_metadata : Analyzer.Extracted :=
  {| Analyzer.ex_filePath := "/site/src/content/writing/draft.md";
     Analyzer.ex_ext := ".md";
     Analyzer.ex_htmlTitle := None;
     Analyzer.ex_htmlDescription := None;
     Analyzer.ex_fmTitle := None;
     Analyzer.ex_fmDescription := None;
     Analyzer.ex_headings :=
       {| Analyzer.h1 := []; Analyzer.h2 := ["Notes"]; Analyzer.h3 := [] |};
     Analyzer.ex_jsonName := None;
     Analyzer.ex_text := "Notes on caching. Nothing else yet." |}.

Lemma analyzeFile_warnings_in_order_witness :
  Analyzer.warnings (Analyzer.analyzeFile draft_without_metadata)
  = ["Missing <title>"; "Missing meta description"; "Missing H1 heading"].
Proof.
  apply (proj2 (analyzeFile_warnings_in_order draft_without_metadata));
    reflexivity.
Defined.

Example warnings_lengths_sample :
  Analyzer.warnings
    (Analyzer.analyzeFile
       {| Analyzer.ex_filePath := "/site/src/pages/index.astro";
          Analyzer.ex_ext := ".astro";
          Analyzer.ex_htmlTitle := Some "Home";
          Analyzer.ex_htmlDescription := Some "Personal site";
          Analyzer.ex_fmTitle := None;
          Analyzer.ex_fmDescription := None;
          Analyzer.ex_headings :=
            {| Analyzer.h1 := []; Analyzer.h2 := []; Analyzer.h3 := [] |};
          Analyzer.ex_jsonName := None;
          Analyzer.ex_text := "Welcome." |})
  = ["Description length 13 (recommended 50-160)";
     "Title length 4 (recommended 15-65)"].
Proof. vm_compute. reflexivity. Qed.

(** [path.relative] for a path below the root, on a POSIX platform. *)
Definition path_relative_below (rootDir p : string) : string :=
  if String.prefix (rootDir ++ "/") p
  then String.substring (S (String.length rootDir))
         (String.length p - S (String.length rootDir)) p
  else p.

(** C6. A document whose path relative to the root ends in .json and
    starts with competencies/ or technologies/ is in none of the three
    missing-metadata lists of the summary, whatever it lacks, while its own
    warnings still name each of title, description and H1 that it lacks; a
    .json document always lacks title and description. *)
Theorem data_only_json_not_flagged
  (path_relative : string -> string -> string) (rootDir : string)
  (sources : list Analyzer.Extracted) (ex : Analyzer.Extracted) :
  let d := Analyzer.analyzeFile ex in
  let rel := Analyzer.slashes (path_relative rootDir (Analyzer.filePath d)) in
  let summary :=
    Analyzer.missingMetadata path_relative rootDir
      (map Analyzer.analyzeFile sources) in
  In ex sources ->
  endsWith ".json" rel = true ->
  startsWith "competencies/" rel = true \/ startsWith "technologies/" rel = true ->
  (~ In (Analyzer.filePath d) (Analyzer.pagesMissingTitle summary)
   /\ ~ In (Analyzer.filePath d) (Analyzer.pagesMissingDescription summary)
   /\ ~ In (Analyzer.filePath d) (Analyzer.pagesMissingH1 summary))
  /\ (Analyzer.present (Analyzer.title d) = false ->
      In "Missing <title>" (Analyzer.warnings d))
  /\ (Analyzer.present (Analyzer.description d) = false ->
      In "Missing meta description" (Analyzer.warnings d))
  /\ (Analyzer.h1 (Analyzer.headings d) = [] ->
      In "Missing H1 heading" (Analyzer.warnings d))
  /\ (Analyzer.ex_ext ex = ".json" ->
      In "Missing <title>" (Analyzer.warnings d)
      /\ In "Missing meta description" (Analyzer.warnings d)).
Proof.
  intros d rel summary _ Hjson Hdir.
  assert (Analyzer.isDataOnlyJson path_relative rootDir (Analyzer.filePath d)
          = true) as Hdata.
  { unfold Analyzer.isDataOnlyJson. fold rel.
    destruct rel as [|c r] eqn:E; [discriminate Hjson|].
    cbn [truthy negb]. rewrite Hjson. cbn [negb].
    destruct Hdir as [-> | ->]; [reflexivity | apply orb_true_r]. }
  assert (negb (Analyzer.isDataOnlyJson path_relative rootDir
                  (Analyzer.filePath d)) = false) as Hkeep
    by now rewrite Hdata.
  split; [|split; [|split; [|split]]].
  - unfold summary, Analyzer.missingMetadata.
    cbn [Analyzer.pagesMissingTitle Analyzer.pagesMissingDescription
         Analyzer.pagesMissingH1].
    repeat split;
      apply (not_In_filtered
               (fun p => negb (Analyzer.isDataOnlyJson path_relative rootDir p)));
      exact Hkeep.
  - apply warnings_missing_title.
  - apply warnings_missing_description.
  - apply warnings_missing_h1.
  - intros Hext. split.
    + apply warnings_missing_title.
      cbn [Analyzer.title Analyzer.analyzeFile]. now rewrite Hext.
    + apply warnings_missing_description.
      cbn [Analyzer.description Analyzer.analyzeFile]. now rewrite Hext.
Qed.

Definition competency_record : Analyzer.Extracted :=
  {| Analyzer.ex_filePath := "/site/src/content/competencies/testing.json";
     Analyzer.ex_ext := ".json";
     Analyzer.ex_htmlTitle := None;
     Analyzer.ex_htmlDescription := None;
     Analyzer.ex_fmTitle := None;
     Analyzer.ex_fmDescription := None;
     Analyzer.ex_headings :=
       {| Analyzer.h1 := []; Analyzer.h2 := []; Analyzer.h3 := [] |};
     Analyzer.ex_jsonName := None;
     Analyzer.ex_text := "Unit and integration testing of data pipelines." |}.

Definition sample_summary : Analyzer.MissingMetadata :=
  Analyzer.missingMetadata path_relative_below "/site/src/content"
    (map Analyzer.analyzeFile [draft_without_metadata; competency_record]).

Lemma data_only_json_not_flagged_witness :
  Analyzer.pagesMissingTitle sample_summary
  = ["/site/src/content/writing/draft.md"]
  /\ Analyzer.pagesMissingH1 sample_summary
     = ["/site/src/content/writing/draft.md"]
  /\ ~ In (Analyzer.filePath (Analyzer.analyzeFile competency_record))
         (Analyzer.pagesMissingTitle sample_summary)
  /\ In "Missing H1 heading"
        (Analyzer.warnings (Analyzer.analyzeFile competency_record)).
Proof.
  pose proof (data_only_json_not_flagged path_relative_below "/site/src/content"
                [draft_without_metadata; competency_record] competency_record
                (or_intror (or_introl eq_refl)) eq_refl (or_introl eq_refl))
    as [[Ht _] [_ [_ [Hh _]]]].
  split; [reflexivity | split; [reflexivity | split]].
  - exact Ht.
  - apply Hh. reflexivity.
Defined.

(** ** JavaScript maps, sets and sort *)

Module JSMap.

Section Map.

Context {V : Type}.

(** A [Map] with string keys, as the list of its entries in insertion
    order. *)
Definition t : Type := list (string * V).

Fixpoint get (k : string) (m : t) : option V :=
  match m with
  | [] => None
  | (k', v) :: m' => if String.eqb k k' then Some v else get k m'
  end.

(** [m.set(k, v)]: an existing key keeps its place. *)
Fixpoint set (k : string) (v : V) (m : t) : t :=
  match m with
  | [] => [(k, v)]
  | (k', v') :: m' =>
      if String.eqb k k' then (k, v) :: m' else (k', v') :: set k v m'
  end.

Definition keys (m : t) : list string := map fst m.

End Map.

Arguments t V : clear implicits.

(** [(m.get(k) || 0)] on a map of counts, and the increment
    [m.set(k, (m.get(k) || 0) + 1)]. *)
Definition getOr0 (k : string) (m : t nat) : nat :=
  match get k m with
  | Some n => n
  | None => 0
  end.

Definition bump (k : string) (m : t nat) : t nat := set k (getOr0 k m + 1) m.

(** [new Set(l)], as the list of its elements in insertion order. *)
Definition setAdd (x : string) (s : list string) : list string :=
  if existsb (String.eqb x) s then s else s ++ [x].

Definition setOf (l : list string) : list string :=
  fold_left (fun s x => setAdd x s) l [].

End JSMap.

Module JSSort.

Section Sort.

Context {A : Type}.

(** [arr.sort(compareFn)]. The comparator says that [a] goes after [b]
    when its result is positive; a result that is zero, negative or NaN
    leaves the two in their order. The sort is stable, and where the
    comparator orders the elements consistently every stable sort returns
    the same array: the one that insertion from the right builds. *)
Variable compareFn : A -> A -> float.

Definition goesAfter (a b : A) : bool := (0 <? compareFn a b)%float.

Fixpoint insert (x : A) (l : list A) : list A :=
  match l with
  | [] => [x]
  | y :: l' => if goesAfter x y then y :: insert x l' else x :: l
  end.

Definition sort (l : list A) : list A := fold_right insert [] l.

End Sort.

End JSSort.

(** ** 4.5 TF-IDF engine *)

Module TfIdf.

Record Doc : Type := {
  id : string;
  terms : list string
}.

Record Options : Type := {
  minDocFreq : option nat
}.

Record Scored : Type := {
  term : string;
  tfidf : float
}.

(** [(x || 0)] on a score that may be missing: [undefined], zero and NaN
    are falsy. *)
Definition orZero (x : option float) : float :=
  match x with
  | Some v => if (v =? 0)%float || negb (v =? v)%float then 0%float else v
  | None => 0%float
  end.

(** The comparator of the final sort, [(a, b) => b.tfidf - a.tfidf]. *)
Definition byScoreDescending (a b : Scored) : float :=
  (tfidf b - tfidf a)%float.

(** The selection loop over the surface forms of one normalized term,
    with its two variables [best] and [bestCount]. *)
Definition betterSurface (best : string) (bestCount : nat)
  (surf : string) (cnt : nat) : bool :=
  (bestCount <? cnt)
  || ((cnt =? bestCount)
      && (String.eqb best "" || (String.length surf <? String.length best))).

Section Engine.

Variable stemmer : string -> option string.
Variable Math_log : float -> float.

Definition num_of_nat := Readability.num_of_nat.

(** [surfaceMap.get(norm)], created empty when missing, then
    [m.set(surf, (m.get(surf) || 0) + 1)]. *)
Definition recordSurface (surfaceMap : JSMap.t (JSMap.t nat)) (surf : string)
  : JSMap.t (JSMap.t nat) :=
  let norm := normalizeTerm stemmer surf in
  if negb (truthy norm) then surfaceMap
  else
    let m := match JSMap.get norm surfaceMap with
             | Some m => m
             | None => []
             end in
    JSMap.set norm (JSMap.bump surf m) surfaceMap.

(** The first loop of [computeTfidfEnhanced] over the documents. *)
Definition indexDoc (state : JSMap.t nat * JSMap.t (JSMap.t nat)) (d : Doc)
  : JSMap.t nat * JSMap.t (JSMap.t nat) :=
  let '(termDocFreq, surfaceMap) := state in
  let normals := filter truthy (map (normalizeTerm stemmer) (terms d)) in
  let unique := JSMap.setOf normals in
  let surfaceMap := fold_left recordSurface (terms d) surfaceMap in
  let termDocFreq := fold_left (fun m t => JSMap.bump t m) unique termDocFreq in
  (termDocFreq, surfaceMap).

Definition indexCorpus (allDocs : list Doc)
  : JSMap.t nat * JSMap.t (JSMap.t nat) :=
  fold_left indexDoc allDocs ([], []).

(** The map [tf] of one document. *)
Definition termFreq (d : Doc) : JSMap.t nat :=
  fold_left
    (fun tf t0 =>
       let t := normalizeTerm stemmer t0 in
       if negb (truthy t) then tf else JSMap.bump t tf)
    (terms d) [].

(** The body of the loop over the entries of [tf]. *)
Definition addScore (docCount minDocFreq : nat) (termDocFreq : JSMap.t nat)
  (tfidfScores : JSMap.t float) (entry : string * nat) : JSMap.t float :=
  let '(t, f) := entry in
  let df := JSMap.getOr0 t termDocFreq in
  if df <? minDocFreq then tfidfScores
  else
    let subtf := (1 + Math_log (num_of_nat f))%float in
    let idf :=
      (Math_log (num_of_nat (docCount + 1) / num_of_nat (df + 1)) + 1)%float in
    let score := (subtf * idf)%float in
    JSMap.set t (orZero (JSMap.get t tfidfScores) + score)%float tfidfScores.

(** The second loop over the documents. *)
Definition scoreCorpus (minDocFreq : nat) (allDocs : list Doc) : JSMap.t float :=
  let docCount := List.length allDocs in
  let termDocFreq := fst (indexCorpus allDocs) in
  fold_left
    (fun tfidfScores d =>
       fold_left (addScore docCount minDocFreq termDocFreq) (termFreq d) tfidfScores)
    allDocs [].

Definition pickSurface (m : JSMap.t nat) : string * nat :=
  fold_left
    (fun '(best, bestCount) '(surf, cnt) =>
       if betterSurface best bestCount surf cnt then (surf, cnt)
       else (best, bestCount))
    m (EmptyString, 0).

Definition canonicalForm (surfaceMap : JSMap.t (JSMap.t nat)) (norm : string)
  : string :=
  match JSMap.get norm surfaceMap with
  | None => norm
  | Some m =>
      let best := fst (pickSurface m) in
      if truthy best then best else norm
  end.

Definition effectiveMinDocFreq (opts : option Options) : nat :=
  match opts with
  | Some o => match minDocFreq o with Some n => n | None => 2 end
  | None => 2
  end.

(** The array before it is sorted and sliced. *)
Definition scoredTerms (allDocs : list Doc) (opts : option Options) : list Scored :=
  let surfaceMap := snd (indexCorpus allDocs) in
  map (fun '(t, s) => {| term := canonicalForm surfaceMap t; tfidf := s |})
      (scoreCorpus (effectiveMinDocFreq opts) allDocs).

(** [topK] is a count, [None] when the argument is left out. *)
Definition computeTfidfEnhanced (allDocs : list Doc) (topK : option nat)
  (opts : option Options) : list Scored :=
  let k := match topK with Some k => k | None => 25 end in
  firstn k (JSSort.sort byScoreDescending (scoredTerms allDocs opts)).

(** [canonicalizeCorpus], with its own two loops. *)
Definition canonicalSurfaceMap (allDocs : list Doc) : JSMap.t (JSMap.t nat) :=
  fold_left
    (fun surfaceMap d =>
       fold_left
         (fun surfaceMap surf =>
            let norm := normalizeTerm stemmer surf in
            if negb (truthy norm) then surfaceMap
            else
              let m := match JSMap.get norm surfaceMap with
                       | Some m => m
                       | None => []
                       end in
              JSMap.set norm (JSMap.set surf (JSMap.getOr0 surf m + 1) m) surfaceMap)
         (terms d) surfaceMap)
    allDocs [].

Definition canonicalizeCorpus (allDocs : list Doc) : JSMap.t string :=
  fold_left
    (fun canonical '(norm, m) =>
       let '(best, _) :=
         fold_left
           (fun '(best, bestCount) '(surf, cnt) =>
              if (bestCount <? cnt)
                 || ((cnt =? bestCount)
                     && (String.eqb best ""
                         || (String.length surf <? String.length best)))
              then (surf, cnt) else (best, bestCount))
           m (EmptyString, 0) in
       JSMap.set norm (if truthy best then best else norm) canonical)
    (canonicalSurfaceMap allDocs) [].

(** The quantities of the claims, in their words. *)
Definition normalsOf (d : Doc) : list string :=
  filter truthy (map (normalizeTerm stemmer) (terms d)).

Definition contains (t : string) (d : Doc) : bool :=
  existsb (String.eqb t) (normalsOf d).

(** [df(t)]: the number of documents that contain [t]. *)
Definition docFreq (allDocs : list Doc) (t : string) : nat :=
  List.length (filter (contains t) allDocs).

(** [f]: the count of [t] among the normalized terms of [d]. *)
Definition freqIn (d : Doc) (t : string) : nat :=
  count_occ string_dec (normalsOf d) t.

(** [(1 + ln f) * (ln((N + 1) / (df + 1)) + 1)]. *)
Definition contribution (allDocs : list Doc) (t : string) (d : Doc) : float :=
  ((1 + Math_log (num_of_nat (freqIn d t)))
   * (Math_log (num_of_nat (List.length allDocs + 1)
                / num_of_nat (docFreq allDocs t + 1)) + 1))%float.

(** The sum of the contributions of the documents that contain [t], in
    the order of the corpus, as the accumulator
    [(tfidfScores.get(t) || 0) + score] adds them up; [None] when no
    document contains [t]. *)
Definition summedScore (allDocs : list Doc) (t : string) : option float :=
  fold_left
    (fun acc d => Some (orZero acc + contribution allDocs t d)%float)
    (filter (contains t) allDocs) None.

(** The occurrences of a surface form in the whole corpus. *)
Definition surfaceCount (allDocs : list Doc) (surf : string) : nat :=
  count_occ string_dec (flat_map terms allDocs) surf.

End Engine.

End TfIdf.

(** An approximation of the natural logarithm, to run the examples:
    twice the series of the inverse hyperbolic tangent at
    [(x - 1) / (x + 1)]. *)
Fixpoint atanh_series (z power : float) (k terms : nat) : float :=
  match terms with
  | O => 0%float
  | S terms' =>
      (power / Readability.num_of_nat (2 * k + 1)
       + atanh_series z (power * z * z) (S k) terms')%float
  end.

Definition log_series (x : float) : float :=
  let z := ((x - 1) / (x + 1))%float in
  (2 * atanh_series z z 0 80)%float.

(** ** Properties of maps, sets and sort *)

Section MapFacts.

Context {V : Type}.

Implicit Types (m : JSMap.t V) (k : string) (v : V).

Lemma get_set_same k v m : JSMap.get k (JSMap.set k v m) = Some v.
Proof.
  induction m as [|[k' v'] m IH]; simpl.
  - now rewrite String.eqb_refl.
  - destruct (String.eqb k k') eqn:E; simpl.
    + now rewrite String.eqb_refl.
    + now rewrite E.
Qed.

Lemma get_set_other k k' v m :
  k' <> k -> JSMap.get k' (JSMap.set k v m) = JSMap.get k' m.
Proof.
  intros Hne. induction m as [|[k0 v0] m IH]; simpl.
  - apply String.eqb_neq in Hne. now rewrite Hne.
  - destruct (String.eqb k k0) eqn:E; simpl.
    + apply String.eqb_eq in E. subst k0.
      apply String.eqb_neq in Hne. now rewrite Hne.
    + now rewrite IH.
Qed.

Lemma get_None_keys k m : JSMap.get k m = None <-> ~ In k (JSMap.keys m).
Proof.
  induction m as [|[k' v'] m IH]; simpl.
  - tauto.
  - destruct (String.eqb k k') eqn:E.
    + apply String.eqb_eq in E. subst. split; [discriminate | tauto].
    + apply String.eqb_neq in E. rewrite IH. split.
      * intros H [H1 | H1]; [congruence | tauto].
      * tauto.
Qed.

Lemma keys_set k v m :
  JSMap.keys (JSMap.set k v m)
  = if existsb (String.eqb k) (JSMap.keys m)
    then JSMap.keys m else JSMap.keys m ++ [k].
Proof.
  induction m as [|[k' v'] m IH]; simpl; [reflexivity|].
  destruct (String.eqb k k') eqn:E; simpl.
  - apply String.eqb_eq in E. now subst.
  - unfold JSMap.keys in *. rewrite IH.
    now destruct (existsb (String.eqb k) (map fst m)).
Qed.

Lemma existsb_eqb_In k (l : list string) :
  existsb (String.eqb k) l = true <-> In k l.
Proof.
  rewrite existsb_exists. split.
  - intros [x [Hx He]]. apply String.eqb_eq in He. now subst.
  - intros H. exists k. split; [assumption | apply String.eqb_refl].
Qed.

Lemma In_keys_set k k' v m :
  In k' (JSMap.keys (JSMap.set k v m)) <-> k' = k \/ In k' (JSMap.keys m).
Proof.
  rewrite keys_set. destruct (existsb (String.eqb k) (JSMap.keys m)) eqn:E.
  - apply existsb_eqb_In in E. split; [tauto|]. intros [-> | H]; assumption.
  - rewrite in_app_iff. simpl. intuition congruence.
Qed.

Lemma NoDup_keys_set k v m :
  NoDup (JSMap.keys m) -> NoDup (JSMap.keys (JSMap.set k v m)).
Proof.
  intros H. rewrite keys_set.
  destruct (existsb (String.eqb k) (JSMap.keys m)) eqn:E; [assumption|].
  apply NoDup_app; [assumption | repeat constructor; simpl; tauto |].
  intros x Hx [Heq | []]. subst x.
  assert (existsb (String.eqb k) (JSMap.keys m) = true) by now apply existsb_eqb_In.
  congruence.
Qed.

Lemma get_Some_In k v m : JSMap.get k m = Some v -> In (k, v) m.
Proof.
  induction m as [|[k' v'] m IH]; simpl; [discriminate|].
  destruct (String.eqb k k') eqn:E.
  - apply String.eqb_eq in E. intros [= ->]. left. now subst.
  - intros H. right. now apply IH.
Qed.

Lemma In_get_Some k v m :
  NoDup (JSMap.keys m) -> In (k, v) m -> JSMap.get k m = Some v.
Proof.
  induction m as [|[k' v'] m IH]; simpl; [tauto|].
  intros Hnd [[= -> ->] | Hin].
  - now rewrite String.eqb_refl.
  - inversion Hnd as [|? ? Hnotin Hnd']; subst.
    destruct (String.eqb k k') eqn:E.
    + apply String.eqb_eq in E. subst k'. exfalso. apply Hnotin.
      change k with (fst (k, v)). now apply in_map.
    + now apply IH.
Qed.

End MapFacts.

(** A loop that sets one key per entry of a list without repeated keys. *)
Lemma get_fold_set {V X : Type} (skip : string -> bool)
  (value : option V -> string -> X -> V) (es : list (string * X)) :
  NoDup (map fst es) ->
  forall m k,
    JSMap.get k
      (fold_left (fun acc '(k', x) =>
                    if skip k' then acc
                    else JSMap.set k' (value (JSMap.get k' acc) k' x) acc)
                 es m)
    = match JSMap.get k es with
      | Some x => if skip k then JSMap.get k m
                  else Some (value (JSMap.get k m) k x)
      | None => JSMap.get k m
      end.
Proof.
  induction es as [|[k0 x0] es IH]; intros Hnd m k; [reflexivity|].
  inversion Hnd as [|? ? Hnotin Hnd']; subst.
  cbn [fold_left JSMap.get]. rewrite (IH Hnd').
  destruct (String.eqb k k0) eqn:E.
  - apply String.eqb_eq in E. subst k0.
    assert (JSMap.get k es = None) as -> by now apply get_None_keys.
    destruct (skip k); [reflexivity | apply get_set_same].
  - apply String.eqb_neq in E.
    assert (JSMap.get k (if skip k0 then m
                         else JSMap.set k0 (value (JSMap.get k0 m) k0 x0) m)
            = JSMap.get k m) as ->.
    { destruct (skip k0); [reflexivity | now apply get_set_other]. }
    reflexivity.
Qed.


Section CountFacts.

Lemma getOr0_bump k x (m : JSMap.t nat) :
  JSMap.getOr0 k (JSMap.bump x m)
  = JSMap.getOr0 k m + (if string_dec x k then 1 else 0).
Proof.
  unfold JSMap.getOr0, JSMap.bump.
  destruct (string_dec x k) as [-> | Hne].
  - rewrite get_set_same. reflexivity.
  - rewrite get_set_other by congruence. lia.
Qed.

Lemma getOr0_count (l : list string) (m : JSMap.t nat) k :
  JSMap.getOr0 k (fold_left (fun m x => JSMap.bump x m) l m)
  = JSMap.getOr0 k m + count_occ string_dec l k.
Proof.
  revert m. induction l as [|x l IH]; intros m; cbn [fold_left count_occ].
  - lia.
  - rewrite IH, getOr0_bump. destruct (string_dec x k); lia.
Qed.

Lemma NoDup_keys_count (l : list string) (m : JSMap.t nat) :
  NoDup (JSMap.keys m) ->
  NoDup (JSMap.keys (fold_left (fun m x => JSMap.bump x m) l m)).
Proof.
  revert m. induction l as [|x l IH]; intros m H; cbn [fold_left].
  - assumption.
  - apply IH. now apply NoDup_keys_set.
Qed.

Lemma In_keys_count (l : list string) (m : JSMap.t nat) k :
  In k (JSMap.keys (fold_left (fun m x => JSMap.bump x m) l m))
  <-> In k l \/ In k (JSMap.keys m).
Proof.
  revert m. induction l as [|x l IH]; intros m; cbn [fold_left In].
  - tauto.
  - rewrite IH. unfold JSMap.bump. rewrite In_keys_set.
    intuition congruence.
Qed.

Lemma setAdd_In x y (s : list string) :
  In y (JSMap.setAdd x s) <-> y = x \/ In y s.
Proof.
  unfold JSMap.setAdd. destruct (existsb (String.eqb x) s) eqn:E.
  - apply existsb_eqb_In in E. intuition congruence.
  - rewrite in_app_iff. simpl. intuition congruence.
Qed.

Lemma setAdd_NoDup x (s : list string) : NoDup s -> NoDup (JSMap.setAdd x s).
Proof.
  intros H. unfold JSMap.setAdd.
  destruct (existsb (String.eqb x) s) eqn:E; [assumption|].
  apply NoDup_app; [assumption | repeat constructor; simpl; tauto |].
  intros y Hy [Heq | []]. subst y.
  assert (existsb (String.eqb x) s = true) by now apply existsb_eqb_In.
  congruence.
Qed.

Lemma setOf_from (l s : list string) :
  NoDup s ->
  NoDup (fold_left (fun s x => JSMap.setAdd x s) l s)
  /\ forall y, In y (fold_left (fun s x => JSMap.setAdd x s) l s)
               <-> In y l \/ In y s.
Proof.
  revert s. induction l as [|x l IH]; intros s Hs; cbn [fold_left].
  - split; [assumption | intros y; simpl; tauto].
  - destruct (IH (JSMap.setAdd x s) (setAdd_NoDup x s Hs)) as [Hnd Hin].
    split; [assumption|]. intros y. rewrite Hin, setAdd_In. simpl.
    intuition congruence.
Qed.

(** An element of a set is counted once. *)
Lemma count_occ_setOf (l : list string) k :
  count_occ string_dec (JSMap.setOf l) k
  = if existsb (String.eqb k) l then 1 else 0.
Proof.
  destruct (setOf_from l [] (NoDup_nil _)) as [Hnd Hin].
  fold (JSMap.setOf l) in Hnd, Hin.
  destruct (existsb (String.eqb k) l) eqn:E.
  - apply existsb_eqb_In in E.
    apply NoDup_count_occ'; [assumption|]. apply Hin. now left.
  - apply count_occ_not_In. intros H. apply Hin in H.
    destruct H as [H | []]. apply existsb_eqb_In in H. congruence.
Qed.

End CountFacts.

Section SortFacts.

Context {A : Type}.
Variable compareFn : A -> A -> float.

Local Abbreviation after := (JSSort.goesAfter compareFn).

Lemma insert_Permutation (x : A) (l : list A) :
  Permutation (x :: l) (JSSort.insert compareFn x l).
Proof.
  induction l as [|y l IH]; simpl; [reflexivity|].
  destruct (after x y); [|reflexivity].
  rewrite perm_swap. now constructor.
Qed.

Lemma sort_Permutation (l : list A) :
  Permutation l (JSSort.sort compareFn l).
Proof.
  induction l as [|x l IH]; simpl; [reflexivity|].
  rewrite <- insert_Permutation. now constructor.
Qed.

(** The sorted array is ordered by any relation [R] that the answers of
    the comparator establish on the elements and that is transitive on
    them. *)
Lemma insert_sorted (R : A -> A -> Prop) (u : list A) (x : A) (l : list A) :
  (forall a b, In a u -> In b u -> after a b = true -> R b a) ->
  (forall a b, In a u -> In b u -> after a b = false -> R a b) ->
  (forall a b c, In a u -> In b u -> In c u -> R a b -> R b c -> R a c) ->
  In x u -> incl l u ->
  StronglySorted R l ->
  StronglySorted R (JSSort.insert compareFn x l).
Proof.
  intros Hafter Hnot Htrans Hx. induction l as [|y l IH]; intros Hl Hs; simpl.
  - repeat constructor.
  - inversion Hs as [|? ? Hs' Hall]; subst.
    assert (In y u) as Hy by (apply Hl; now left).
    assert (incl l u) as Hl' by (intros z Hz; apply Hl; now right).
    destruct (after x y) eqn:E.
    + constructor; [now apply IH|].
      apply Forall_forall. intros z Hz.
      apply (Permutation_in _ (Permutation_sym (insert_Permutation x l))) in Hz.
      destruct Hz as [<- | Hz].
      * now apply Hafter.
      * rewrite Forall_forall in Hall. now apply Hall.
    + constructor; [assumption|].
      constructor; [now apply Hnot|].
      apply Forall_forall. intros z Hz.
      rewrite Forall_forall in Hall.
      apply (Htrans x y z); auto.
Qed.

Lemma sort_sorted (R : A -> A -> Prop) (l : list A) :
  (forall a b, In a l -> In b l -> after a b = true -> R b a) ->
  (forall a b, In a l -> In b l -> after a b = false -> R a b) ->
  (forall a b c, In a l -> In b l -> In c l -> R a b -> R b c -> R a c) ->
  StronglySorted R (JSSort.sort compareFn l).
Proof.
  intros Hafter Hnot Htrans.
  assert (forall l', incl l' l ->
            StronglySorted R (JSSort.sort compareFn l')) as Hgen.
  { induction l' as [|x l' IH]; intros Hincl; simpl.
    - constructor.
    - apply (insert_sorted R l); auto.
      + apply Hincl. now left.
      + intros z Hz. apply Hincl. right.
        apply (Permutation_in _ (Permutation_sym (sort_Permutation l'))).
        assumption.
      + apply IH. intros z Hz. apply Hincl. now right. }
  apply Hgen. apply incl_refl.
Qed.

Lemma firstn_sorted (R : A -> A -> Prop) (n : nat) (l : list A) :
  StronglySorted R l -> StronglySorted R (firstn n l).
Proof.
  revert n. induction l as [|x l IH]; intros n Hs.
  - rewrite firstn_nil. constructor.
  - destruct n as [|n]; simpl; [constructor|].
    inversion Hs as [|? ? Hs' Hall]; subst.
    constructor; [now apply IH|].
    apply Forall_forall. intros z Hz. rewrite Forall_forall in Hall.
    apply Hall. rewrite <- (firstn_skipn n l). apply in_or_app. now left.
Qed.

End SortFacts.

(** ** Properties of the TF-IDF engine *)

Section EngineFacts.

Import TfIdf.

Variable stemmer : string -> option string.
Variable Math_log : float -> float.

Local Abbreviation norm := (normalizeTerm stemmer).

Lemma fold_left_if_filter {X S : Type} (c : X -> bool) (g : S -> X -> S)
  (l : list X) (s : S) :
  fold_left (fun acc x => if c x then g acc x else acc) l s
  = fold_left g (filter c l) s.
Proof.
  revert s. induction l as [|x l IH]; intros s; simpl; [reflexivity|].
  rewrite IH. now destruct (c x).
Qed.

Lemma fold_left_pointwise {X S : Type} (f g : S -> X -> S)
  (l : list X) (s : S) :
  (forall a x, f a x = g a x) -> fold_left f l s = fold_left g l s.
Proof.
  intros H. revert s. induction l as [|x l IH]; intros s; simpl; [reflexivity|].
  now rewrite H, IH.
Qed.

Lemma fold_left_flat_map {X Y S : Type} (f : S -> Y -> S) (g : X -> list Y)
  (l : list X) (s : S) :
  fold_left (fun acc x => fold_left f (g x) acc) l s
  = fold_left f (flat_map g l) s.
Proof.
  revert s. induction l as [|x l IH]; intros s; simpl; [reflexivity|].
  now rewrite IH, fold_left_app.
Qed.

(** The two maps of the first loop do not depend on each other. *)
Lemma indexCorpus_fst_from (docs : list Doc) tdf sm :
  fst (fold_left (indexDoc stemmer) docs (tdf, sm))
  = fold_left
      (fun m d =>
         fold_left (fun m t => JSMap.bump t m)
                   (JSMap.setOf (normalsOf stemmer d)) m)
      docs tdf.
Proof.
  revert tdf sm. induction docs as [|d docs IH]; intros tdf sm; [reflexivity|].
  cbn [fold_left]. unfold indexDoc at 2. cbn zeta. apply IH.
Qed.

Lemma indexCorpus_snd_from (docs : list Doc) tdf sm :
  snd (fold_left (indexDoc stemmer) docs (tdf, sm))
  = fold_left (recordSurface stemmer) (flat_map terms docs) sm.
Proof.
  revert tdf sm. induction docs as [|d docs IH]; intros tdf sm; [reflexivity|].
  cbn [fold_left flat_map]. unfold indexDoc at 2. cbn zeta.
  rewrite IH. now rewrite fold_left_app.
Qed.

Lemma docFreq_cons (d : Doc) (docs : list Doc) t :
  docFreq stemmer (d :: docs) t
  = (if contains stemmer t d then 1 else 0) + docFreq stemmer docs t.
Proof.
  unfold docFreq. cbn [filter]. now destruct (contains stemmer t d).
Qed.

Lemma termDocFreq_from (docs : list Doc) tdf t :
  JSMap.getOr0 t
    (fold_left
       (fun m d =>
          fold_left (fun m t => JSMap.bump t m)
                    (JSMap.setOf (normalsOf stemmer d)) m)
       docs tdf)
  = JSMap.getOr0 t tdf + docFreq stemmer docs t.
Proof.
  revert tdf. induction docs as [|d docs IH]; intros tdf.
  - cbn. lia.
  - cbn [fold_left]. rewrite IH, getOr0_count, count_occ_setOf, docFreq_cons.
    unfold contains. lia.
Qed.

(** [termDocFreq.get(t) || 0] is [df(t)]. *)
Lemma termDocFreq_docFreq (docs : list Doc) t :
  JSMap.getOr0 t (fst (indexCorpus stemmer docs)) = docFreq stemmer docs t.
Proof.
  unfold indexCorpus. rewrite indexCorpus_fst_from, termDocFreq_from.
  reflexivity.
Qed.

Lemma termFreq_count (d : Doc) :
  termFreq stemmer d
  = fold_left (fun m x => JSMap.bump x m) (normalsOf stemmer d) [].
Proof.
  unfold termFreq, normalsOf. generalize (@nil (string * nat)).
  induction (terms d) as [|t0 l IH]; intros m; [reflexivity|].
  cbn [fold_left map filter].
  destruct (truthy (norm t0)); cbn [negb fold_left]; apply IH.
Qed.

Lemma termFreq_NoDup (d : Doc) : NoDup (JSMap.keys (termFreq stemmer d)).
Proof. rewrite termFreq_count. apply NoDup_keys_count. constructor. Qed.

(** [tf.get(t)] is the count of [t] in the document, when it occurs. *)
Lemma termFreq_get (d : Doc) t :
  JSMap.get t (termFreq stemmer d)
  = if contains stemmer t d then Some (freqIn stemmer d t) else None.
Proof.
  pose proof (getOr0_count (normalsOf stemmer d) [] t) as Hc.
  pose proof (In_keys_count (normalsOf stemmer d) [] t) as Hk.
  rewrite <- termFreq_count in Hc, Hk.
  unfold contains, freqIn.
  destruct (existsb (String.eqb t) (normalsOf stemmer d)) eqn:E.
  - apply existsb_eqb_In in E.
    destruct (JSMap.get t (termFreq stemmer d)) as [n|] eqn:G.
    + unfold JSMap.getOr0 in Hc. rewrite G in Hc. cbn in Hc. now subst.
    + apply get_None_keys in G. exfalso. apply G, Hk. now left.
  - apply get_None_keys. intros H. apply Hk in H. destruct H as [H | []].
    apply existsb_eqb_In in H. congruence.
Qed.

(** One document's pass over its [tf] entries. *)
Lemma scoreDoc_get (N minDf : nat) (tdf : JSMap.t nat) (d : Doc)
  (m : JSMap.t float) t :
  JSMap.get t (fold_left (addScore Math_log N minDf tdf) (termFreq stemmer d) m)
  = if contains stemmer t d && (minDf <=? JSMap.getOr0 t tdf)
    then Some (orZero (JSMap.get t m)
               + (1 + Math_log (num_of_nat (freqIn stemmer d t)))
                 * (Math_log (num_of_nat (N + 1)
                              / num_of_nat (JSMap.getOr0 t tdf + 1)) + 1))%float
    else JSMap.get t m.
Proof.
  pose proof (get_fold_set
                (fun k => JSMap.getOr0 k tdf <? minDf)
                (fun old k f =>
                   (orZero old
                    + (1 + Math_log (num_of_nat f))
                      * (Math_log (num_of_nat (N + 1)
                                   / num_of_nat (JSMap.getOr0 k tdf + 1)) + 1))%float)
                (termFreq stemmer d) (termFreq_NoDup d) m t) as H.
  cbv beta in H.
  unfold addScore.
  etransitivity; [|etransitivity; [exact H|]].
  - f_equal.
  - rewrite termFreq_get. rewrite Nat.ltb_antisym.
    destruct (contains stemmer t d); cbn [andb]; [|reflexivity].
    now destruct (minDf <=? JSMap.getOr0 t tdf).
Qed.

Lemma scoreDocs_get (N minDf : nat) (tdf : JSMap.t nat) (docs : list Doc)
  (m : JSMap.t float) t :
  JSMap.get t
    (fold_left
       (fun scores d =>
          fold_left (addScore Math_log N minDf tdf) (termFreq stemmer d) scores)
       docs m)
  = fold_left
      (fun acc d =>
         if contains stemmer t d && (minDf <=? JSMap.getOr0 t tdf)
         then Some (orZero acc
                    + (1 + Math_log (num_of_nat (freqIn stemmer d t)))
                      * (Math_log (num_of_nat (N + 1)
                                   / num_of_nat (JSMap.getOr0 t tdf + 1)) + 1))%float
         else acc)
      docs (JSMap.get t m).
Proof.
  revert m. induction docs as [|d docs IH]; intros m; [reflexivity|].
  cbn [fold_left]. rewrite IH, scoreDoc_get. reflexivity.
Qed.

Lemma addScore_NoDup (N minDf : nat) (tdf : JSMap.t nat)
  (es : list (string * nat)) (m : JSMap.t float) :
  NoDup (JSMap.keys m) ->
  NoDup (JSMap.keys (fold_left (addScore Math_log N minDf tdf) es m)).
Proof.
  revert m. induction es as [|[k f] es IH]; intros m H; [assumption|].
  cbn [fold_left]. apply IH. unfold addScore.
  destruct (JSMap.getOr0 k tdf <? minDf); [assumption|].
  now apply NoDup_keys_set.
Qed.

Lemma scoreCorpus_NoDup (minDf : nat) (docs : list Doc) :
  NoDup (JSMap.keys (scoreCorpus stemmer Math_log minDf docs)).
Proof.
  unfold scoreCorpus. cbn zeta.
  generalize (List.length docs) (fst (indexCorpus stemmer docs)).
  intros N tdf.
  assert (forall ds m, NoDup (JSMap.keys m) ->
            NoDup (JSMap.keys
                     (fold_left
                        (fun scores d =>
                           fold_left (addScore Math_log N minDf tdf)
                                     (termFreq stemmer d) scores)
                        ds m))) as Hgen.
  { induction ds as [|d ds IH]; intros m H; [assumption|].
    cbn [fold_left]. apply IH. now apply addScore_NoDup. }
  apply Hgen. constructor.
Qed.

(** The score that the second loop leaves for [t]. *)
Lemma scoreCorpus_get (minDf : nat) (docs : list Doc) t :
  JSMap.get t (scoreCorpus stemmer Math_log minDf docs)
  = if minDf <=? docFreq stemmer docs t
    then summedScore stemmer Math_log docs t
    else None.
Proof.
  unfold scoreCorpus. cbn zeta. rewrite scoreDocs_get.
  rewrite termDocFreq_docFreq. cbn [JSMap.get].
  unfold summedScore, contribution.
  destruct (minDf <=? docFreq stemmer docs t).
  - rewrite <- fold_left_if_filter.
    apply fold_left_pointwise. intros a d. now rewrite andb_true_r.
  - rewrite (fold_left_pointwise _ (fun acc _ => acc)).
    + generalize (@None float). induction docs as [|d ds IH]; intros a;
        [reflexivity | apply IH].
    + intros a d. now rewrite andb_false_r.
Qed.

End EngineFacts.

(** ** Properties of the surface-form maps *)

Section SurfaceFacts.

Import TfIdf.

Variable stemmer : string -> option string.

Local Abbreviation norm := (normalizeTerm stemmer).

(** The count that a surface map holds for a surface form under a
    normalized term, 0 when either is missing. *)
Definition surfaceEntry (sm : JSMap.t (JSMap.t nat)) (n s : string) : nat :=
  match JSMap.get n sm with
  | Some m => JSMap.getOr0 s m
  | None => 0
  end.

Lemma normalizeTerm_empty : norm "" = "".
Proof. reflexivity. Qed.

Lemma recordSurface_entry sm x n s :
  surfaceEntry (recordSurface stemmer sm x) n s
  = surfaceEntry sm n s
    + (if truthy (norm x) && String.eqb (norm x) n && String.eqb x s
       then 1 else 0).
Proof.
  unfold recordSurface. cbn zeta.
  destruct (truthy (norm x)); cbn [negb andb]; [|lia].
  unfold surfaceEntry.
  destruct (String.eqb (norm x) n) eqn:En; cbn [andb].
  - apply String.eqb_eq in En. subst n.
    rewrite get_set_same, getOr0_bump.
    destruct (JSMap.get (norm x) sm) as [m|];
      destruct (string_dec x s) as [-> | Hne];
      rewrite ?String.eqb_refl; try reflexivity;
      apply String.eqb_neq in Hne; now rewrite Hne.
  - apply String.eqb_neq in En.
    rewrite get_set_other by congruence. lia.
Qed.

Lemma surfaceMap_entry (l : list string) sm n s :
  surfaceEntry (fold_left (recordSurface stemmer) l sm) n s
  = surfaceEntry sm n s
    + (if truthy n && String.eqb (norm s) n
       then count_occ string_dec l s else 0).
Proof.
  revert sm. induction l as [|x l IH]; intros sm; cbn [fold_left count_occ].
  - destruct (truthy n && String.eqb (norm s) n); lia.
  - rewrite IH, recordSurface_entry.
    destruct (string_dec x s) as [-> | Hne].
    + rewrite String.eqb_refl, andb_true_r.
      destruct (String.eqb (norm s) n) eqn:En.
      * apply String.eqb_eq in En. rewrite En.
        rewrite andb_true_r. destruct (truthy n); lia.
      * rewrite !andb_false_r. lia.
    + apply String.eqb_neq in Hne. rewrite Hne, andb_false_r.
      destruct (truthy n && String.eqb (norm s) n); lia.
Qed.

(** Keys are not repeated, and every inner map has positive counts. *)
Definition wellFormed (sm : JSMap.t (JSMap.t nat)) : Prop :=
  NoDup (JSMap.keys sm)
  /\ forall n m, In (n, m) sm ->
       NoDup (JSMap.keys m) /\ forall s c, In (s, c) m -> 1 <= c.

Lemma In_set {V : Type} (k k' : string) (v v' : V) (m : JSMap.t V) :
  In (k', v') (JSMap.set k v m) -> (k' = k /\ v' = v) \/ In (k', v') m.
Proof.
  induction m as [|[k0 v0] m IH]; simpl.
  - intros [[= <- <-] | []]. now left.
  - destruct (String.eqb k k0); simpl.
    + intros [[= <- <-] | H]; [now left | right; now right].
    + intros [H | H]; [right; now left|].
      destruct (IH H) as [H' | H']; [now left | right; now right].
Qed.

Lemma set_not_nil {V : Type} (k : string) (v : V) (m : JSMap.t V) :
  JSMap.set k v m <> [].
Proof.
  destruct m as [|[k0 v0] m]; simpl; [discriminate|].
  destruct (String.eqb k k0); discriminate.
Qed.

Lemma recordSurface_wellFormed sm x :
  wellFormed sm -> wellFormed (recordSurface stemmer sm x).
Proof.
  intros [Hnd Hin]. unfold recordSurface. cbn zeta.
  destruct (truthy (norm x)); cbn [negb]; [|now split].
  split; [now apply NoDup_keys_set|].
  intros n m Hm. apply In_set in Hm.
  destruct Hm as [[-> ->] | Hm]; [|exact (Hin n m Hm)].
  assert (NoDup (JSMap.keys (match JSMap.get (norm x) sm with
                             | Some m => m | None => [] end))
          /\ forall s c, In (s, c) (match JSMap.get (norm x) sm with
                                    | Some m => m | None => [] end) -> 1 <= c)
    as [Hnd0 Hpos0].
  { destruct (JSMap.get (norm x) sm) as [m0|] eqn:G.
    - apply get_Some_In in G. now apply Hin in G.
    - split; [constructor | intros s c []]. }
  split.
  - now apply NoDup_keys_set.
  - intros s c Hs. apply In_set in Hs.
    destruct Hs as [[-> ->] | Hs]; [lia | now apply Hpos0 in Hs].
Qed.

Lemma surfaceMap_wellFormed (l : list string) sm :
  wellFormed sm -> wellFormed (fold_left (recordSurface stemmer) l sm).
Proof.
  revert sm. induction l as [|x l IH]; intros sm H; cbn [fold_left].
  - assumption.
  - apply IH. now apply recordSurface_wellFormed.
Qed.

Lemma wellFormed_nil : wellFormed [].
Proof. split; [constructor | intros n m []]. Qed.

(** The surface map of [computeTfidfEnhanced] and that of
    [canonicalizeCorpus] are the same map. *)
Lemma canonicalSurfaceMap_indexCorpus (docs : list Doc) :
  canonicalSurfaceMap stemmer docs = snd (indexCorpus stemmer docs).
Proof.
  unfold indexCorpus. rewrite indexCorpus_snd_from.
  unfold canonicalSurfaceMap.
  exact (fold_left_flat_map (recordSurface stemmer) terms docs []).
Qed.

Lemma surfaceMapOf_wellFormed (docs : list Doc) :
  wellFormed (snd (indexCorpus stemmer docs)).
Proof.
  unfold indexCorpus. rewrite indexCorpus_snd_from.
  apply surfaceMap_wellFormed, wellFormed_nil.
Qed.

Lemma surfaceMapOf_fold (docs : list Doc) :
  snd (indexCorpus stemmer docs)
  = fold_left (recordSurface stemmer) (flat_map terms docs) [].
Proof. unfold indexCorpus. apply indexCorpus_snd_from. Qed.

Lemma surfaceMapOf_entry (docs : list Doc) n s :
  surfaceEntry (snd (indexCorpus stemmer docs)) n s
  = if truthy n && String.eqb (norm s) n then surfaceCount docs s else 0.
Proof. rewrite surfaceMapOf_fold, surfaceMap_entry. reflexivity. Qed.

(** A term that normalizes to the empty string is never recorded. *)
Lemma surfaceMapOf_no_empty_key (docs : list Doc) :
  JSMap.get "" (snd (indexCorpus stemmer docs)) = None.
Proof.
  rewrite surfaceMapOf_fold. generalize (flat_map terms docs). intros l.
  assert (forall l sm, JSMap.get "" sm = None ->
            JSMap.get "" (fold_left (recordSurface stemmer) l sm) = None)
    as Hnone.
  { clear l. induction l as [|x l IH]; intros sm Hs; [assumption|].
    cbn [fold_left]. apply IH. unfold recordSurface. cbn zeta.
    destruct (truthy (norm x)) eqn:Tx; cbn [negb]; [|assumption].
    rewrite get_set_other; [assumption|].
    intros E. rewrite <- E in Tx. discriminate. }
  now apply Hnone.
Qed.

(** An inner map is created by a [set] and only grows. *)
Lemma surfaceMapOf_no_empty_map (docs : list Doc) k :
  JSMap.get k (snd (indexCorpus stemmer docs)) <> Some [].
Proof.
  rewrite surfaceMapOf_fold. generalize (flat_map terms docs). intros l.
  assert (forall l sm,
            (forall k, JSMap.get k sm <> Some []) ->
            forall k, JSMap.get k (fold_left (recordSurface stemmer) l sm)
                      <> Some []) as Hgrow.
  { clear l k. induction l as [|x l IH]; intros sm Hs k; [apply Hs|].
    cbn [fold_left]. apply IH. clear k. intros k.
    unfold recordSurface. cbn zeta.
    destruct (truthy (norm x)); cbn [negb]; [|apply Hs].
    destruct (string_dec k (norm x)) as [-> | Hne].
    - rewrite get_set_same. unfold JSMap.bump.
      intros [= E]. revert E. apply set_not_nil.
    - rewrite get_set_other by assumption. apply Hs. }
  apply Hgrow. intros k'. discriminate.
Qed.

(** The entries of the inner map of [n]: the surface forms of the corpus
    that normalize to [n], each with its number of occurrences. *)
Lemma surfaceMapOf_entries (docs : list Doc) n m :
  JSMap.get n (snd (indexCorpus stemmer docs)) = Some m ->
  (forall s c, In (s, c) m ->
     norm s = n /\ s <> "" /\ c = surfaceCount docs s /\ 1 <= c)
  /\ (forall s, norm s = n -> 1 <= surfaceCount docs s ->
        In (s, surfaceCount docs s) m)
  /\ m <> [].
Proof.
  intros G.
  destruct (surfaceMapOf_wellFormed docs) as [_ Hwf].
  destruct (Hwf n m (get_Some_In _ _ _ G)) as [Hnd Hpos].
  assert (truthy n = true) as Tn.
  { destruct n; [|reflexivity].
    rewrite surfaceMapOf_no_empty_key in G. discriminate. }
  assert (forall s, JSMap.getOr0 s m
                    = if String.eqb (norm s) n
                      then surfaceCount docs s else 0) as Hentry.
  { intros s. pose proof (surfaceMapOf_entry docs n s) as H.
    unfold surfaceEntry in H. rewrite G, Tn in H. exact H. }
  split; [|split].
  - intros s c Hs.
    pose proof (Hpos s c Hs) as Hc.
    pose proof (Hentry s) as He.
    unfold JSMap.getOr0 in He. rewrite (In_get_Some _ _ _ Hnd Hs) in He.
    destruct (String.eqb (norm s) n) eqn:En; [|lia].
    apply String.eqb_eq in En.
    repeat split; try assumption.
    intros ->. rewrite normalizeTerm_empty in En. subst n. discriminate.
  - intros s Hn Hc.
    pose proof (Hentry s) as He.
    assert (String.eqb (norm s) n = true) as En by now apply String.eqb_eq.
    rewrite En in He. unfold JSMap.getOr0 in He.
    destruct (JSMap.get s m) as [c|] eqn:Gs.
    + subst c. now apply get_Some_In.
    + lia.
  - intros ->. now apply (surfaceMapOf_no_empty_map docs n).
Qed.

(** The selection loop returns an entry with the greatest count and,
    among those, one of the shortest. *)
Definition bestAmong (entries : JSMap.t nat) (best : string) (bestCount : nat)
  : Prop :=
  In (best, bestCount) entries
  /\ best <> ""
  /\ forall s c, In (s, c) entries ->
       c <= bestCount /\ (c = bestCount -> String.length best <= String.length s).

Lemma pickSurface_step (done : JSMap.t nat) (best : string) (bestCount : nat)
  (surf : string) (cnt : nat) :
  1 <= cnt -> surf <> "" ->
  (done = [] /\ best = "" /\ bestCount = 0) \/ bestAmong done best bestCount ->
  bestAmong (done ++ [(surf, cnt)])
    (if betterSurface best bestCount surf cnt then surf else best)
    (if betterSurface best bestCount surf cnt then cnt else bestCount).
Proof.
  intros Hcnt Hsurf Hinv. unfold betterSurface.
  destruct Hinv as [(-> & -> & ->) | (Hin & Hbest & Hall)].
  - assert ((0 <? cnt) = true) as -> by (apply Nat.ltb_lt; lia).
    cbn [orb app]. split; [now left | split; [assumption|]].
    intros s c [[= <- <-] | []]. lia.
  - assert (forall P : string -> nat -> Prop,
              (forall s c, In (s, c) done -> P s c) -> P surf cnt ->
              forall s c, In (s, c) (done ++ [(surf, cnt)]) -> P s c) as Hcases.
    { intros P Hd Hnew s c H. apply in_app_or in H.
      destruct H as [H | [[= <- <-] | []]]; auto. }
    destruct (bestCount <? cnt) eqn:Elt; cbn [orb].
    + apply Nat.ltb_lt in Elt.
      split; [apply in_or_app; right; now left | split; [assumption|]].
      apply Hcases; [|lia].
      intros s c H. apply Hall in H. lia.
    + apply Nat.ltb_ge in Elt.
      destruct (cnt =? bestCount) eqn:Eeq; cbn [andb].
      * apply Nat.eqb_eq in Eeq. subst cnt.
        assert (String.eqb best "" = false) as -> by now apply String.eqb_neq.
        cbn [orb].
        destruct (String.length surf <? String.length best) eqn:Elen.
        -- apply Nat.ltb_lt in Elen.
           split; [apply in_or_app; right; now left | split; [assumption|]].
           apply Hcases; [|lia].
           intros s c H. destruct (Hall s c H) as [Hle Hl].
           split; [assumption|]. intros E. specialize (Hl E). lia.
        -- apply Nat.ltb_ge in Elen.
           split; [apply in_or_app; now left | split; [assumption|]].
           apply Hcases; [|lia].
           intros s c H. now apply Hall.
      * apply Nat.eqb_neq in Eeq.
        split; [apply in_or_app; now left | split; [assumption|]].
        apply Hcases; [|lia].
        intros s c H. now apply Hall.
Qed.

Lemma pickSurface_from (rest done : JSMap.t nat) (best : string) (bestCount : nat) :
  (forall s c, In (s, c) rest -> 1 <= c /\ s <> "") ->
  (done = [] /\ best = "" /\ bestCount = 0) \/ bestAmong done best bestCount ->
  rest <> [] \/ done <> [] ->
  bestAmong (done ++ rest)
    (fst (fold_left
            (fun '(best, bestCount) '(surf, cnt) =>
               if betterSurface best bestCount surf cnt then (surf, cnt)
               else (best, bestCount))
            rest (best, bestCount)))
    (snd (fold_left
            (fun '(best, bestCount) '(surf, cnt) =>
               if betterSurface best bestCount surf cnt then (surf, cnt)
               else (best, bestCount))
            rest (best, bestCount))).
Proof.
  revert done best bestCount.
  induction rest as [|[surf cnt] rest IH]; intros done best bestCount Hrest Hinv Hne.
  - rewrite app_nil_r. cbn.
    destruct Hinv as [[-> _] | H]; [|assumption].
    destruct Hne as [Hne | Hne]; congruence.
  - cbn [fold_left].
    destruct (Hrest surf cnt (or_introl eq_refl)) as [Hcnt Hsurf].
    assert (forall s c, In (s, c) rest -> 1 <= c /\ s <> "") as Hrest'
      by (intros s c H; apply Hrest; now right).
    pose proof (pickSurface_step done best bestCount surf cnt Hcnt Hsurf Hinv)
      as Hstep.
    replace (done ++ (surf, cnt) :: rest)
      with ((done ++ [(surf, cnt)]) ++ rest)
      by (rewrite <- app_assoc; reflexivity).
    destruct (betterSurface best bestCount surf cnt);
      (apply IH; [assumption | right; exact Hstep | right; now destruct done]).
Qed.

Lemma pickSurface_best (m : JSMap.t nat) :
  m <> [] ->
  (forall s c, In (s, c) m -> 1 <= c /\ s <> "") ->
  bestAmong m (fst (pickSurface m)) (snd (pickSurface m)).
Proof.
  intros Hne Hm.
  exact (pickSurface_from m [] "" 0 Hm
           (or_introl (conj eq_refl (conj eq_refl eq_refl))) (or_introl Hne)).
Qed.

End SurfaceFacts.

Section CanonicalFacts.

Import TfIdf.

Variable stemmer : string -> option string.
Variable Math_log : float -> float.

Local Abbreviation norm := (normalizeTerm stemmer).
Local Abbreviation surfaceMapOf := (fun docs => snd (indexCorpus stemmer docs)).

(** [canonical.get(n)] is [canonicalForm(n)] for every key of the surface
    map, and [undefined] for any other term. *)
Lemma canonicalizeCorpus_get (docs : list Doc) n :
  JSMap.get n (canonicalizeCorpus stemmer docs)
  = match JSMap.get n (surfaceMapOf docs) with
    | Some _ => Some (canonicalForm (surfaceMapOf docs) n)
    | None => None
    end.
Proof.
  unfold canonicalizeCorpus. rewrite canonicalSurfaceMap_indexCorpus.
  destruct (surfaceMapOf_wellFormed stemmer docs) as [Hnd _].
  pose proof (get_fold_set
                (fun _ => false)
                (fun (_ : option string) k (m : JSMap.t nat) =>
                   if truthy (fst (pickSurface m))
                   then fst (pickSurface m) else k)
                (surfaceMapOf docs) Hnd [] n) as H.
  cbv beta in H. unfold canonicalForm. cbn zeta.
  etransitivity; [|etransitivity; [exact H|]].
  - f_equal. apply fold_left_pointwise. intros acc [k m].
    unfold pickSurface, betterSurface.
    now destruct (fold_left _ m (EmptyString, 0)).
  - now destruct (JSMap.get n (surfaceMapOf docs)).
Qed.

Lemma summedScore_contains (docs : list Doc) t s :
  summedScore stemmer Math_log docs t = Some s ->
  exists d, In d docs /\ contains stemmer t d = true.
Proof.
  unfold summedScore.
  destruct (filter (contains stemmer t) docs) as [|d ds] eqn:E.
  - discriminate.
  - intros _. exists d.
    apply filter_In. rewrite E. now left.
Qed.

Lemma summedScore_occurs (docs : list Doc) t :
  1 <= docFreq stemmer docs t ->
  exists s, summedScore stemmer Math_log docs t = Some s.
Proof.
  unfold docFreq, summedScore.
  destruct (filter (contains stemmer t) docs) as [|d ds]; cbn [List.length].
  - lia.
  - intros _. cbn [fold_left].
    generalize (orZero None + contribution stemmer Math_log docs t d)%float.
    induction ds as [|d' ds IH]; intros a; cbn [fold_left].
    + now exists a.
    + apply IH.
Qed.

Lemma In_flat_map_count (docs : list Doc) (d : Doc) x :
  In d docs -> In x (terms d) -> 1 <= surfaceCount docs x.
Proof.
  intros Hd Hx. unfold surfaceCount.
  apply count_occ_In. apply in_flat_map. now exists d.
Qed.

(** A normalized term that occurs in a document is a key of the surface
    map. *)
Lemma contains_surfaceMap (docs : list Doc) (d : Doc) t :
  In d docs -> contains stemmer t d = true ->
  exists m, JSMap.get t (surfaceMapOf docs) = Some m.
Proof.
  intros Hd Hc. unfold contains in Hc. apply existsb_eqb_In in Hc.
  unfold normalsOf in Hc. apply filter_In in Hc. destruct Hc as [Hin Ht].
  apply in_map_iff in Hin. destruct Hin as [x [Hx Hxin]].
  pose proof (surfaceMapOf_entry stemmer docs t x) as He.
  rewrite Ht, Hx, String.eqb_refl in He. cbn [andb] in He.
  pose proof (In_flat_map_count docs d x Hd Hxin) as Hpos.
  unfold surfaceEntry in He.
  destruct (JSMap.get t (snd (indexCorpus stemmer docs))) as [m|].
  - now exists m.
  - lia.
Qed.

Lemma scored_term (minDf : nat) (docs : list Doc) t s :
  In (t, s) (scoreCorpus stemmer Math_log minDf docs)
  <-> minDf <= docFreq stemmer docs t
      /\ summedScore stemmer Math_log docs t = Some s.
Proof.
  pose proof (scoreCorpus_get stemmer Math_log minDf docs t) as G.
  pose proof (scoreCorpus_NoDup stemmer Math_log minDf docs) as Hnd.
  split.
  - intros H. apply (In_get_Some _ _ _ Hnd) in H. rewrite H in G.
    destruct (minDf <=? docFreq stemmer docs t) eqn:E; [|discriminate].
    apply Nat.leb_le in E. now split.
  - intros [Hle Hs]. apply get_Some_In. rewrite G.
    apply Nat.leb_le in Hle. now rewrite Hle.
Qed.

Lemma get_all_None {V : Type} (m : JSMap.t V) :
  (forall k, JSMap.get k m = None) -> m = [].
Proof.
  destruct m as [|[k v] m]; [reflexivity|].
  intros H. specialize (H k). cbn in H. rewrite String.eqb_refl in H.
  discriminate.
Qed.

Lemma docFreq_le (docs : list Doc) t :
  docFreq stemmer docs t <= List.length docs.
Proof. unfold docFreq. apply filter_length_le. Qed.

End CanonicalFacts.

Import TfIdf.

(** ** Sums of scores

    The accumulator of the scores reads [(tfidfScores.get(t) || 0)]: a
    stored zero or NaN counts as 0. For the binary64 addition, as its
    specification in the standard library gives it, a sum that starts at 0 is
    never the negative zero, so the accumulator adds up the contributions
    as a plain sum does, as long as the sum is a number. *)

Module FloatSum.

Local Open Scope Z_scope.

Definition nonzeroSF (r : spec_float) : Prop :=
  match r with
  | S754_zero _ => False
  | _ => True
  end.

Lemma binary_round_aux_nonzero (s : bool) (m e : Z) (l : location) :
  0 < m -> emin <= e -> nonzeroSF (binary_round_aux prec emax s m e l).
Proof.
  intros Hm He. unfold binary_round_aux.
  destruct (FloatOrder.shr_fexp_positive m e l Hm He) as [H1 H2].
  destruct (shr_fexp prec emax m e l) as [mrs' e'].
  cbn [fst snd] in H1, H2.
  pose proof (FloatOrder.round_nearest_even_ge
                (shr_m mrs') (loc_of_shr_record mrs')) as Hr.
  destruct (FloatOrder.shr_fexp_positive
              (round_nearest_even (shr_m mrs') (loc_of_shr_record mrs')) e'
              loc_Exact ltac:(lia) H2) as [H3 _].
  destruct (shr_fexp prec emax _ e' loc_Exact) as [mrs'' e''].
  cbn [fst] in H3.
  destruct (shr_m mrs'') as [|p|p]; try lia.
  destruct (e'' <=? emax - prec); exact I.
Qed.

Lemma binary_normalize_zero (M e : Z) (s : bool) :
  emin <= e ->
  binary_normalize prec emax M e false = S754_zero s -> s = false.
Proof.
  intros He. unfold binary_normalize, binary_round.
  destruct M as [|p|p].
  - congruence.
  - destruct (shl_align p e (fexp prec emax (Zpos (digits2_pos p) + e)))
      as [mz ez] eqn:E.
    intros H.
    assert (nonzeroSF (binary_round_aux prec emax false (Zpos mz) ez loc_Exact))
      as Hn.
    { apply binary_round_aux_nonzero; [lia|].
      unfold shl_align in E.
      destruct (fexp prec emax (Zpos (digits2_pos p) + e) - e) eqn:D;
        injection E as _ <-; try assumption.
      unfold fexp, SpecFloat.emin, prec, emax. lia. }
    rewrite H in Hn. destruct Hn.
  - destruct (shl_align p e (fexp prec emax (Zpos (digits2_pos p) + e)))
      as [mz ez] eqn:E.
    intros H.
    assert (nonzeroSF (binary_round_aux prec emax true (Zpos mz) ez loc_Exact))
      as Hn.
    { apply binary_round_aux_nonzero; [lia|].
      unfold shl_align in E.
      destruct (fexp prec emax (Zpos (digits2_pos p) + e) - e) eqn:D;
        injection E as _ <-; try assumption.
      unfold fexp, SpecFloat.emin, prec, emax. lia. }
    rewrite H in Hn. destruct Hn.
Qed.

(** A sum is the negative zero only when both operands are. *)
Lemma SFadd_negative_zero (x y : spec_float) :
  valid_binary x = true -> valid_binary y = true ->
  SF64add x y = S754_zero true -> x = S754_zero true.
Proof.
  intros Vx Vy. unfold SF64add, SFadd.
  destruct x as [sx|sx| |sx mx ex]; destruct y as [sy|sy| |sy my ey];
    try (destruct sx); try (destruct sy); try discriminate; try reflexivity.
  all: destruct (FloatOrder.valid_canonical _ _ _ Vx) as [_ Ex].
  all: destruct (FloatOrder.valid_canonical _ _ _ Vy) as [_ Ey].
  all: intros H; apply binary_normalize_zero in H; [discriminate | lia].
Qed.

Lemma add_negative_zero (x y : float) :
  (x + y)%float = (-0)%float -> x = (-0)%float.
Proof.
  intros H. apply Prim2SF_inj.
  change (Prim2SF (-0)%float) with (S754_zero true).
  apply (SFadd_negative_zero (Prim2SF x) (Prim2SF y));
    try apply Prim2SF_valid.
  rewrite <- add_spec, H. reflexivity.
Qed.

Lemma add_NaN (x y : float) :
  FloatOrder.isNaN x = true -> FloatOrder.isNaN (x + y)%float = true.
Proof.
  unfold FloatOrder.isNaN. rewrite !eqb_spec, add_spec. intros H.
  apply negb_true_iff in H.
  destruct (Prim2SF x) as [s|s| |s m e] eqn:E.
  - destruct s; discriminate.
  - destruct s; discriminate.
  - reflexivity.
  - exfalso. revert H. unfold SFeqb, SFcompare.
    destruct s; rewrite Z.compare_refl, Pos.compare_cont_refl; discriminate.
Qed.

Lemma zero_or_negative_zero (x : float) :
  (x =? 0)%float = true -> x = 0%float \/ x = (-0)%float.
Proof.
  rewrite eqb_spec. change (Prim2SF 0%float) with (S754_zero false).
  destruct (Prim2SF x) as [s|s| |s m e] eqn:E; try (destruct s; discriminate);
    try discriminate.
  intros _. destruct s; [right | left]; apply Prim2SF_inj; rewrite E; reflexivity.
Qed.

End FloatSum.

(** The sum of the claim: the contributions of the documents that contain
    [t], in the order of the corpus, added up from zero. *)
Definition sumOfContributions (stemmer : string -> option string)
  (Math_log : float -> float) (allDocs : list Doc) (t : string) : float :=
  fold_left
    (fun sum d => (sum + contribution stemmer Math_log allDocs t d)%float)
    (filter (contains stemmer t) allDocs) 0%float.

(** The threshold that the caller asks for: [opts.minDocFreq] when the
    options carry one, 2 when there are no options or none is given. *)
Definition requests (opts : option Options) (minDf : nat) : Prop :=
  opts = Some {| minDocFreq := Some minDf |}
  \/ (minDf = 2 /\ (opts = None \/ opts = Some {| minDocFreq := None |})).

Section SumFacts.

Variable contributionOf : Doc -> float.

Lemma sum_NaN (ds : list Doc) (p : float) :
  FloatOrder.isNaN p = true ->
  FloatOrder.isNaN
    (fold_left (fun sum d => (sum + contributionOf d)%float) ds p) = true.
Proof.
  revert p. induction ds as [|d ds IH]; intros p Hp; [exact Hp|].
  cbn [fold_left]. apply IH. now apply FloatSum.add_NaN.
Qed.

Lemma orZero_number (p : float) :
  FloatOrder.isNaN p = false -> p <> (-0)%float -> orZero (Some p) = p.
Proof.
  intros Hnan Hneg. unfold orZero. unfold FloatOrder.isNaN in Hnan.
  rewrite Hnan, orb_false_r.
  destruct (p =? 0)%float eqn:E; [|reflexivity].
  destruct (FloatSum.zero_or_negative_zero p E) as [-> | ->];
    [reflexivity | congruence].
Qed.

(** The accumulator and the plain sum go together. *)
Lemma accumulated_sum (ds : list Doc) (acc : option float) (p : float) :
  orZero acc = p -> p <> (-0)%float ->
  ds <> [] \/ acc = Some p ->
  FloatOrder.isNaN
    (fold_left (fun sum d => (sum + contributionOf d)%float) ds p) = false ->
  fold_left (fun acc d => Some (orZero acc + contributionOf d)%float) ds acc
  = Some (fold_left (fun sum d => (sum + contributionOf d)%float) ds p).
Proof.
  revert acc p. induction ds as [|d ds IH]; intros acc p Hacc Hneg Hne Hnan.
  - destruct Hne as [Hne | ->]; [congruence | reflexivity].
  - cbn [fold_left] in *. rewrite Hacc. apply IH.
    + apply orZero_number.
      * destruct (FloatOrder.isNaN (p + contributionOf d)%float) eqn:E;
          [|reflexivity].
        now rewrite (sum_NaN ds _ E) in Hnan.
      * intros H. apply FloatSum.add_negative_zero in H. contradiction.
    + intros H. apply FloatSum.add_negative_zero in H. contradiction.
    + now right.
    + exact Hnan.
Qed.

End SumFacts.

Lemma summedScore_sum (stemmer : string -> option string)
  (Math_log : float -> float) (allDocs : list Doc) (t : string) (s : float) :
  summedScore stemmer Math_log allDocs t = Some s ->
  FloatOrder.isNaN (sumOfContributions stemmer Math_log allDocs t) = false ->
  s = sumOfContributions stemmer Math_log allDocs t.
Proof.
  unfold summedScore, sumOfContributions. intros Hs Hnan.
  destruct (filter (contains stemmer t) allDocs) as [|d ds] eqn:E;
    [discriminate|].
  rewrite (accumulated_sum (contribution stemmer Math_log allDocs t)
             (d :: ds) None 0%float eq_refl) in Hs.
  - now injection Hs as <-.
  - intros H. apply (f_equal Prim2SF) in H. discriminate.
  - left. discriminate.
  - exact Hnan.
Qed.

Lemma requests_effective (opts : option Options) (minDf : nat) :
  requests opts minDf -> effectiveMinDocFreq opts = minDf.
Proof. intros [-> | [-> [-> | ->]]]; reflexivity. Qed.

(** C1. With [minDocFreq] the threshold that the caller asks for (the
    option, or 2 when it is left out), [N] the number of documents, [df(t)]
    the number of documents that contain the normalized term [t] and [f] the
    count of [t] in a document: the scored terms are exactly those with
    [df(t) >= minDocFreq] that occur at all, each once; the score of a term
    is the sum, over the documents that contain it in corpus order, of
    [(1 + ln f) * (ln((N + 1) / (df + 1)) + 1)], whenever that sum is a
    number (the accumulator restarts from 0 after a NaN); a term with
    [df(t) < minDocFreq] has no entry; the result is the first [topK] entries
    (25 when left out) of the scored entries, shown under their canonical
    surface form and sorted with the comparator [b.tfidf - a.tfidf]; and, no
    score being NaN, the result is in descending order of score. *)
Theorem computeTfidfEnhanced_scores
  (stemmer : string -> option string) (Math_log : float -> float)
  (allDocs : list Doc) (topK : option nat) (opts : option Options)
  (minDf : nat) :
  requests opts minDf ->
  let scores := scoreCorpus stemmer Math_log minDf allDocs in
  let shown :=
    map (fun '(t, s) =>
           {| term := canonicalForm (snd (indexCorpus stemmer allDocs)) t;
              tfidf := s |})
        scores in
  (forall t s,
     In (t, s) scores <->
     minDf <= docFreq stemmer allDocs t
     /\ summedScore stemmer Math_log allDocs t = Some s)
  /\ (forall t s,
        In (t, s) scores ->
        FloatOrder.isNaN (sumOfContributions stemmer Math_log allDocs t) = false ->
        s = sumOfContributions stemmer Math_log allDocs t)
  /\ (forall t,
        1 <= docFreq stemmer allDocs t -> minDf <= docFreq stemmer allDocs t ->
        exists s, In (t, s) scores)
  /\ NoDup (JSMap.keys scores)
  /\ (forall t, docFreq stemmer allDocs t < minDf -> ~ In t (JSMap.keys scores))
  /\ computeTfidfEnhanced stemmer Math_log allDocs topK opts
     = firstn (match topK with Some k => k | None => 25 end)
              (JSSort.sort byScoreDescending shown)
  /\ Permutation shown (JSSort.sort byScoreDescending shown)
  /\ ((forall e, In e shown -> FloatOrder.isNaN (tfidf e) = false) ->
      StronglySorted (fun a b => (tfidf b <=? tfidf a)%float = true)
        (computeTfidfEnhanced stemmer Math_log allDocs topK opts)).
Proof.
  intros Hopts scores shown.
  assert (computeTfidfEnhanced stemmer Math_log allDocs topK opts
          = firstn (match topK with Some k => k | None => 25 end)
                   (JSSort.sort byScoreDescending shown)) as Hresult.
  { unfold computeTfidfEnhanced, scoredTerms. cbn zeta.
    now rewrite (requests_effective opts minDf Hopts). }
  split; [|split; [|split; [|split; [|split; [|split; [|split]]]]]].
  - intros t s. apply scored_term.
  - intros t s Hin. apply scored_term in Hin. destruct Hin as [_ Hs].
    now apply summedScore_sum.
  - intros t Hocc Hmin.
    destruct (summedScore_occurs stemmer Math_log allDocs t Hocc) as [s Hs].
    exists s. now apply scored_term.
  - apply scoreCorpus_NoDup.
  - intros t Hlt Hin.
    apply in_map_iff in Hin. destruct Hin as [[t' s] [Ht Hin]].
    cbn in Ht. subst t'. apply scored_term in Hin. lia.
  - exact Hresult.
  - apply sort_Permutation.
  - intros Hnan. rewrite Hresult.
    apply firstn_sorted.
    apply sort_sorted; unfold JSSort.goesAfter, byScoreDescending.
    + intros a b Ha Hb H. rewrite FloatOrder.sub_sign in H.
      apply FloatOrder.ltb_asym in H.
      apply FloatOrder.ltb_false_leb; auto.
    + intros a b Ha Hb H. rewrite FloatOrder.sub_sign in H.
      apply FloatOrder.ltb_false_leb; auto.
    + intros a b c Ha Hb Hc Hab Hbc.
      apply (FloatOrder.leb_trans (tfidf c) (tfidf b) (tfidf a)); auto.
Qed.

Definition fruit_corpus : list Doc :=
  [ {| id := "d1"; terms := ["apple"; "apple"; "banana"] |};
    {| id := "d2"; terms := ["apple"; "cherry"; "cherry"] |};
    {| id := "d3"; terms := ["banana"; "banana"; "banana"] |} ].

Example computeTfidfEnhanced_fruit :
  map term
    (computeTfidfEnhanced stemmer_excerpt log_series fruit_corpus (Some 5)
       (Some {| minDocFreq := Some 1 |}))
  = ["banana"; "apple"; "cherry"]
  /\ map term
       (computeTfidfEnhanced stemmer_excerpt log_series fruit_corpus (Some 5)
          None)
     = ["banana"; "apple"]
  /\ map term
       (computeTfidfEnhanced stemmer_excerpt log_series fruit_corpus (Some 1)
          None)
     = ["banana"].
Proof. vm_compute. repeat split. Qed.

Lemma computeTfidfEnhanced_scores_witness :
  map term
    (computeTfidfEnhanced stemmer_excerpt log_series fruit_corpus (Some 5)
       (Some {| minDocFreq := Some 1 |}))
  = ["banana"; "apple"; "cherry"]%string
  /\ StronglySorted (fun a b => (tfidf b <=? tfidf a)%float = true)
       (computeTfidfEnhanced stemmer_excerpt log_series fruit_corpus (Some 5)
          (Some {| minDocFreq := Some 1 |}))
  /\ In ("banana"%string,
         sumOfContributions stemmer_excerpt log_series fruit_corpus "banana")
        (scoreCorpus stemmer_excerpt log_series 1 fruit_corpus)
  /\ ~ In "cherri"%string
        (JSMap.keys (scoreCorpus stemmer_excerpt log_series 2 fruit_corpus))
  /\ map term
       (computeTfidfEnhanced stemmer_excerpt log_series fruit_corpus (Some 5)
          None)
     = ["banana"; "apple"]%string.
Proof.
  pose proof (computeTfidfEnhanced_scores stemmer_excerpt log_series
                fruit_corpus (Some 5) (Some {| minDocFreq := Some 1 |}) 1
                (or_introl eq_refl))
    as (_ & Hsum & Hscored & _ & _ & Hone & _ & Hsorted).
  pose proof (computeTfidfEnhanced_scores stemmer_excerpt log_series
                fruit_corpus (Some 5) None 2
                (or_intror (conj eq_refl (or_introl eq_refl))))
    as (_ & _ & _ & _ & Hskip & Htwo & _).
  split; [|split; [|split; [|split]]].
  - rewrite Hone. vm_compute. reflexivity.
  - apply Hsorted. intros e He. vm_compute in He.
    destruct He as [<- | [<- | [<- | []]]]; vm_compute; reflexivity.
  - destruct (Hscored "banana"%string) as [s Hs];
      [vm_compute; lia | vm_compute; lia |].
    rewrite <- (Hsum _ s Hs); [exact Hs | vm_compute; reflexivity].
  - apply Hskip. vm_compute. lia.
  - rewrite Htwo. vm_compute. reflexivity.
Defined.

(** C9. On a corpus of one document, with the default [minDocFreq] of 2
    (no options, or options without [minDocFreq]), nothing is scored: the
    result is empty for every [topK]. *)
Theorem computeTfidfEnhanced_single_document
  (stemmer : string -> option string) (Math_log : float -> float)
  (d : Doc) (topK : option nat) :
  computeTfidfEnhanced stemmer Math_log [d] topK None = []
  /\ computeTfidfEnhanced stemmer Math_log [d] topK
       (Some {| minDocFreq := None |}) = []
  /\ forall t, docFreq stemmer [d] t <= 1.
Proof.
  assert (forall t, docFreq stemmer [d] t <= 1) as Hdf
    by (intros t; apply (docFreq_le stemmer [d] t)).
  assert (scoreCorpus stemmer Math_log 2 [d] = []) as Hnone.
  { apply get_all_None. intros t. rewrite scoreCorpus_get.
    specialize (Hdf t).
    destruct (2 <=? docFreq stemmer [d] t) eqn:E; [|reflexivity].
    apply Nat.leb_le in E. lia. }
  assert (forall opts, effectiveMinDocFreq opts = 2 ->
            computeTfidfEnhanced stemmer Math_log [d] topK opts = []) as Hempty.
  { intros opts Hopts. unfold computeTfidfEnhanced, scoredTerms. cbn zeta.
    rewrite Hopts, Hnone. cbn [map JSSort.sort fold_right].
    apply firstn_nil. }
  split; [|split].
  - now apply Hempty.
  - now apply Hempty.
  - exact Hdf.
Qed.

(** C10. For every term that [computeTfidfEnhanced] scores, the surface
    form it shows is the one that [canonicalizeCorpus] holds for that term,
    so the result is the same when the display form is looked up there; and
    that form is a surface form of the corpus that normalizes to the term,
    that no other such form exceeds in occurrences, and that no other such
    form with as many occurrences is shorter than. *)
Theorem canonicalForm_agrees_with_canonicalizeCorpus
  (stemmer : string -> option string) (Math_log : float -> float)
  (allDocs : list Doc) (topK : option nat) (opts : option Options) :
  let scores := scoreCorpus stemmer Math_log (effectiveMinDocFreq opts) allDocs in
  let surfaceMap := snd (indexCorpus stemmer allDocs) in
  let canonical := canonicalizeCorpus stemmer allDocs in
  (forall t s, In (t, s) scores ->
     JSMap.get t canonical = Some (canonicalForm surfaceMap t))
  /\ computeTfidfEnhanced stemmer Math_log allDocs topK opts
     = firstn (match topK with Some k => k | None => 25 end)
         (JSSort.sort byScoreDescending
            (map (fun '(t, s) =>
                    {| term := match JSMap.get t canonical with
                               | Some c => c
                               | None => t
                               end;
                       tfidf := s |})
                 scores))
  /\ (forall t c, JSMap.get t canonical = Some c ->
        c = canonicalForm surfaceMap t
        /\ normalizeTerm stemmer c = t
        /\ 1 <= surfaceCount allDocs c
        /\ forall s, normalizeTerm stemmer s = t ->
             surfaceCount allDocs s <= surfaceCount allDocs c
             /\ (surfaceCount allDocs s = surfaceCount allDocs c ->
                 String.length c <= String.length s)).
Proof.
  intros scores surfaceMap canonical.
  assert (forall t s, In (t, s) scores ->
            JSMap.get t canonical = Some (canonicalForm surfaceMap t)) as Hshown.
  { intros t s Hin. unfold canonical. rewrite canonicalizeCorpus_get.
    apply scored_term in Hin. destruct Hin as [_ Hs].
    apply summedScore_contains in Hs. destruct Hs as [d [Hd Hc]].
    destruct (contains_surfaceMap stemmer allDocs d t Hd Hc) as [m Hm].
    now rewrite Hm. }
  split; [exact Hshown | split].
  - unfold computeTfidfEnhanced, scoredTerms. cbn zeta.
    fold scores. fold surfaceMap. do 2 f_equal.
    apply map_ext_in. intros [t s] Hin.
    now rewrite (Hshown t s Hin).
  - subst surfaceMap. intros t c Hget. unfold canonical in Hget.
    rewrite canonicalizeCorpus_get in Hget.
    destruct (JSMap.get t (snd (indexCorpus stemmer allDocs))) as [m|] eqn:Gm;
      [|discriminate].
    injection Hget as <-.
    destruct (surfaceMapOf_entries stemmer allDocs t m Gm)
      as (Hentries & Hpresent & Hne).
    assert (forall s c, In (s, c) m -> 1 <= c /\ s <> "") as Hpos.
    { intros s c H. destruct (Hentries s c H) as (_ & H1 & _ & H2). now split. }
    destruct (pickSurface_best m Hne Hpos) as (Hin & Hbest & Hall).
    assert (canonicalForm (snd (indexCorpus stemmer allDocs)) t
            = fst (pickSurface m)) as Hform.
    { unfold canonicalForm. rewrite Gm. cbn zeta.
      apply truthy_true in Hbest. now rewrite Hbest. }
    destruct (Hentries _ _ Hin) as (Hnorm & _ & Hcount & Hone).
    rewrite Hform. split; [reflexivity | split; [assumption | split]].
    + now rewrite <- Hcount.
    + intros s Hs. rewrite <- Hcount.
      destruct (surfaceCount allDocs s) as [|k] eqn:Ek.
      * split; [lia|]. intros E. lia.
      * assert (In (s, S k) m) as Hsm.
        { rewrite <- Ek. apply Hpresent; [assumption | lia]. }
        now apply Hall.
Qed.

Definition outcome_corpus : list Doc :=
  [ {| id := "d1"; terms := ["outcome"; "outcome"; "outcom"] |};
    {| id := "d2"; terms := ["outcoming"; "outcome"] |} ].

Example canonicalizeCorpus_outcome :
  canonicalizeCorpus stemmer_excerpt outcome_corpus = [("outcom", "outcome")]
  /\ map term
       (computeTfidfEnhanced stemmer_excerpt log_series outcome_corpus None None)
     = ["outcome"].
Proof. vm_compute. repeat split. Qed.

Lemma canonicalForm_agrees_with_canonicalizeCorpus_witness :
  canonicalForm (snd (indexCorpus stemmer_excerpt outcome_corpus)) "outcom"
  = "outcome"
  /\ surfaceCount outcome_corpus "outcom" <= surfaceCount outcome_corpus "outcome".
Proof.
  pose proof (canonicalForm_agrees_with_canonicalizeCorpus stemmer_excerpt
                log_series outcome_corpus None None)
    as (_ & _ & Hbest).
  destruct (Hbest "outcom" "outcome" eq_refl) as (Hc & _ & _ & Hmax).
  split.
  - now rewrite <- Hc.
  - apply (Hmax "outcom"). reflexivity.
Defined.

(** * The rest of the lexical pipeline *)

Section TokenFacts.

Lemma buildNgrams_from_length (fuel : nat) (tokens : list string) (n : nat) :
  List.length (buildNgrams_from fuel tokens n) = fuel.
Proof.
  revert tokens. induction fuel as [|fuel IH]; intros tokens; simpl;
    [reflexivity | now rewrite IH].
Qed.

Lemma buildNgrams_from_nth (fuel : nat) (tokens : list string) (n i : nat) :
  i < fuel ->
  nth i (buildNgrams_from fuel tokens n) EmptyString
  = joinSpace (firstn n (skipn i tokens)).
Proof.
  revert tokens i. induction fuel as [|fuel IH]; intros tokens i Hi; [lia|].
  destruct i as [|i]; cbn [buildNgrams_from nth].
  - reflexivity.
  - rewrite IH by lia. destruct tokens; [now destruct i | reflexivity].
Qed.

Lemma buildNgrams_from_unigrams (tokens : list string) :
  buildNgrams_from (List.length tokens) tokens 1 = tokens.
Proof.
  induction tokens as [|w ws IH]; [reflexivity|].
  cbn [List.length buildNgrams_from firstn joinSpace tl]. now rewrite IH.
Qed.

(** Characters of the pieces of [split(/\s+/)]. *)
Lemma sforallb_srev_app (p : ascii -> bool) (s acc : string) :
  sforallb p (srev_app s acc) = sforallb p s && sforallb p acc.
Proof.
  revert acc. induction s as [|c s IH]; intros acc; simpl; [reflexivity|].
  rewrite IH. simpl. destruct (p c), (sforallb p s); reflexivity.
Qed.

Lemma sforallb_srev (p : ascii -> bool) (s : string) :
  sforallb p (srev s) = sforallb p s.
Proof. unfold srev. rewrite sforallb_srev_app. simpl. apply andb_true_r. Qed.

Lemma split_ws_from_pieces (p : ascii -> bool) (s cur : string) (inws : bool) :
  sforallb (fun c => negb (isSpace c) && p c) cur = true ->
  sforallb (fun c => isSpace c || p c) s = true ->
  Forall (fun piece => sforallb (fun c => negb (isSpace c) && p c) piece = true)
         (split_ws_from inws cur s).
Proof.
  revert cur inws. induction s as [|c s IH]; intros cur inws Hcur Hs.
  - constructor; [|constructor]. now rewrite sforallb_srev.
  - cbn [split_ws_from]. cbn [sforallb] in Hs.
    apply andb_true_iff in Hs. destruct Hs as [Hc Hs].
    destruct (isSpace c) eqn:E.
    + destruct inws.
      * now apply IH.
      * constructor; [now rewrite sforallb_srev | now apply IH].
    + apply IH; [|assumption]. cbn [sforallb]. rewrite E. cbn in *.
      now rewrite Hc.
Qed.

Lemma trim_no_space (p : ascii -> bool) (s : string) :
  sforallb (fun c => negb (isSpace c) && p c) s = true -> trim s = s.
Proof.
  intros H. unfold trim.
  assert (trimStart s = s) as ->.
  { destruct s as [|c s]; [reflexivity|]. cbn in *.
    apply andb_true_iff in H. destruct H as [H _].
    apply andb_true_iff in H. destruct H as [H _].
    apply negb_true_iff in H. now rewrite H. }
  induction s as [|c s IH]; [reflexivity|].
  cbn in *. apply andb_true_iff in H. destruct H as [Hc Hs].
  apply andb_true_iff in Hc. destruct Hc as [Hc _]. apply negb_true_iff in Hc.
  rewrite (IH Hs). rewrite Hc. now destruct s.
Qed.

(** What [toWords] leaves in a character: neither white space nor
    punctuation, and nothing that [toLowerCase] would change. *)
Definition isTokenChar (c : ascii) : bool :=
  negb (isSpace c) && (negb (isPunctuation c) && Ascii.eqb (toLowerChar c) c).

Lemma toWords_prepared_char (c : ascii) :
  (fun c => isSpace c
            || (negb (isPunctuation c) && Ascii.eqb (toLowerChar c) c))
    (if isPunctuation (toLowerChar c) then " "%char else toLowerChar c) = true.
Proof.
  destruct c as [[] [] [] [] [] [] [] []]; vm_compute; reflexivity.
Qed.

Lemma toWords_prepared (raw : string) :
  sforallb (fun c => isSpace c
                     || (negb (isPunctuation c) && Ascii.eqb (toLowerChar c) c))
    (smap (fun c => if isPunctuation c then " "%char else c) (toLowerCase raw))
  = true.
Proof.
  unfold toLowerCase. induction raw as [|c raw IH]; [reflexivity|].
  cbn [smap sforallb]. rewrite IH, andb_true_r.
  apply toWords_prepared_char.
Qed.

Lemma toLowerCase_fixed (s : string) :
  sforallb (fun c => Ascii.eqb (toLowerChar c) c) s = true -> toLowerCase s = s.
Proof.
  unfold toLowerCase. induction s as [|c s IH]; [reflexivity|].
  cbn [sforallb smap]. intros H. apply andb_true_iff in H.
  destruct H as [Hc Hs]. apply Ascii.eqb_eq in Hc. now rewrite Hc, IH.
Qed.

Lemma sforallb_weaken (p q : ascii -> bool) (s : string) :
  (forall c, p c = true -> q c = true) ->
  sforallb p s = true -> sforallb q s = true.
Proof.
  intros Hpq. induction s as [|c s IH]; [reflexivity|].
  cbn [sforallb]. intros H. apply andb_true_iff in H. destruct H as [Hc Hs].
  now rewrite (Hpq c Hc), IH.
Qed.

Lemma tokenFilters_incl (ws : list string) (P : string -> Prop) :
  Forall P ws -> Forall P (tokenFilters ws).
Proof.
  intros H. apply Forall_forall. intros w Hw.
  apply tokenFilters_In in Hw. destruct Hw as [Hw _].
  rewrite Forall_forall in H. now apply H.
Qed.

Lemma toWords_token_chars (raw : string) :
  Forall (fun w => sforallb isTokenChar w = true) (toWords raw).
Proof.
  unfold toWords. apply tokenFilters_incl.
  pose proof (split_ws_from_pieces
                (fun c => negb (isPunctuation c) && Ascii.eqb (toLowerChar c) c)
                (smap (fun c => if isPunctuation c then " "%char else c)
                      (toLowerCase raw))
                EmptyString false eq_refl (toWords_prepared raw)) as H.
  fold (split_ws (smap (fun c => if isPunctuation c then " "%char else c)
                       (toLowerCase raw))) in H.
  apply Forall_forall. intros w Hw. apply in_map_iff in Hw.
  destruct Hw as [piece [<- Hin]].
  rewrite Forall_forall in H. specialize (H piece Hin).
  now rewrite (trim_no_space _ piece H).
Qed.

Lemma filter_all {X : Type} (p : X -> bool) (l : list X) :
  Forall (fun x => p x = true) l -> filter p l = l.
Proof.
  induction 1 as [|x l Hx _ IH]; [reflexivity|].
  cbn. now rewrite Hx, IH.
Qed.

Lemma toLowerChar_idempotent (c : ascii) :
  toLowerChar (toLowerChar c) = toLowerChar c.
Proof. destruct c as [[] [] [] [] [] [] [] []]; vm_compute; reflexivity. Qed.


Lemma toLowerCase_sforallb (s : string) :
  sforallb (fun c => Ascii.eqb (toLowerChar c) c) (toLowerCase s) = true.
Proof.
  unfold toLowerCase. induction s as [|c s IH]; [reflexivity|].
  cbn [smap sforallb]. rewrite IH, toLowerChar_idempotent.
  now rewrite Ascii.eqb_refl.
Qed.

(** A term that is already lower-case, trimmed and kept by the five
    filters passes [filterTerms] unchanged. *)
Definition isFilteredTerm (w : string) : Prop :=
  toLowerCase w = w /\ trim w = w /\ keepToken w = true.

Lemma filterTerms_fixed (ws : list string) :
  Forall isFilteredTerm ws -> filterTerms ws = ws.
Proof.
  intros H. unfold filterTerms.
  assert (map trim (map toLowerCase ws) = ws) as ->.
  { induction H as [|w ws [Hl [Ht _]] _ IH]; [reflexivity|].
    cbn [map]. now rewrite IH, Hl, Ht. }
  assert (Forall (fun w => keepToken w = true) ws) as Hk.
  { apply Forall_forall. intros w Hw. rewrite Forall_forall in H.
    now destruct (H w Hw) as [_ [_ Hk]]. }
  unfold tokenFilters.
  assert (forall q : string -> bool,
            (forall w, keepToken w = true -> q w = true) ->
            filter q ws = ws) as Hq.
  { intros q Hkq. apply filter_all. apply Forall_forall. intros w Hw.
    apply Hkq. rewrite Forall_forall in Hk. now apply Hk. }
  unfold keepToken in Hq.
  rewrite (Hq truthy), (Hq (fun w => 1 <? String.length w)),
    (Hq (fun w => negb (isStopword w))), (Hq hasLetter),
    (Hq (fun w => negb (allDigits w))); try reflexivity;
    intros w Hw; repeat (apply andb_true_iff in Hw; destruct Hw as [Hw ?]);
    assumption.
Qed.

Lemma toWords_filtered (raw w : string) :
  In w (toWords raw) -> isFilteredTerm w.
Proof.
  intros Hw. pose proof (toWords_token_chars raw) as H.
  rewrite Forall_forall in H. specialize (H w Hw).
  split; [|split].
  - apply toLowerCase_fixed. revert H. apply sforallb_weaken.
    intros c Hc. unfold isTokenChar in Hc.
    apply andb_true_iff in Hc. destruct Hc as [_ Hc].
    apply andb_true_iff in Hc. now destruct Hc.
  - apply (trim_no_space _ w H).
  - now apply (toWords_keepToken raw).
Qed.

Lemma filterTerms_filtered (terms : list string) (w : string) :
  In w (filterTerms terms) -> isFilteredTerm w.
Proof.
  unfold filterTerms. intros Hw. apply tokenFilters_In in Hw.
  destruct Hw as [Hw Hk].
  apply in_map_iff in Hw. destruct Hw as [u [<- Hu]].
  apply in_map_iff in Hu. destruct Hu as [t [<- _]].
  split; [|split].
  - apply toLowerCase_fixed. unfold trim.
    apply sforallb_trimEnd, sforallb_trimStart, toLowerCase_sforallb.
  - apply trim_idempotent.
  - exact Hk.
Qed.

End TokenFacts.

(** X1. [buildNgrams(tokens, n)] has [tokens.length - n + 1] entries, none
    when [n] exceeds the number of tokens; entry [i] joins the [n] tokens
    from position [i] with single spaces; and the 1-grams are the tokens
    themselves. *)
Theorem buildNgrams_windows (tokens : list string) (n : nat) :
  List.length (buildNgrams tokens n) = S (List.length tokens) - n
  /\ (forall i, i < S (List.length tokens) - n ->
        nth i (buildNgrams tokens n) EmptyString
        = joinSpace (firstn n (skipn i tokens)))
  /\ (List.length tokens < n -> buildNgrams tokens n = [])
  /\ buildNgrams tokens 1 = tokens.
Proof.
  unfold buildNgrams. split; [|split; [|split]].
  - apply buildNgrams_from_length.
  - intros i Hi. now apply buildNgrams_from_nth.
  - intros H. replace (S (List.length tokens) - n) with 0 by lia. reflexivity.
  - replace (S (List.length tokens) - 1) with (List.length tokens) by lia.
    apply buildNgrams_from_unigrams.
Qed.

(** X2. No token of [toWords] contains white space, one of the replaced
    punctuation characters, or a character that [toLowerCase] would change
    (so no capital letter). *)
Theorem toWords_tokens_lowercase_words (raw : string) :
  Forall (fun w =>
            forall c, In c (list_ascii_of_string w) ->
              isSpace c = false /\ isPunctuation c = false
              /\ toLowerChar c = c /\ isUpperAZ c = false)
         (toWords raw).
Proof.
  pose proof (toWords_token_chars raw) as H.
  apply Forall_forall. intros w Hw c Hc.
  rewrite Forall_forall in H. specialize (H w Hw).
  rewrite sforallb_forall in H. specialize (H c Hc).
  unfold isTokenChar in H.
  apply andb_true_iff in H. destruct H as [H1 H].
  apply andb_true_iff in H. destruct H as [H2 H3].
  apply negb_true_iff in H1. apply negb_true_iff in H2.
  apply Ascii.eqb_eq in H3.
  repeat split; try assumption.
  clear -H3. destruct c as [[] [] [] [] [] [] [] []];
    vm_compute in H3 |- *; congruence.
Qed.

(** X3. [filterTerms] leaves the tokens of [toWords] as they are, also
    when the tokens of several texts are put together, as [analyzeFile]
    does for its weighted terms; and filtering twice is filtering once. *)
Theorem filterTerms_after_toWords (texts : list string) (terms : list string) :
  filterTerms (flat_map toWords texts) = flat_map toWords texts
  /\ filterTerms (filterTerms terms) = filterTerms terms.
Proof.
  split; apply filterTerms_fixed; apply Forall_forall; intros w Hw.
  - apply in_flat_map in Hw. destruct Hw as [raw [_ Hw]].
    now apply (toWords_filtered raw).
  - now apply (filterTerms_filtered terms).
Qed.

(** * The weighted terms and the H1 backfill of [analyzeFile] *)

(** The words of an optional field: those that [pushWeighted] repeats. *)
Definition fieldWords (o : option string) : list string :=
  match o with
  | Some s => toWords s
  | None => []
  end.

Section WeightFacts.

Lemma toWords_empty : toWords EmptyString = [].
Proof. reflexivity. Qed.

Lemma pushWeighted_repeat (o : option string) (k : nat) :
  Analyzer.pushWeighted o k = Analyzer.repeatWords (fieldWords o) k.
Proof.
  unfold Analyzer.pushWeighted. destruct o as [[|c s]|]; cbn [Analyzer.present truthy fieldWords];
    try reflexivity.
  - rewrite toWords_empty. induction k as [|k IH]; [reflexivity | exact IH].
  - induction k as [|k IH]; [reflexivity | exact IH].
Qed.

Lemma count_occ_repeatWords (ws : list string) (k : nat) (w : string) :
  count_occ string_dec (Analyzer.repeatWords ws k) w
  = k * count_occ string_dec ws w.
Proof.
  induction k as [|k IH]; [reflexivity|].
  cbn [Analyzer.repeatWords]. rewrite count_occ_app, IH. lia.
Qed.

Lemma In_repeatWords (ws : list string) (k : nat) (w : string) :
  In w (Analyzer.repeatWords ws k) -> In w ws.
Proof.
  induction k as [|k IH]; [intros []|].
  cbn [Analyzer.repeatWords]. intros H. apply in_app_or in H. tauto.
Qed.

Lemma count_occ_flat_map_repeat (hs : list string) (k : nat) (w : string) :
  count_occ string_dec
    (flat_map (fun h => Analyzer.pushWeighted (Some h) k) hs) w
  = k * count_occ string_dec (flat_map toWords hs) w.
Proof.
  induction hs as [|h hs IH]; [cbn; lia|].
  cbn [flat_map]. rewrite !count_occ_app, IH, pushWeighted_repeat.
  rewrite count_occ_repeatWords. cbn [fieldWords]. lia.
Qed.

Lemma pushWeighted_filtered (o : option string) (k : nat) (w : string) :
  In w (Analyzer.pushWeighted o k) -> isFilteredTerm w.
Proof.
  rewrite pushWeighted_repeat. intros H. apply In_repeatWords in H.
  destruct o as [s|]; [|destruct H]. now apply (toWords_filtered s).
Qed.

Lemma headings_filtered (hs : list string) (k : nat) (w : string) :
  In w (flat_map (fun h => Analyzer.pushWeighted (Some h) k) hs) ->
  isFilteredTerm w.
Proof.
  intros H. apply in_flat_map in H. destruct H as [h [_ H]].
  now apply (pushWeighted_filtered (Some h) k).
Qed.

Lemma analyzeFile_tfidfTerms_count (ex : Analyzer.Extracted) (w : string) :
  count_occ string_dec (Analyzer.tfidfTerms (Analyzer.analyzeFile ex)) w
  = 5 * count_occ string_dec
          (fieldWords (Analyzer.title (Analyzer.analyzeFile ex))) w
  + 4 * count_occ string_dec
          (fieldWords (Analyzer.description (Analyzer.analyzeFile ex))) w
  + 4 * count_occ string_dec
          (flat_map toWords
             (Analyzer.h1 (Analyzer.headings (Analyzer.analyzeFile ex)))) w
  + 3 * count_occ string_dec
          (flat_map toWords
             (Analyzer.h2 (Analyzer.headings (Analyzer.analyzeFile ex)))) w
  + 2 * count_occ string_dec
          (flat_map toWords
             (Analyzer.h3 (Analyzer.headings (Analyzer.analyzeFile ex)))) w
  + count_occ string_dec (Analyzer.tokens (Analyzer.analyzeFile ex)) w.
Proof.
  cbn [Analyzer.tfidfTerms Analyzer.analyzeFile Analyzer.title
       Analyzer.description Analyzer.headings Analyzer.tokens].
  rewrite filterTerms_fixed.
  - rewrite !count_occ_app, !count_occ_flat_map_repeat, !pushWeighted_repeat.
    rewrite !count_occ_repeatWords. lia.
  - apply Forall_forall. intros x Hx.
    repeat (apply in_app_or in Hx; destruct Hx as [Hx | Hx]);
      eauto using pushWeighted_filtered, headings_filtered, toWords_filtered.
Qed.

Lemma backfillH1_title (ext t : string) (jsonName : option string)
  (hs : Analyzer.Headings) :
  t <> EmptyString -> Analyzer.h1 hs = [] ->
  Analyzer.backfillH1 ext (Some t) jsonName hs
  = {| Analyzer.h1 := [t]; Analyzer.h2 := Analyzer.h2 hs;
       Analyzer.h3 := Analyzer.h3 hs |}.
Proof.
  intros Ht Hh. unfold Analyzer.backfillH1. rewrite Hh.
  destruct t; [congruence | reflexivity].
Qed.

End WeightFacts.

(** X4. The weighted terms of a document are all kept by [filterTerms],
    so a word occurs among them 5 times for each occurrence in the title,
    4 in the description, 4 in an H1 heading, 3 in an H2, 2 in an H3 and once
    for each occurrence in the body tokens; the H1 headings are those after
    the backfill. *)
Theorem analyzeFile_tfidfTerms_weights (ex : Analyzer.Extracted) (w : string) :
  Analyzer.tfidfTerms (Analyzer.analyzeFile ex)
  = Analyzer.pushWeighted (Analyzer.title (Analyzer.analyzeFile ex)) 5
    ++ Analyzer.pushWeighted (Analyzer.description (Analyzer.analyzeFile ex)) 4
    ++ flat_map (fun h => Analyzer.pushWeighted (Some h) 4)
         (Analyzer.h1 (Analyzer.headings (Analyzer.analyzeFile ex)))
    ++ flat_map (fun h => Analyzer.pushWeighted (Some h) 3)
         (Analyzer.h2 (Analyzer.headings (Analyzer.analyzeFile ex)))
    ++ flat_map (fun h => Analyzer.pushWeighted (Some h) 2)
         (Analyzer.h3 (Analyzer.headings (Analyzer.analyzeFile ex)))
    ++ Analyzer.tokens (Analyzer.analyzeFile ex)
  /\ count_occ string_dec (Analyzer.tfidfTerms (Analyzer.analyzeFile ex)) w
     = 5 * count_occ string_dec
             (fieldWords (Analyzer.title (Analyzer.analyzeFile ex))) w
     + 4 * count_occ string_dec
             (fieldWords (Analyzer.description (Analyzer.analyzeFile ex))) w
     + 4 * count_occ string_dec
             (flat_map toWords
                (Analyzer.h1 (Analyzer.headings (Analyzer.analyzeFile ex)))) w
     + 3 * count_occ string_dec
             (flat_map toWords
                (Analyzer.h2 (Analyzer.headings (Analyzer.analyzeFile ex)))) w
     + 2 * count_occ string_dec
             (flat_map toWords
                (Analyzer.h3 (Analyzer.headings (Analyzer.analyzeFile ex)))) w
     + count_occ string_dec (Analyzer.tokens (Analyzer.analyzeFile ex)) w.
Proof.
  split; [|apply analyzeFile_tfidfTerms_count].
  cbn [Analyzer.tfidfTerms Analyzer.analyzeFile Analyzer.title
       Analyzer.description Analyzer.headings Analyzer.tokens].
  apply filterTerms_fixed. apply Forall_forall. intros x Hx.
  repeat (apply in_app_or in Hx; destruct Hx as [Hx | Hx]);
    eauto using pushWeighted_filtered, headings_filtered, toWords_filtered.
Qed.

(** X5. A document is warned about a missing H1 only when it is also warned
    about a missing title: the source then has no H1 of its own and the
    title is absent or empty. *)
Theorem analyzeFile_missing_h1_implies_missing_title (ex : Analyzer.Extracted) :
  In "Missing H1 heading" (Analyzer.warnings (Analyzer.analyzeFile ex)) ->
  In "Missing <title>" (Analyzer.warnings (Analyzer.analyzeFile ex))
  /\ Analyzer.present (Analyzer.title (Analyzer.analyzeFile ex)) = false
  /\ Analyzer.h1 (Analyzer.ex_headings ex) = []
  /\ Analyzer.h1 (Analyzer.headings (Analyzer.analyzeFile ex)) = [].
Proof.
  intros H.
  assert (Analyzer.h1 (Analyzer.headings (Analyzer.analyzeFile ex)) = []) as Hh1.
  { cbn [Analyzer.warnings Analyzer.analyzeFile Analyzer.headings] in *.
    rewrite collectWarnings_slots in H.
    unfold Analyzer.slot, Analyzer.descriptionLengthMessage,
      Analyzer.titleLengthMessage in H.
    repeat (apply in_app_or in H; destruct H as [H | H]);
      repeat match type of H with
             | In _ (if ?b then _ else _) => destruct b eqn:?
             end;
      cbn in H; try tauto;
      try (destruct H as [H | []]; discriminate).
    apply Nat.eqb_eq in Heqb. now apply length_zero_iff_nil. }
  assert (Analyzer.present (Analyzer.title (Analyzer.analyzeFile ex)) = false
          /\ Analyzer.h1 (Analyzer.ex_headings ex) = []) as [Ht Hsrc].
  { cbn [Analyzer.analyzeFile Analyzer.headings Analyzer.title] in *.
    unfold Analyzer.backfillH1 in Hh1.
    destruct (Analyzer.h1 (Analyzer.ex_headings ex)) as [|h hs] eqn:Esrc.
    - split; [|reflexivity]. cbn [List.length Nat.eqb andb] in Hh1.
      destruct (Analyzer.present _) eqn:Ep; [|reflexivity].
      cbn [Analyzer.h1] in Hh1.
      destruct (Analyzer.orElse _ _); [discriminate | discriminate Ep].
    - cbn [List.length Nat.eqb andb] in Hh1. rewrite Esrc in Hh1.
      discriminate. }
  split; [|split; [|split]]; try assumption.
  now apply warnings_missing_title.
Qed.

Lemma analyzeFile_missing_h1_implies_missing_title_witness :
  In "Missing <title>"
     (Analyzer.warnings (Analyzer.analyzeFile draft_without_metadata))
  /\ Analyzer.present
       (Analyzer.title (Analyzer.analyzeFile draft_without_metadata)) = false
  /\ Analyzer.h1 (Analyzer.ex_headings draft_without_metadata) = []
  /\ Analyzer.h1
       (Analyzer.headings (Analyzer.analyzeFile draft_without_metadata)) = [].
Proof.
  apply (analyzeFile_missing_h1_implies_missing_title draft_without_metadata).
  vm_compute. tauto.
Defined.

(** X6. When the source of a document has no H1 and the document has a
    non-empty title, the title becomes its only H1, there is no H1 warning,
    and each title word weighs 9 in the weighted terms: 5 as the title and 4
    as the H1. *)
Theorem analyzeFile_title_backfills_h1 (ex : Analyzer.Extracted) (t w : string) :
  Analyzer.title (Analyzer.analyzeFile ex) = Some t ->
  t <> EmptyString ->
  Analyzer.h1 (Analyzer.ex_headings ex) = [] ->
  Analyzer.h1 (Analyzer.headings (Analyzer.analyzeFile ex)) = [t]
  /\ ~ In "Missing H1 heading" (Analyzer.warnings (Analyzer.analyzeFile ex))
  /\ count_occ string_dec (Analyzer.tfidfTerms (Analyzer.analyzeFile ex)) w
     = 9 * count_occ string_dec (toWords t) w
     + 4 * count_occ string_dec
             (fieldWords (Analyzer.description (Analyzer.analyzeFile ex))) w
     + 3 * count_occ string_dec
             (flat_map toWords (Analyzer.h2 (Analyzer.ex_headings ex))) w
     + 2 * count_occ string_dec
             (flat_map toWords (Analyzer.h3 (Analyzer.ex_headings ex))) w
     + count_occ string_dec (toWords (Analyzer.ex_text ex)) w.
Proof.
  intros Ht Hne Hsrc.
  assert (Analyzer.headings (Analyzer.analyzeFile ex)
          = {| Analyzer.h1 := [t];
               Analyzer.h2 := Analyzer.h2 (Analyzer.ex_headings ex);
               Analyzer.h3 := Analyzer.h3 (Analyzer.ex_headings ex) |}) as Hh.
  { cbn [Analyzer.analyzeFile Analyzer.headings Analyzer.title] in *.
    rewrite Ht. now apply backfillH1_title. }
  split; [now rewrite Hh | split].
  - intros Hin.
    cbn [Analyzer.warnings Analyzer.analyzeFile] in Hin.
    cbn [Analyzer.analyzeFile Analyzer.headings] in Hh.
    rewrite Hh, collectWarnings_slots in Hin.
    unfold Analyzer.slot, Analyzer.descriptionLengthMessage,
      Analyzer.titleLengthMessage in Hin.
    repeat (apply in_app_or in Hin; destruct Hin as [Hin | Hin]);
      repeat match type of Hin with
             | In _ (if ?b then _ else _) => destruct b eqn:?
             end;
      cbn in Hin; try tauto;
      try (destruct Hin as [Hin | []]; discriminate).
  - rewrite analyzeFile_tfidfTerms_count, Hh, Ht.
    cbn [Analyzer.h1 Analyzer.h2 Analyzer.h3 fieldWords flat_map].
    rewrite app_nil_r. cbn [Analyzer.tokens Analyzer.analyzeFile]. lia.
Qed.

Definition post_with_frontmatter_title : Analyzer.Extracted :=
  {| Analyzer.ex_filePath := "/site/src/content/writing/caching.mdx";
     Analyzer.ex_ext := ".mdx";
     Analyzer.ex_htmlTitle := None;
     Analyzer.ex_htmlDescription := None;
     Analyzer.ex_fmTitle := Some "Caching strategies";
     Analyzer.ex_fmDescription := None;
     Analyzer.ex_headings :=
       {| Analyzer.h1 := []; Analyzer.h2 := ["Cache keys"]; Analyzer.h3 := [] |};
     Analyzer.ex_jsonName := None;
     Analyzer.ex_text := "Caching strategies compared. Cache keys matter." |}.

Lemma analyzeFile_title_backfills_h1_witness :
  Analyzer.h1 (Analyzer.headings (Analyzer.analyzeFile post_with_frontmatter_title))
  = ["Caching strategies"]
  /\ count_occ string_dec
       (Analyzer.tfidfTerms (Analyzer.analyzeFile post_with_frontmatter_title))
       "caching" = 10.
Proof.
  destruct (analyzeFile_title_backfills_h1 post_with_frontmatter_title
              "Caching strategies" "caching" eq_refl) as [H1 [_ H3]];
    [discriminate | reflexivity |].
  split; [exact H1 | rewrite H3; reflexivity].
Defined.

(** * The words of [computeReadability] *)

Section ReadabilityWordFacts.

Lemma readability_prepared_char (c : ascii) :
  (fun c => isSpace c || isLowerAZ c)
    (if isLowerAZ (toLowerChar c) || isSpace (toLowerChar c)
     then toLowerChar c else " "%char) = true.
Proof. destruct c as [[] [] [] [] [] [] [] []]; vm_compute; reflexivity. Qed.

Lemma readability_prepared (text : string) :
  sforallb (fun c => isSpace c || isLowerAZ c)
    (smap (fun c => if isLowerAZ c || isSpace c then c else " "%char)
          (toLowerCase text)) = true.
Proof.
  unfold toLowerCase. induction text as [|c text IH]; [reflexivity|].
  cbn [smap sforallb]. rewrite IH, andb_true_r.
  apply readability_prepared_char.
Qed.

Lemma wordsOf_alphabetic (text w : string) :
  In w (wordsOf text) -> w <> EmptyString /\ sforallb isLowerAZ w = true.
Proof.
  unfold wordsOf. intros H. apply filter_In in H. destruct H as [Hin Hw].
  split; [now destruct w|].
  pose proof (split_ws_from_pieces isLowerAZ _ EmptyString false eq_refl
                (readability_prepared text)) as Hp.
  rewrite Forall_forall in Hp. specialize (Hp w Hin).
  revert Hp. apply sforallb_weaken. intros c Hc.
  apply andb_true_iff in Hc. now destruct Hc.
Qed.

Lemma countSyllables_word (w : string) :
  w <> EmptyString -> sforallb isLowerAZ w = true -> 1 <= countSyllables w.
Proof.
  intros Hne Hw. unfold countSyllables.
  rewrite (lettersOf_alphabetic w Hw).
  destruct w; [congruence|]. cbn [truthy negb]. apply Nat.le_max_l.
Qed.

Lemma syllables_from (ws : list string) (acc : nat) :
  Forall (fun w => 1 <= countSyllables w) ws ->
  acc + List.length ws
  <= fold_left (fun acc w => acc + countSyllables w) ws acc.
Proof.
  intros H. revert acc. induction H as [|w ws Hw _ IH]; intros acc.
  - cbn. lia.
  - cbn [fold_left List.length]. specialize (IH (acc + countSyllables w)). lia.
Qed.

End ReadabilityWordFacts.

Lemma syllables_by_spec (ws : list string) (acc : nat) :
  Forall (fun w => countSyllables w = syllablesBySpec w) ws ->
  fold_left (fun acc w => acc + countSyllables w) ws acc
  = fold_left (fun acc w => acc + syllablesBySpec w) ws acc.
Proof.
  intros H. revert acc. induction H as [|w ws Hw _ IH]; intros acc;
    [reflexivity|].
  cbn [fold_left]. now rewrite Hw, IH.
Qed.

Lemma countSyllables_alphabetic (word : string) :
  word <> EmptyString -> sforallb isLowerAZ word = true ->
  countSyllables word = syllablesBySpec word /\ 1 <= countSyllables word.
Proof.
  intros Hne Hall. rewrite countSyllables_letters.
  rewrite lettersOf_alphabetic by assumption.
  apply truthy_true in Hne. rewrite Hne. split; [reflexivity|].
  unfold syllablesBySpec. cbn zeta. apply Nat.le_max_l.
Qed.

(** C8. The syllable count of every word that is counted is the number
    of its vowel groups (a maximal run of a, e, i, o, u,
    y, counted where it starts), less one when the word ends in e and there
    is more than one group, and at least 1. [countSyllables] is called in
    one place, by [computeReadability], on the words of the text: they are
    non-empty and made of the letters a to z; and the syllable total of a
    text is the sum of those counts over its words. *)
Theorem countSyllables_spec (word : string) :
  (word <> EmptyString -> sforallb isLowerAZ word = true ->
   countSyllables word = syllablesBySpec word /\ 1 <= countSyllables word)
  /\ (forall text,
        In word (wordsOf text) ->
        word <> EmptyString /\ sforallb isLowerAZ word = true
        /\ countSyllables word = syllablesBySpec word
        /\ 1 <= countSyllables word)
  /\ (forall text,
        syllableCountOf text
        = fold_left (fun acc w => acc + syllablesBySpec w) (wordsOf text) 0).
Proof.
  split; [apply countSyllables_alphabetic | split].
  - intros text Hin.
    destruct (wordsOf_alphabetic text word Hin) as [Hne Hall].
    destruct (countSyllables_alphabetic word Hne Hall) as [Hcount Hfloor].
    now repeat split.
  - intros text. unfold syllableCountOf. apply syllables_by_spec.
    apply Forall_forall. intros w Hw.
    destruct (wordsOf_alphabetic text w Hw) as [Hne Hall].
    now destruct (countSyllables_alphabetic w Hne Hall).
Qed.

Lemma countSyllables_spec_witness :
  In "readable"%string (wordsOf "A readable text, 2024.")
  /\ countSyllables "readable" = syllablesBySpec "readable"
  /\ countSyllables "readable" = 2
  /\ 1 <= countSyllables "readable".
Proof.
  assert (In "readable"%string (wordsOf "A readable text, 2024.")) as Hin
      by (vm_compute; tauto).
  destruct (proj1 (proj2 (countSyllables_spec "readable"))
              "A readable text, 2024." Hin) as (_ & _ & Hcount & Hfloor).
  split; [exact Hin | split; [exact Hcount | split; [reflexivity | exact Hfloor]]].
Defined.

(** X7. Every word that [computeReadability] counts is a non-empty string
    of the letters a to z and has at least one syllable, so the syllable count
    is never below the word count. *)
Theorem computeReadability_words (text : string) :
  Forall (fun w => w <> EmptyString /\ sforallb isLowerAZ w = true
                   /\ 1 <= countSyllables w)
         (wordsOf text)
  /\ Readability.wordCount (computeReadability text) <= syllableCountOf text.
Proof.
  assert (Forall (fun w => w <> EmptyString /\ sforallb isLowerAZ w = true
                           /\ 1 <= countSyllables w) (wordsOf text)) as H.
  { apply Forall_forall. intros w Hw.
    destruct (wordsOf_alphabetic text w Hw) as [Hne Ha].
    repeat split; try assumption. now apply countSyllables_word. }
  split; [exact H|].
  cbn [Readability.wordCount computeReadability].
  unfold wordCountOf, syllableCountOf.
  apply (syllables_from (wordsOf text) 0).
  revert H. apply Forall_impl. tauto.
Qed.

(** * [normalizeTerm] on raw terms *)

Section NormalizeInvariance.





End NormalizeInvariance.



(** * Size, threshold and domain of the TF-IDF engine *)

Section EngineBounds.

Variable stemmer : string -> option string.
Variable Math_log : float -> float.

Lemma docFreq_positive (docs : list Doc) (t : string) :
  1 <= docFreq stemmer docs t
  <-> exists d, In d docs /\ contains stemmer t d = true.
Proof.
  unfold docFreq. split.
  - destruct (filter (contains stemmer t) docs) as [|d ds] eqn:E;
      cbn [List.length]; [lia|].
    intros _. exists d. apply filter_In. rewrite E. now left.
  - intros [d Hd]. apply filter_In in Hd.
    destruct (filter (contains stemmer t) docs); [destruct Hd|].
    cbn [List.length]. lia.
Qed.

Lemma sort_length {A : Type} (compareFn : A -> A -> float) (l : list A) :
  List.length (JSSort.sort compareFn l) = List.length l.
Proof. symmetry. apply Permutation_length, sort_Permutation. Qed.

Lemma sort_In {A : Type} (compareFn : A -> A -> float) (l : list A) (x : A) :
  In x (JSSort.sort compareFn l) -> In x l.
Proof.
  apply Permutation_in. apply Permutation_sym, sort_Permutation.
Qed.

Lemma firstn_In {A : Type} (n : nat) (l : list A) (x : A) :
  In x (firstn n l) -> In x l.
Proof.
  intros H. rewrite <- (firstn_skipn n l). apply in_or_app. now left.
Qed.

Lemma scoreCorpus_above (minDf : nat) (docs : list Doc) :
  List.length docs < minDf -> scoreCorpus stemmer Math_log minDf docs = [].
Proof.
  intros H. apply get_all_None. intros t. rewrite scoreCorpus_get.
  pose proof (docFreq_le stemmer docs t) as Hle.
  destruct (minDf <=? docFreq stemmer docs t) eqn:E; [|reflexivity].
  apply Nat.leb_le in E. lia.
Qed.

Lemma surfaceMap_key (docs : list Doc) (t : string) :
  JSMap.get t (snd (indexCorpus stemmer docs)) <> None
  <-> 1 <= docFreq stemmer docs t.
Proof.
  split.
  - intros H.
    destruct (JSMap.get t (snd (indexCorpus stemmer docs))) as [m|] eqn:E;
      [clear H | congruence].
    assert (t <> EmptyString) as Hne.
    { intros ->. rewrite surfaceMapOf_no_empty_key in E. discriminate. }
    destruct (surfaceMapOf_entries stemmer docs t m E) as [Hm [_ Hnil]].
    destruct m as [|[s c] m]; [congruence|].
    destruct (Hm s c (or_introl eq_refl)) as [Hn [_ [Hc Hpos]]].
    subst c. unfold surfaceCount in Hpos.
    apply count_occ_In in Hpos. apply in_flat_map in Hpos.
    destruct Hpos as [d [Hd Hs]].
    apply docFreq_positive. exists d. split; [assumption|].
    unfold contains. apply existsb_exists. exists t.
    split; [|apply String.eqb_refl].
    unfold normalsOf. apply filter_In. split.
    + apply in_map_iff. now exists s.
    + now destruct t.
  - intros H. apply docFreq_positive in H. destruct H as [d [Hd Hc]].
    destruct (contains_surfaceMap stemmer docs d t Hd Hc) as [m Hm].
    congruence.
Qed.

Lemma canonicalizeCorpus_NoDup (docs : list Doc) :
  NoDup (JSMap.keys (canonicalizeCorpus stemmer docs)).
Proof.
  unfold canonicalizeCorpus.
  generalize (canonicalSurfaceMap stemmer docs).
  assert (NoDup (JSMap.keys (@nil (string * string)))) as H by constructor.
  revert H. generalize (@nil (string * string)).
  intros acc H sm. revert acc H.
  induction sm as [|[n m] sm IH]; intros acc H; [exact H|].
  cbn [fold_left]. apply IH.
  destruct (fold_left _ m (EmptyString, 0)) as [best cnt].
  now apply NoDup_keys_set.
Qed.

Lemma canonicalForm_truthy (docs : list Doc) (t : string) :
  t <> EmptyString ->
  canonicalForm (snd (indexCorpus stemmer docs)) t <> EmptyString.
Proof.
  intros Ht. unfold canonicalForm.
  destruct (JSMap.get t (snd (indexCorpus stemmer docs))) as [m|]; [|exact Ht].
  cbn zeta. destruct (fst (pickSurface m)) eqn:E; cbn [truthy];
    [exact Ht | discriminate].
Qed.

End EngineBounds.

(** X9. [computeTfidfEnhanced] returns as many entries as there are scored
    terms, but no more than [topK] (25 when left out), and each entry is a
    scored term under its canonical form with its score. A [topK] of 0 and an
    empty corpus give an empty array. *)
Theorem computeTfidfEnhanced_size
  (stemmer : string -> option string) (Math_log : float -> float)
  (allDocs : list Doc) (topK : option nat) (opts : option Options) :
  List.length (computeTfidfEnhanced stemmer Math_log allDocs topK opts)
  = Nat.min (match topK with Some k => k | None => 25 end)
            (List.length
               (scoreCorpus stemmer Math_log (effectiveMinDocFreq opts) allDocs))
  /\ (forall e,
        In e (computeTfidfEnhanced stemmer Math_log allDocs topK opts) ->
        exists t s,
          In (t, s) (scoreCorpus stemmer Math_log (effectiveMinDocFreq opts)
                       allDocs)
          /\ e = {| term := canonicalForm (snd (indexCorpus stemmer allDocs)) t;
                    tfidf := s |})
  /\ computeTfidfEnhanced stemmer Math_log allDocs (Some 0) opts = []
  /\ computeTfidfEnhanced stemmer Math_log [] topK opts = [].
Proof.
  split; [|split; [|split]].
  - unfold computeTfidfEnhanced. cbn zeta.
    rewrite length_firstn, sort_length. unfold scoredTerms.
    now rewrite length_map.
  - intros e He. unfold computeTfidfEnhanced in He. cbn zeta in He.
    apply firstn_In, sort_In in He. unfold scoredTerms in He.
    apply in_map_iff in He. destruct He as [[t s] [<- Hin]].
    now exists t, s.
  - reflexivity.
  - unfold computeTfidfEnhanced. cbn. now destruct topK as [[|k]|].
Qed.

(** X10. Raising [minDocFreq] only removes scored terms: a term scored
    under the higher threshold is scored under the lower one with the same
    score. The thresholds 0 and 1 score the same terms, and a threshold above
    the number of documents leaves nothing. *)
Theorem scoreCorpus_threshold
  (stemmer : string -> option string) (Math_log : float -> float)
  (allDocs : list Doc) (lower higher : nat) :
  lower <= higher ->
  (forall t s,
     In (t, s) (scoreCorpus stemmer Math_log higher allDocs) ->
     In (t, s) (scoreCorpus stemmer Math_log lower allDocs))
  /\ (forall t s,
        In (t, s) (scoreCorpus stemmer Math_log 0 allDocs)
        <-> In (t, s) (scoreCorpus stemmer Math_log 1 allDocs))
  /\ (List.length allDocs < higher ->
      forall topK,
        computeTfidfEnhanced stemmer Math_log allDocs topK
          (Some {| minDocFreq := Some higher |}) = []).
Proof.
  intros Hle. split; [|split].
  - intros t s H. apply scored_term in H. apply scored_term.
    destruct H as [Hdf Hs]. split; [lia | exact Hs].
  - intros t s. rewrite !scored_term. split; intros [Hdf Hs].
    + split; [|exact Hs]. apply docFreq_positive.
      now apply (summedScore_contains stemmer Math_log allDocs t s).
    + split; [lia | exact Hs].
  - intros Hlen topK. unfold computeTfidfEnhanced, scoredTerms. cbn zeta.
    cbn [effectiveMinDocFreq minDocFreq].
    rewrite (scoreCorpus_above stemmer Math_log higher allDocs Hlen).
    cbn. apply firstn_nil.
Qed.

Lemma scoreCorpus_threshold_witness :
  (forall t s,
     In (t, s) (scoreCorpus stemmer_excerpt log_series 2 fruit_corpus) ->
     In (t, s) (scoreCorpus stemmer_excerpt log_series 1 fruit_corpus))
  /\ (forall t s,
        In (t, s) (scoreCorpus stemmer_excerpt log_series 0 fruit_corpus)
        <-> In (t, s) (scoreCorpus stemmer_excerpt log_series 1 fruit_corpus))
  /\ (List.length fruit_corpus < 2 ->
      forall topK,
        computeTfidfEnhanced stemmer_excerpt log_series fruit_corpus topK
          (Some {| minDocFreq := Some 2 |}) = []).
Proof.
  apply (scoreCorpus_threshold stemmer_excerpt log_series fruit_corpus 1 2). lia.
Defined.

(** X11. The keys of [canonicalizeCorpus] are the normalized terms that
    occur in some document, each once; the empty term is no key; and no
    canonical form is empty. *)
Theorem canonicalizeCorpus_domain
  (stemmer : string -> option string) (allDocs : list Doc) :
  (forall t, In t (JSMap.keys (canonicalizeCorpus stemmer allDocs))
             <-> 1 <= docFreq stemmer allDocs t)
  /\ NoDup (JSMap.keys (canonicalizeCorpus stemmer allDocs))
  /\ ~ In EmptyString (JSMap.keys (canonicalizeCorpus stemmer allDocs))
  /\ (forall t c, In (t, c) (canonicalizeCorpus stemmer allDocs) ->
        c <> EmptyString).
Proof.
  assert (forall t, In t (JSMap.keys (canonicalizeCorpus stemmer allDocs))
                    <-> 1 <= docFreq stemmer allDocs t) as Hkeys.
  { intros t. rewrite <- surfaceMap_key.
    pose proof (canonicalizeCorpus_get stemmer allDocs t) as G.
    pose proof (get_None_keys t (canonicalizeCorpus stemmer allDocs)) as Hn.
    destruct (JSMap.get t (snd (indexCorpus stemmer allDocs))) as [m|].
    - split; [congruence|]. intros _.
      destruct (in_dec string_dec t
                  (JSMap.keys (canonicalizeCorpus stemmer allDocs)))
        as [Hin | Hout]; [exact Hin|].
      apply Hn in Hout. congruence.
    - split; [|congruence]. intros Hin. apply Hn in G. contradiction. }
  assert (~ In EmptyString (JSMap.keys (canonicalizeCorpus stemmer allDocs)))
    as Hempty.
  { intros Hin. apply Hkeys in Hin. apply surfaceMap_key in Hin.
    now rewrite surfaceMapOf_no_empty_key in Hin. }
  split; [exact Hkeys | split; [apply canonicalizeCorpus_NoDup | split]].
  - exact Hempty.
  - intros t c Hin.
    assert (t <> EmptyString) as Ht.
    { intros ->. apply Hempty. apply in_map_iff. now exists (EmptyString, c). }
    apply In_get_Some in Hin; [|apply canonicalizeCorpus_NoDup].
    rewrite canonicalizeCorpus_get in Hin.
    destruct (JSMap.get t (snd (indexCorpus stemmer allDocs)));
      [|discriminate].
    injection Hin as <-. now apply canonicalForm_truthy.
Qed.

(** * The two link lists of [extractLinks] *)

Section LinkFacts.

Variable URL_host : string -> option string -> option string.

Lemma classifyLinks_from (hrefs internal external : list string) :
  fold_left
    (fun '(internal, external) url =>
       if isExternal URL_host url then (internal, external ++ [url])
       else (internal ++ [url], external))
    hrefs (internal, external)
  = (internal ++ filter (fun url => negb (isExternal URL_host url)) hrefs,
     external ++ filter (isExternal URL_host) hrefs).
Proof.
  revert internal external.
  induction hrefs as [|url hrefs IH]; intros internal external.
  - cbn. now rewrite !app_nil_r.
  - cbn [fold_left filter]. destruct (isExternal URL_host url); cbn [negb];
      rewrite IH, <- app_assoc; reflexivity.
Qed.

End LinkFacts.

(** X12. [extractLinks] puts every scanned link in exactly one of its two
    lists, in the order scanned: the external list holds the links that
    [isExternal] accepts and the internal list all the others, among them
    the empty link and every link that starts with a slash, a hash sign or a
    dot. *)
Theorem classifyLinks_partition
  (URL_host : string -> option string -> option string) (hrefs : list string) :
  classifyLinks URL_host hrefs
  = (filter (fun url => negb (isExternal URL_host url)) hrefs,
     filter (isExternal URL_host) hrefs)
  /\ List.length (fst (classifyLinks URL_host hrefs))
     + List.length (snd (classifyLinks URL_host hrefs))
     = List.length hrefs
  /\ (forall url, In url hrefs ->
        (url = EmptyString \/ startsWith "/" url = true
         \/ startsWith "#" url = true \/ startsWith "." url = true) ->
        In url (fst (classifyLinks URL_host hrefs))
        /\ ~ In url (snd (classifyLinks URL_host hrefs))).
Proof.
  assert (classifyLinks URL_host hrefs
          = (filter (fun url => negb (isExternal URL_host url)) hrefs,
             filter (isExternal URL_host) hrefs)) as E
      by apply (classifyLinks_from URL_host hrefs [] []).
  split; [exact E | split].
  - rewrite E. cbn [fst snd]. clear E.
    induction hrefs as [|url hrefs IH]; [reflexivity|].
    cbn [filter]. destruct (isExternal URL_host url); cbn [negb List.length]; lia.
  - intros url Hin Hlocal. rewrite E. cbn [fst snd].
    assert (isExternal URL_host url = false) as Hint.
    { unfold isExternal. destruct Hlocal as [-> | Hlocal]; [reflexivity|].
      destruct url as [|c url]; [reflexivity|]. cbn [truthy negb].
      destruct Hlocal as [-> | [-> | ->]]; cbn [orb];
        rewrite ?orb_true_r; reflexivity. }
    rewrite !filter_In, Hint. split; [now split | intros [_ H]; discriminate].
Qed.

(** * The corpus summary and the keywords of [generateReport] *)

Module GenerateReport.

Section Report.

Variable stemmer : string -> option string.
Variable Math_log : float -> float.

(** The loop that fills [titleMap]: a document without a title is
    skipped, the file of any other is appended to the files of its title. *)
Definition titleMap (documents : list Analyzer.DocumentMetrics)
  : JSMap.t (list string) :=
  fold_left
    (fun titleMap d =>
       if negb (Analyzer.present (Analyzer.title d)) then titleMap
       else
         match Analyzer.title d with
         | Some t =>
             JSMap.set t
               (match JSMap.get t titleMap with
                | Some files => files
                | None => []
                end ++ [Analyzer.filePath d])
               titleMap
         | None => titleMap
         end)
    documents [].

Definition duplicateTitles (documents : list Analyzer.DocumentMetrics)
  : list (string * list string) :=
  filter (fun '(_, files) => 1 <? List.length files) (titleMap documents).

Definition weightedUnigrams (documents : list Analyzer.DocumentMetrics)
  : list Doc :=
  map (fun d => {| id := Analyzer.filePath d; terms := Analyzer.tfidfTerms d |})
      documents.

Definition weightedNgrams (n : nat) (documents : list Analyzer.DocumentMetrics)
  : list Doc :=
  map (fun d => {| id := Analyzer.filePath d;
                   terms := buildNgrams (Analyzer.tfidfTerms d) n |})
      documents.

Definition topUnigrams (documents : list Analyzer.DocumentMetrics) : list Scored :=
  computeTfidfEnhanced stemmer Math_log (weightedUnigrams documents) (Some 40)
    (Some {| minDocFreq := Some 2 |}).

Definition topBigrams (documents : list Analyzer.DocumentMetrics) : list Scored :=
  computeTfidfEnhanced stemmer Math_log (weightedNgrams 2 documents) (Some 30)
    (Some {| minDocFreq := Some 2 |}).

Definition topTrigrams (documents : list Analyzer.DocumentMetrics) : list Scored :=
  computeTfidfEnhanced stemmer Math_log (weightedNgrams 3 documents) (Some 20)
    (Some {| minDocFreq := Some 2 |}).

(** [vocab], the set of the tokens of all documents. *)
Definition vocab (documents : list Analyzer.DocumentMetrics) : list string :=
  fold_left
    (fun vocab d =>
       fold_left (fun vocab t => JSMap.setAdd t vocab) (Analyzer.tokens d) vocab)
    documents [].

Definition vocabularySize (documents : list Analyzer.DocumentMetrics) : nat :=
  List.length (vocab documents).

(** The document frequencies that [generateReport] counts again. *)
Definition termDocFreq (weighted : list Doc) : JSMap.t nat :=
  fold_left
    (fun termDocFreq d =>
       let unique :=
         JSMap.setOf (filter truthy (map (normalizeTerm stemmer) (terms d))) in
       fold_left (fun m t => JSMap.bump t m) unique termDocFreq)
    weighted [].

Definition globalIdf (weighted : list Doc) : JSMap.t float :=
  let minDocFreq := 2 in
  let docCount := List.length weighted in
  fold_left
    (fun globalIdf '(t, df) =>
       if df <? minDocFreq then globalIdf
       else
         JSMap.set t
           (Math_log (TfIdf.num_of_nat (docCount + 1)
                      / TfIdf.num_of_nat (df + 1)) + 1)%float
           globalIdf)
    (termDocFreq weighted) [].

(** The array [scored] of one document, before it is sorted and cut. *)
Definition scored (globalIdf : JSMap.t float) (canonical : JSMap.t string)
  (d : Analyzer.DocumentMetrics) : list Scored :=
  let tf :=
    fold_left
      (fun tf t0 =>
         let t := normalizeTerm stemmer t0 in
         if negb (truthy t) then tf else JSMap.bump t tf)
      (Analyzer.tfidfTerms d) [] in
  fold_left
    (fun scored '(t, f) =>
       let idf := orZero (JSMap.get t globalIdf) in
       if (idf =? 0)%float then scored
       else
         let score := ((1 + Math_log (TfIdf.num_of_nat f)) * idf)%float in
         let surf := match JSMap.get t canonical with
                     | Some c => if truthy c then c else t
                     | None => t
                     end in
         scored ++ [{| term := surf; tfidf := score |}])
    tf [].

Definition topKeywords (documents : list Analyzer.DocumentMetrics)
  (d : Analyzer.DocumentMetrics) : list Scored :=
  let weighted := weightedUnigrams documents in
  firstn 12
    (JSSort.sort byScoreDescending
       (scored (globalIdf weighted) (canonicalizeCorpus stemmer weighted) d)).

(** The files of the documents whose title is [t], in corpus order. *)
Definition filesTitled (t : string) (documents : list Analyzer.DocumentMetrics)
  : list string :=
  map Analyzer.filePath
    (filter (fun d => match Analyzer.title d with
                      | Some t' => String.eqb t' t
                      | None => false
                      end) documents).

(** The smoothed inverse document frequency of a term. *)
Definition idfOf (weighted : list Doc) (t : string) : float :=
  (Math_log (TfIdf.num_of_nat (List.length weighted + 1)
             / TfIdf.num_of_nat (docFreq stemmer weighted t + 1)) + 1)%float.

(** Falsy numbers: zero and NaN. *)
Definition falsyNumber (v : float) : bool :=
  (v =? 0)%float || negb (v =? v)%float.

End Report.

End GenerateReport.

Section GenerateReportFacts.

Import GenerateReport.

Variable stemmer : string -> option string.
Variable Math_log : float -> float.

Lemma titleMap_from (documents : list Analyzer.DocumentMetrics)
  (acc : JSMap.t (list string)) (t : string) :
  JSMap.get t
    (fold_left
       (fun titleMap d =>
          if negb (Analyzer.present (Analyzer.title d)) then titleMap
          else
            match Analyzer.title d with
            | Some t =>
                JSMap.set t
                  (match JSMap.get t titleMap with
                   | Some files => files
                   | None => []
                   end ++ [Analyzer.filePath d])
                  titleMap
            | None => titleMap
            end)
       documents acc)
  = if truthy t && negb (List.length (filesTitled t documents) =? 0)
    then Some (match JSMap.get t acc with
               | Some files => files
               | None => []
               end ++ filesTitled t documents)
    else JSMap.get t acc.
Proof.
  revert acc. induction documents as [|d ds IH]; intros acc.
  - cbn. now rewrite andb_false_r.
  - cbn [fold_left]. rewrite IH. clear IH. unfold filesTitled.
    cbn [filter]. destruct (Analyzer.title d) as [t'|]; cbn [Analyzer.present].
    + destruct (String.eqb_spec t' t) as [-> | Hne].
      * destruct t as [|c t]; [reflexivity|]. cbn [truthy negb andb map List.length Nat.eqb].
        rewrite get_set_same.
        destruct (List.length _ =? 0) eqn:E.
        -- apply Nat.eqb_eq, length_zero_iff_nil in E. now rewrite E.
        -- cbn [negb]. now rewrite <- app_assoc.
      * destruct (truthy t'); cbn [negb]; [|reflexivity].
        rewrite get_set_other by congruence. reflexivity.
    + reflexivity.
Qed.

Lemma titleMap_NoDup (documents : list Analyzer.DocumentMetrics) :
  NoDup (JSMap.keys (titleMap documents)).
Proof.
  unfold titleMap.
  assert (NoDup (JSMap.keys (@nil (string * list string)))) as H by constructor.
  revert H. generalize (@nil (string * list string)).
  induction documents as [|d ds IH]; intros acc H; [exact H|].
  cbn [fold_left]. apply IH.
  destruct (negb _); [exact H|].
  destruct (Analyzer.title d); [|exact H]. now apply NoDup_keys_set.
Qed.

Lemma titleMap_get (documents : list Analyzer.DocumentMetrics) (t : string) :
  JSMap.get t (titleMap documents)
  = if truthy t && negb (List.length (filesTitled t documents) =? 0)
    then Some (filesTitled t documents)
    else None.
Proof. unfold titleMap. now rewrite titleMap_from. Qed.

Lemma vocab_setOf (documents : list Analyzer.DocumentMetrics) :
  vocab documents = JSMap.setOf (flat_map Analyzer.tokens documents).
Proof.
  unfold vocab, JSMap.setOf.
  apply (fold_left_flat_map (fun vocab t => JSMap.setAdd t vocab)
           Analyzer.tokens documents []).
Qed.

Lemma fold_left_ext_in {X S : Type} (f g : S -> X -> S) (l : list X) (s : S) :
  (forall a x, In x l -> f a x = g a x) -> fold_left f l s = fold_left g l s.
Proof.
  revert s. induction l as [|x l IH]; intros s H; [reflexivity|].
  cbn [fold_left]. rewrite (H s x (or_introl eq_refl)).
  apply IH. intros a y Hy. apply H. now right.
Qed.

Lemma fold_left_push {X Y : Type} (skip : X -> bool) (g : X -> Y)
  (l : list X) (acc : list Y) :
  fold_left (fun acc x => if skip x then acc else acc ++ [g x]) l acc
  = acc ++ map g (filter (fun x => negb (skip x)) l).
Proof.
  revert acc. induction l as [|x l IH]; intros acc.
  - cbn. now rewrite app_nil_r.
  - cbn [fold_left filter]. rewrite IH. destruct (skip x); cbn [negb map].
    + reflexivity.
    + now rewrite <- app_assoc.
Qed.

Lemma termDocFreq_indexCorpus (weighted : list Doc) :
  termDocFreq stemmer weighted = fst (indexCorpus stemmer weighted).
Proof.
  unfold termDocFreq, indexCorpus. now rewrite indexCorpus_fst_from.
Qed.

Lemma termDocFreq_NoDup (weighted : list Doc) :
  NoDup (JSMap.keys (termDocFreq stemmer weighted)).
Proof.
  unfold termDocFreq.
  assert (NoDup (JSMap.keys (@nil (string * nat)))) as H by constructor.
  revert H. generalize (@nil (string * nat)).
  induction weighted as [|d ds IH]; intros acc H; [exact H|].
  cbn [fold_left]. apply IH. now apply NoDup_keys_count.
Qed.

Lemma globalIdf_get (weighted : list Doc) (t : string) :
  JSMap.get t (globalIdf stemmer Math_log weighted)
  = if 2 <=? docFreq stemmer weighted t
    then Some (idfOf stemmer Math_log weighted t)
    else None.
Proof.
  unfold globalIdf. cbn zeta.
  pose proof (termDocFreq_NoDup weighted) as Hnd.
  pose proof (termDocFreq_docFreq stemmer weighted t) as Hdf.
  rewrite <- termDocFreq_indexCorpus in Hdf.
  set (tdf := termDocFreq stemmer weighted) in *.
  pose proof (get_fold_set
                (fun k => JSMap.getOr0 k tdf <? 2)
                (fun (_ : option float) (_ : string) (df : nat) =>
                   (Math_log (TfIdf.num_of_nat (List.length weighted + 1)
                              / TfIdf.num_of_nat (df + 1)) + 1)%float)
                tdf Hnd [] t) as G.
  cbv beta in G.
  etransitivity; [|etransitivity; [exact G|]].
  - f_equal. apply fold_left_ext_in. intros a [k x] Hin.
    apply (In_get_Some _ _ _ Hnd) in Hin.
    unfold JSMap.getOr0. now rewrite Hin.
  - unfold JSMap.getOr0 in *. cbn [JSMap.get]. unfold idfOf.
    destruct (JSMap.get t tdf) as [df|]; subst.
    + destruct (docFreq stemmer weighted t <? 2) eqn:E.
      * apply Nat.ltb_lt in E.
        destruct (2 <=? docFreq stemmer weighted t) eqn:E'; [|reflexivity].
        apply Nat.leb_le in E'. lia.
      * apply Nat.ltb_ge in E. apply Nat.leb_le in E. now rewrite E.
    + rewrite <- Hdf. reflexivity.
Qed.

Lemma canonical_surface (weighted : list Doc) (t : string) :
  t <> EmptyString ->
  match JSMap.get t (canonicalizeCorpus stemmer weighted) with
  | Some c => if truthy c then c else t
  | None => t
  end = canonicalForm (snd (indexCorpus stemmer weighted)) t.
Proof.
  intros Ht. rewrite canonicalizeCorpus_get.
  pose proof (canonicalForm_truthy stemmer weighted t Ht) as Hc.
  unfold canonicalForm in *.
  destruct (JSMap.get t (snd (indexCorpus stemmer weighted))) as [m|];
    [|reflexivity].
  cbn zeta in *. destruct (if truthy (fst (pickSurface m)) then _ else _);
    [congruence | reflexivity].
Qed.

Lemma orZero_truthy (v : float) :
  falsyNumber v = false -> orZero (Some v) = v /\ (orZero (Some v) =? 0)%float = false.
Proof.
  unfold falsyNumber, orZero. intros H. rewrite H. split; [reflexivity|].
  apply orb_false_iff in H. now destruct H.
Qed.

Lemma orZero_falsy (v : option float) :
  match v with Some x => falsyNumber x = true | None => True end ->
  (orZero v =? 0)%float = true.
Proof.
  unfold falsyNumber, orZero. destruct v as [x|]; [|reflexivity].
  intros ->. reflexivity.
Qed.

End GenerateReportFacts.

(** One document of [weightedUnigrams]. *)
Definition weightedDoc (d : Analyzer.DocumentMetrics) : Doc :=
  {| id := Analyzer.filePath d; terms := Analyzer.tfidfTerms d |}.

(** The distinct elements of a list, in the order of their first
    occurrence. *)
Fixpoint firstOccurrences (l : list string) : list string :=
  match l with
  | [] => []
  | x :: l' =>
      x :: filter (fun y => negb (String.eqb y x)) (firstOccurrences l')
  end.

(** The terms that get a keyword entry in a document: its distinct
    normalized terms that at least two documents of the corpus contain and
    whose inverse document frequency is neither zero nor NaN. *)
Definition keywordTerms (stemmer : string -> option string)
  (Math_log : float -> float) (weighted : list Doc)
  (d : Analyzer.DocumentMetrics) : list string :=
  filter
    (fun t =>
       (2 <=? docFreq stemmer weighted t)
       && negb (GenerateReport.falsyNumber
                  (GenerateReport.idfOf stemmer Math_log weighted t)))
    (firstOccurrences (normalsOf stemmer (weightedDoc d))).

(** The entry of a term: its canonical form and its contribution. *)
Definition keywordEntry (stemmer : string -> option string)
  (Math_log : float -> float) (weighted : list Doc)
  (d : Analyzer.DocumentMetrics) (t : string) : Scored :=
  {| term := canonicalForm (snd (indexCorpus stemmer weighted)) t;
     tfidf := contribution stemmer Math_log weighted t (weightedDoc d) |}.

Section KeywordFacts.

Import GenerateReport.

Variable stemmer : string -> option string.
Variable Math_log : float -> float.

Lemma NoDup_keys_filter {V : Type} (p : string * V -> bool) (m : JSMap.t V) :
  NoDup (JSMap.keys m) -> NoDup (JSMap.keys (filter p m)).
Proof.
  unfold JSMap.keys. induction m as [|[k v] m IH]; intros H; [constructor|].
  cbn [map fst] in H. inversion H as [|? ? Hk Hm]; subst.
  cbn [filter]. destruct (p (k, v)); [|now apply IH].
  cbn [map fst]. constructor; [|now apply IH].
  intros Hin. apply Hk. apply in_map_iff in Hin.
  destruct Hin as [[k' v'] [Hfst Hin]]. apply filter_In in Hin.
  apply in_map_iff. exists (k', v'). now split.
Qed.

Lemma scored_entries (weighted : list Doc) (d : Analyzer.DocumentMetrics)
  (e : Scored) :
  In e (scored stemmer Math_log (globalIdf stemmer Math_log weighted)
          (canonicalizeCorpus stemmer weighted) d)
  <-> exists t,
        contains stemmer t (weightedDoc d) = true
        /\ 2 <= docFreq stemmer weighted t
        /\ falsyNumber (idfOf stemmer Math_log weighted t) = false
        /\ e = {| term := canonicalForm (snd (indexCorpus stemmer weighted)) t;
                  tfidf := contribution stemmer Math_log weighted t
                             (weightedDoc d) |}.
Proof.
  unfold scored. cbn zeta.
  change (fold_left
            (fun tf t0 =>
               if negb (truthy (normalizeTerm stemmer t0)) then tf
               else JSMap.bump (normalizeTerm stemmer t0) tf)
            (Analyzer.tfidfTerms d) [])
    with (termFreq stemmer (weightedDoc d)).
  set (gi := globalIdf stemmer Math_log weighted).
  set (canonical := canonicalizeCorpus stemmer weighted).
  rewrite (fold_left_pointwise _
             (fun acc x =>
                if (fun '(t, _) => (orZero (JSMap.get t gi) =? 0)%float)
                     (x : string * nat)
                then acc
                else acc ++
                     [(fun '(t, f) =>
                         {| term := match JSMap.get t canonical with
                                    | Some c => if truthy c then c else t
                                    | None => t
                                    end;
                            tfidf := ((1 + Math_log (TfIdf.num_of_nat f))
                                      * orZero (JSMap.get t gi))%float |})
                        x]))
    by (intros acc [t f]; reflexivity).
  rewrite fold_left_push. cbn [app]. rewrite in_map_iff.
  pose proof (termFreq_NoDup stemmer (weightedDoc d)) as Hnd.
  split.
  - intros [[t f] [<- Hin]]. apply filter_In in Hin. destruct Hin as [Hin Hkeep].
    apply negb_true_iff in Hkeep.
    apply (In_get_Some _ _ _ Hnd) in Hin. rewrite termFreq_get in Hin.
    destruct (contains stemmer t (weightedDoc d)) eqn:Hc; [|discriminate].
    injection Hin as <-. subst gi. rewrite globalIdf_get in Hkeep |- *.
    destruct (2 <=? docFreq stemmer weighted t) eqn:Hdf;
      [|discriminate Hkeep].
    apply Nat.leb_le in Hdf.
    destruct (falsyNumber (idfOf stemmer Math_log weighted t)) eqn:Hf.
    { rewrite (orZero_falsy (Some _) Hf) in Hkeep. discriminate. }
    exists t. repeat split; try assumption.
    destruct (orZero_truthy _ Hf) as [-> _].
    subst canonical. rewrite canonical_surface; [reflexivity|].
    intros ->. unfold contains in Hc. apply existsb_eqb_In in Hc.
    unfold normalsOf in Hc. apply filter_In in Hc. now destruct Hc.
  - intros [t [Hc [Hdf [Hf ->]]]].
    exists (t, freqIn stemmer (weightedDoc d) t).
    apply Nat.leb_le in Hdf.
    assert (JSMap.get t gi = Some (idfOf stemmer Math_log weighted t)) as Hgi
        by (subst gi; now rewrite globalIdf_get, Hdf).
    destruct (orZero_truthy _ Hf) as [Hv Hnz].
    split.
    + rewrite Hgi, Hv. subst canonical. rewrite canonical_surface; [reflexivity|].
      intros ->. unfold contains in Hc. apply existsb_eqb_In in Hc.
      unfold normalsOf in Hc. apply filter_In in Hc. now destruct Hc.
    + apply filter_In. split.
      * apply get_Some_In. now rewrite termFreq_get, Hc.
      * now rewrite Hgi, Hnz.
Qed.

Lemma sort_byScore_sorted (l : list Scored) :
  (forall e, In e l -> FloatOrder.isNaN (tfidf e) = false) ->
  StronglySorted (fun a b => (tfidf b <=? tfidf a)%float = true)
    (JSSort.sort byScoreDescending l).
Proof.
  intros Hnan.
  apply sort_sorted; unfold JSSort.goesAfter, byScoreDescending.
  - intros a b Ha Hb H. rewrite FloatOrder.sub_sign in H.
    apply FloatOrder.ltb_asym in H.
    apply FloatOrder.ltb_false_leb; auto.
  - intros a b Ha Hb H. rewrite FloatOrder.sub_sign in H.
    apply FloatOrder.ltb_false_leb; auto.
  - intros a b c Ha Hb Hc Hab Hbc.
    apply (FloatOrder.leb_trans (tfidf c) (tfidf b) (tfidf a)); auto.
Qed.

Lemma In_firstOccurrences (l : list string) (x : string) :
  In x (firstOccurrences l) <-> In x l.
Proof.
  induction l as [|a l IH]; [reflexivity|].
  cbn [firstOccurrences In]. rewrite filter_In, IH, negb_true_iff.
  destruct (String.eqb_spec x a) as [-> | Hne]; [tauto|].
  split; [tauto|]. intros [H | H]; [congruence | tauto].
Qed.

Lemma NoDup_firstOccurrences (l : list string) : NoDup (firstOccurrences l).
Proof.
  induction l as [|a l IH]; [constructor|].
  cbn [firstOccurrences]. constructor.
  - intros H. apply filter_In in H. destruct H as [_ H].
    now rewrite String.eqb_refl in H.
  - now apply NoDup_filter.
Qed.

Lemma filter_twice {X : Type} (p q : X -> bool) (l : list X) :
  filter p (filter q l) = filter (fun x => q x && p x) l.
Proof.
  induction l as [|x l IH]; [reflexivity|].
  cbn [filter]. destruct (q x); cbn [andb filter]; now rewrite IH.
Qed.

Lemma filter_of_map {X Y : Type} (p : Y -> bool) (h : X -> Y) (l : list X) :
  filter p (map h l) = map h (filter (fun x => p (h x)) l).
Proof.
  induction l as [|x l IH]; [reflexivity|].
  cbn [map filter]. destruct (p (h x)); cbn [map]; now rewrite IH.
Qed.

(** A [Set] filled from a list holds its distinct elements in the order
    of their first occurrence. *)
Lemma setAdd_from (l s : list string) :
  fold_left (fun s x => JSMap.setAdd x s) l s
  = s ++ filter (fun y => negb (existsb (String.eqb y) s)) (firstOccurrences l).
Proof.
  revert s. induction l as [|a l IH]; intros s.
  - cbn. now rewrite app_nil_r.
  - cbn [fold_left firstOccurrences filter]. rewrite IH. clear IH.
    unfold JSMap.setAdd. rewrite filter_twice.
    destruct (existsb (String.eqb a) s) eqn:E; cbn [negb].
    + f_equal. apply filter_ext_in. intros y _.
      destruct (String.eqb_spec y a) as [-> | Hne]; cbn [negb andb];
        [now rewrite E | reflexivity].
    + rewrite <- app_assoc. cbn [app]. f_equal. f_equal.
      apply filter_ext_in. intros y _.
      rewrite existsb_app. cbn [existsb]. rewrite orb_false_r, negb_orb.
      apply andb_comm.
Qed.

Lemma setOf_firstOccurrences (l : list string) :
  JSMap.setOf l = firstOccurrences l.
Proof.
  unfold JSMap.setOf. rewrite setAdd_from. cbn [app existsb negb].
  apply filter_all. apply Forall_forall. reflexivity.
Qed.

Lemma keys_count (l : list string) (m : JSMap.t nat) :
  JSMap.keys (fold_left (fun m x => JSMap.bump x m) l m)
  = fold_left (fun s x => JSMap.setAdd x s) l (JSMap.keys m).
Proof.
  revert m. induction l as [|x l IH]; intros m; [reflexivity|].
  cbn [fold_left]. rewrite IH. f_equal. unfold JSMap.bump. apply keys_set.
Qed.

Lemma keys_termFreq (d : Doc) :
  JSMap.keys (termFreq stemmer d) = firstOccurrences (normalsOf stemmer d).
Proof.
  rewrite termFreq_count, keys_count. apply setOf_firstOccurrences.
Qed.

Lemma entries_of_keys {V : Type} (value : string -> V) (m : JSMap.t V) :
  (forall k v, In (k, v) m -> v = value k) ->
  m = map (fun k => (k, value k)) (JSMap.keys m).
Proof.
  induction m as [|[k v] m IH]; intros H; [reflexivity|].
  cbn [JSMap.keys map fst]. rewrite (H k v (or_introl eq_refl)). f_equal.
  apply IH. intros k' v' Hin. apply H. now right.
Qed.

Lemma termFreq_entries (d : Doc) :
  termFreq stemmer d
  = map (fun t => (t, freqIn stemmer d t))
        (firstOccurrences (normalsOf stemmer d)).
Proof.
  rewrite <- keys_termFreq. apply entries_of_keys. intros k v Hin.
  apply (In_get_Some _ _ _ (termFreq_NoDup stemmer d)) in Hin.
  rewrite termFreq_get in Hin.
  destruct (contains stemmer k d); [now injection Hin as <- | discriminate].
Qed.

Lemma keeps_keyword (weighted : list Doc) (t : string) :
  negb (orZero (JSMap.get t (globalIdf stemmer Math_log weighted)) =? 0)%float
  = (2 <=? docFreq stemmer weighted t)
    && negb (falsyNumber (idfOf stemmer Math_log weighted t)).
Proof.
  rewrite globalIdf_get.
  destruct (2 <=? docFreq stemmer weighted t); [|reflexivity].
  cbn [andb].
  destruct (falsyNumber (idfOf stemmer Math_log weighted t)) eqn:Hf.
  - now rewrite (orZero_falsy (Some _) Hf).
  - destruct (orZero_truthy _ Hf) as [_ ->]. reflexivity.
Qed.

(** The array [scored] of a document, entry by entry. *)
Lemma scored_list (weighted : list Doc) (d : Analyzer.DocumentMetrics) :
  scored stemmer Math_log (globalIdf stemmer Math_log weighted)
    (canonicalizeCorpus stemmer weighted) d
  = map (keywordEntry stemmer Math_log weighted d)
        (keywordTerms stemmer Math_log weighted d).
Proof.
  unfold scored. cbn zeta.
  change (fold_left
            (fun tf t0 =>
               if negb (truthy (normalizeTerm stemmer t0)) then tf
               else JSMap.bump (normalizeTerm stemmer t0) tf)
            (Analyzer.tfidfTerms d) [])
    with (termFreq stemmer (weightedDoc d)).
  set (gi := globalIdf stemmer Math_log weighted).
  set (canonical := canonicalizeCorpus stemmer weighted).
  rewrite (fold_left_pointwise _
             (fun acc x =>
                if (fun '(t, _) => (orZero (JSMap.get t gi) =? 0)%float)
                     (x : string * nat)
                then acc
                else acc ++
                     [(fun '(t, f) =>
                         {| term := match JSMap.get t canonical with
                                    | Some c => if truthy c then c else t
                                    | None => t
                                    end;
                            tfidf := ((1 + Math_log (TfIdf.num_of_nat f))
                                      * orZero (JSMap.get t gi))%float |})
                        x]))
    by (intros acc [t f]; reflexivity).
  rewrite fold_left_push. cbn [app].
  rewrite termFreq_entries, filter_of_map, map_map.
  unfold keywordTerms.
  rewrite (filter_ext_in _
             (fun t =>
                (2 <=? docFreq stemmer weighted t)
                && negb (falsyNumber (idfOf stemmer Math_log weighted t))))
    by (intros t _; subst gi; apply keeps_keyword).
  apply map_ext_in. intros t Ht. apply filter_In in Ht.
  destruct Ht as [Hin Hkeep]. apply andb_true_iff in Hkeep.
  destruct Hkeep as [Hdf Hf]. apply negb_true_iff in Hf.
  unfold keywordEntry. subst gi canonical.
  rewrite globalIdf_get, Hdf. destruct (orZero_truthy _ Hf) as [-> _].
  rewrite canonical_surface; [reflexivity|].
  intros ->. apply (proj1 (In_firstOccurrences _ _)) in Hin.
  unfold normalsOf in Hin. apply filter_In in Hin. now destruct Hin.
Qed.

Lemma In_keywordTerms (weighted : list Doc) (d : Analyzer.DocumentMetrics)
  (t : string) :
  In t (keywordTerms stemmer Math_log weighted d)
  <-> contains stemmer t (weightedDoc d) = true
      /\ 2 <= docFreq stemmer weighted t
      /\ falsyNumber (idfOf stemmer Math_log weighted t) = false.
Proof.
  unfold keywordTerms, contains.
  rewrite filter_In, In_firstOccurrences, existsb_eqb_In, andb_true_iff,
    Nat.leb_le, negb_true_iff.
  tauto.
Qed.

End KeywordFacts.

(** X13. [duplicateTitles] lists a title exactly when it is non-empty and
    at least two documents have it, each such title once, with the files of
    those documents in corpus order. *)
Theorem duplicateTitles_spec (documents : list Analyzer.DocumentMetrics) :
  (forall t files,
     In (t, files) (GenerateReport.duplicateTitles documents)
     <-> t <> EmptyString
         /\ files = GenerateReport.filesTitled t documents
         /\ 2 <= List.length files)
  /\ NoDup (map fst (GenerateReport.duplicateTitles documents)).
Proof.
  pose proof (titleMap_NoDup documents) as Hnd.
  split.
  - intros t files. unfold GenerateReport.duplicateTitles.
    rewrite filter_In. split.
    + intros [Hin Hlen]. apply Nat.ltb_lt in Hlen.
      apply (In_get_Some _ _ _ Hnd) in Hin. rewrite titleMap_get in Hin.
      destruct (truthy t) eqn:Ht; [|discriminate]. cbn [andb] in Hin.
      destruct (negb _); [|discriminate]. injection Hin as <-.
      repeat split; [now destruct t | lia].
    + intros [Ht [-> Hlen]]. split; [|apply Nat.ltb_lt; lia].
      apply get_Some_In. rewrite titleMap_get.
      destruct t; [congruence|]. cbn [truthy andb].
      destruct (List.length _ =? 0) eqn:E; [|reflexivity].
      apply Nat.eqb_eq in E. lia.
  - now apply NoDup_keys_filter.
Qed.

(** X14. The vocabulary holds every token of every document once, so
    [vocabularySize] is the number of distinct tokens of the corpus. *)
Theorem vocabularySize_distinct_tokens (documents : list Analyzer.DocumentMetrics) :
  NoDup (GenerateReport.vocab documents)
  /\ (forall w, In w (GenerateReport.vocab documents)
                <-> exists d, In d documents /\ In w (Analyzer.tokens d))
  /\ GenerateReport.vocabularySize documents
     = List.length (nodup string_dec (flat_map Analyzer.tokens documents)).
Proof.
  unfold GenerateReport.vocabularySize. rewrite vocab_setOf.
  destruct (setOf_from (flat_map Analyzer.tokens documents) [] (NoDup_nil _))
    as [Hnd Hin].
  fold (JSMap.setOf (flat_map Analyzer.tokens documents)) in Hnd, Hin.
  split; [exact Hnd | split].
  - intros w. rewrite Hin, in_flat_map. cbn [In]. tauto.
  - apply Permutation_length. apply NoDup_Permutation.
    + exact Hnd.
    + apply NoDup_nodup.
    + intros w. rewrite Hin, nodup_In. cbn [In]. tauto.
Qed.

(** X15. The keywords of a document are the first 12, by the comparator
    [b.tfidf - a.tfidf], of one entry per normalized term of its weighted
    terms that at least two documents contain and whose inverse document
    frequency is neither zero nor NaN, the terms taken once each in the order
    of their first occurrence. The entry shows the canonical form of the term
    and scores [(1 + ln f) * (ln((N + 1) / (df + 1)) + 1)], the term's share
    of its corpus score; every such term is also scored by the corpus-level
    [computeTfidfEnhanced] call. No score being NaN, the keywords are in
    descending order of score. A corpus of at most one document gives no
    keywords. *)
Theorem topKeywords_spec
  (stemmer : string -> option string) (Math_log : float -> float)
  (documents : list Analyzer.DocumentMetrics) (d : Analyzer.DocumentMetrics) :
  let weighted := GenerateReport.weightedUnigrams documents in
  let entries :=
    GenerateReport.scored stemmer Math_log
      (GenerateReport.globalIdf stemmer Math_log weighted)
      (canonicalizeCorpus stemmer weighted) d in
  GenerateReport.topKeywords stemmer Math_log documents d
  = firstn 12
      (JSSort.sort byScoreDescending
         (map (keywordEntry stemmer Math_log weighted d)
              (keywordTerms stemmer Math_log weighted d)))
  /\ entries
     = map (keywordEntry stemmer Math_log weighted d)
           (keywordTerms stemmer Math_log weighted d)
  /\ NoDup (keywordTerms stemmer Math_log weighted d)
  /\ (forall t,
        In t (keywordTerms stemmer Math_log weighted d)
        <-> contains stemmer t (weightedDoc d) = true
            /\ 2 <= docFreq stemmer weighted t
            /\ GenerateReport.falsyNumber
                 (GenerateReport.idfOf stemmer Math_log weighted t) = false)
  /\ List.length (GenerateReport.topKeywords stemmer Math_log documents d)
     = Nat.min 12 (List.length (keywordTerms stemmer Math_log weighted d))
  /\ (forall e,
        In e entries
        <-> exists t,
              contains stemmer t (weightedDoc d) = true
              /\ 2 <= docFreq stemmer weighted t
              /\ GenerateReport.falsyNumber
                   (GenerateReport.idfOf stemmer Math_log weighted t) = false
              /\ e = {| term := canonicalForm
                                  (snd (indexCorpus stemmer weighted)) t;
                        tfidf := contribution stemmer Math_log weighted t
                                   (weightedDoc d) |})
  /\ (forall e,
        In e (GenerateReport.topKeywords stemmer Math_log documents d) ->
        In e entries
        /\ exists t s,
             In (t, s) (scoreCorpus stemmer Math_log 2 weighted)
             /\ term e = canonicalForm (snd (indexCorpus stemmer weighted)) t)
  /\ List.length (GenerateReport.topKeywords stemmer Math_log documents d) <= 12
  /\ ((forall e, In e entries -> FloatOrder.isNaN (tfidf e) = false) ->
      StronglySorted (fun a b => (tfidf b <=? tfidf a)%float = true)
        (GenerateReport.topKeywords stemmer Math_log documents d))
  /\ (List.length documents <= 1 ->
      GenerateReport.topKeywords stemmer Math_log documents d = []).
Proof.
  intros weighted entries.
  assert (entries
          = map (keywordEntry stemmer Math_log weighted d)
                (keywordTerms stemmer Math_log weighted d)) as Hentries
      by apply scored_list.
  assert (GenerateReport.topKeywords stemmer Math_log documents d
          = firstn 12 (JSSort.sort byScoreDescending entries)) as Htop
      by reflexivity.
  split; [now rewrite Htop, Hentries|].
  split; [exact Hentries|].
  split; [apply NoDup_filter, NoDup_firstOccurrences|].
  split; [intros t; apply In_keywordTerms|].
  split; [now rewrite Htop, length_firstn, sort_length, Hentries, length_map|].
  split; [intros e; apply scored_entries|].
  split; [|split; [|split]].
  - intros e He. rewrite Htop in He.
    apply firstn_In, sort_In in He. split; [exact He|].
    apply scored_entries in He. destruct He as [t [Hc [Hdf [_ ->]]]].
    destruct (summedScore_occurs stemmer Math_log weighted t) as [s Hs]; [lia|].
    exists t, s. split; [|reflexivity]. now apply scored_term.
  - rewrite Htop, length_firstn. lia.
  - intros Hnan. rewrite Htop.
    apply firstn_sorted. now apply sort_byScore_sorted.
  - intros Hlen. rewrite Htop.
    assert (entries = []) as ->; [|reflexivity].
    destruct entries as [|e es] eqn:E; [reflexivity|].
    assert (In e (e :: es)) as He by now left.
    rewrite <- E in He. apply scored_entries in He.
    destruct He as [t [_ [Hdf _]]].
    pose proof (docFreq_le stemmer weighted t) as Hle.
    assert (List.length weighted = List.length documents) as Hw
        by apply length_map.
    lia.
Qed.

Definition fruit_document (text : string) : Analyzer.DocumentMetrics :=
  Analyzer.analyzeFile
    {| Analyzer.ex_filePath := "/site/src/content/notes/fruit.md";
       Analyzer.ex_ext := ".md";
       Analyzer.ex_htmlTitle := None;
       Analyzer.ex_htmlDescription := None;
       Analyzer.ex_fmTitle := None;
       Analyzer.ex_fmDescription := None;
       Analyzer.ex_headings :=
         {| Analyzer.h1 := []; Analyzer.h2 := []; Analyzer.h3 := [] |};
       Analyzer.ex_jsonName := None;
       Analyzer.ex_text := text |}.

Definition fruit_documents : list Analyzer.DocumentMetrics :=
  map fruit_document
    ["apple apple banana"; "apple cherry cherry"; "banana banana banana"]%string.

Example topKeywords_fruit :
  map weightedDoc fruit_documents
  = map (fun d => {| id := "/site/src/content/notes/fruit.md"; terms := terms d |})
        fruit_corpus
  /\ map term
       (GenerateReport.topKeywords stemmer_excerpt log_series fruit_documents
          (fruit_document "apple apple banana"))
     = ["apple"; "banana"]%string
  /\ map term
       (GenerateReport.topKeywords stemmer_excerpt log_series fruit_documents
          (fruit_document "apple cherry cherry"))
     = ["apple"%string]
  /\ keywordTerms stemmer_excerpt log_series
       (GenerateReport.weightedUnigrams fruit_documents)
       (fruit_document "banana banana banana")
     = ["banana"%string].
Proof. vm_compute. repeat split. Qed.

(** X30. The three top lists of the summary hold at most 40 unigrams,
    30 bigrams and 20 trigrams, each list a list of scored terms of its
    weighted corpus that at least two documents contain; with fewer than
    two documents all three are empty. *)
Theorem summary_top_lists
  (stemmer : string -> option string) (Math_log : float -> float)
  (documents : list Analyzer.DocumentMetrics) :
  List.length (GenerateReport.topUnigrams stemmer Math_log documents) <= 40
  /\ List.length (GenerateReport.topBigrams stemmer Math_log documents) <= 30
  /\ List.length (GenerateReport.topTrigrams stemmer Math_log documents) <= 20
  /\ (forall e,
        In e (GenerateReport.topUnigrams stemmer Math_log documents) ->
        exists t s,
          2 <= docFreq stemmer (GenerateReport.weightedUnigrams documents) t
          /\ summedScore stemmer Math_log
               (GenerateReport.weightedUnigrams documents) t = Some s
          /\ e = {| term := canonicalForm
                              (snd (indexCorpus stemmer
                                      (GenerateReport.weightedUnigrams documents)))
                              t;
                    tfidf := s |})
  /\ (List.length documents < 2 ->
      GenerateReport.topUnigrams stemmer Math_log documents = []
      /\ GenerateReport.topBigrams stemmer Math_log documents = []
      /\ GenerateReport.topTrigrams stemmer Math_log documents = []).
Proof.
  unfold GenerateReport.topUnigrams, GenerateReport.topBigrams,
    GenerateReport.topTrigrams, computeTfidfEnhanced. cbn zeta.
  split; [|split; [|split; [|split]]].
  - rewrite length_firstn. lia.
  - rewrite length_firstn. lia.
  - rewrite length_firstn. lia.
  - intros e He. apply firstn_In, sort_In in He. unfold scoredTerms in He.
    apply in_map_iff in He. destruct He as [[t s] [<- Hin]].
    apply scored_term in Hin. destruct Hin as [Hdf Hs].
    exists t, s. now repeat split.
  - intros Hlen. unfold scoredTerms. cbn [effectiveMinDocFreq minDocFreq].
    rewrite !scoreCorpus_above;
      [now repeat split | | |];
      unfold GenerateReport.weightedNgrams, GenerateReport.weightedUnigrams;
      now rewrite length_map.
Qed.

(** * Front matter: [stripFrontmatter] and [readFrontmatterBlock] *)

Module Frontmatter.

Definition LF : ascii := ascii_of_nat 10.
Definition CR : ascii := ascii_of_nat 13.
Definition doubleQuote : ascii := ascii_of_nat 34.
Definition singleQuote : ascii := ascii_of_nat 39.

(** [s.slice(n)] and [s.slice(0, n)] for a count [n]. *)
Fixpoint sdrop (n : nat) (s : string) : string :=
  match n with
  | O => s
  | S n' =>
      match s with
      | EmptyString => EmptyString
      | String _ s' => sdrop n' s'
      end
  end.

Fixpoint stake (n : nat) (s : string) : string :=
  match n with
  | O => EmptyString
  | S n' =>
      match s with
      | EmptyString => EmptyString
      | String c s' => String c (stake n' s')
      end
  end.

(** [s.slice(from, to)] for two counts: empty when [to <= from]. *)
Definition slice (from to : nat) (s : string) : string :=
  stake (to - from) (sdrop from s).

(** [s.indexOf(pat, from)]: the first index at or after [from] where
    [pat] starts, [None] for -1. [indexOf_at] scans the rest of the string
    that starts at index [i]. *)
Fixpoint indexOf_at (pat s : string) (i : nat) : option nat :=
  if String.prefix pat s then Some i
  else
    match s with
    | EmptyString => None
    | String _ s' => indexOf_at pat s' (S i)
    end.

Definition indexOf (pat s : string) (from : nat) : option nat :=
  indexOf_at pat (sdrop from s) from.

Definition fence : string := "---".

(** A line feed and three hyphens. *)
Definition closingFence : string := String LF fence.

Definition stripFrontmatter (input : string) : string :=
  if startsWith fence input then
    match indexOf closingFence input 3 with
    | Some e => sdrop (e + 4) input
    | None => input
    end
  else input.

Definition readFrontmatterBlock (input : string) : option string :=
  if negb (startsWith fence input) then None
  else
    match indexOf closingFence input 3 with
    | None => None
    | Some e => Some (trim (slice 3 e input))
    end.

End Frontmatter.

Section FrontmatterFacts.

Import Frontmatter.

Lemma stake_sdrop (n : nat) (s : string) : (stake n s ++ sdrop n s)%string = s.
Proof.
  revert s. induction n as [|n IH]; intros s; [reflexivity|].
  destruct s as [|c s]; [reflexivity|]. cbn. now rewrite IH.
Qed.

Lemma sdrop_sdrop (a b : nat) (s : string) : sdrop a (sdrop b s) = sdrop (b + a) s.
Proof.
  revert s. induction b as [|b IH]; intros s; [reflexivity|].
  destruct s as [|c s]; cbn [sdrop Nat.add].
  - now destruct a.
  - apply IH.
Qed.

Lemma sdrop_app (a b : string) : sdrop (String.length a) (a ++ b) = b.
Proof. induction a as [|c a IH]; [reflexivity | exact IH]. Qed.

Lemma stake_app (a b : string) : stake (String.length a) (a ++ b) = a.
Proof. induction a as [|c a IH]; [reflexivity | cbn; now rewrite IH]. Qed.

Lemma prefix_app (p s : string) : String.prefix p (p ++ s) = true.
Proof.
  induction p as [|c p IH]; cbn; [now destruct s|].
  destruct (Ascii.ascii_dec c c); [exact IH | congruence].
Qed.

Lemma prefix_split (p s : string) :
  String.prefix p s = true -> s = (p ++ sdrop (String.length p) s)%string.
Proof.
  revert s. induction p as [|c p IH]; intros s H; [reflexivity|].
  destruct s as [|a s]; cbn in H; [discriminate|].
  destruct (Ascii.ascii_dec c a) as [<- | _]; [|discriminate].
  cbn. f_equal. now apply IH.
Qed.

Lemma app_length_string (a b : string) :
  String.length (a ++ b) = String.length a + String.length b.
Proof. induction a as [|c a IH]; [reflexivity | cbn; now rewrite IH]. Qed.

Lemma stake_length_le (n : nat) (s : string) : String.length (stake n s) <= n.
Proof.
  revert s. induction n as [|n IH]; intros s; [cbn; lia|].
  destruct s as [|c s]; cbn; [lia|]. specialize (IH s). lia.
Qed.

(** [indexOf_at] finds the first place where the pattern starts. *)
Lemma indexOf_at_found (pat s : string) (i e : nat) :
  indexOf_at pat s i = Some e ->
  exists k, e = i + k /\ k <= String.length s
            /\ String.prefix pat (sdrop k s) = true
            /\ forall j, j < k -> String.prefix pat (sdrop j s) = false.
Proof.
  revert i. induction s as [|c s IH]; intros i H.
  - cbn [indexOf_at] in H.
    destruct (String.prefix pat EmptyString) eqn:E; [|discriminate].
    injection H as <-. exists 0. repeat split; [lia | lia | exact E | lia].
  - cbn [indexOf_at] in H.
    destruct (String.prefix pat (String c s)) eqn:E.
    + injection H as <-. exists 0. repeat split; [lia | cbn; lia | exact E | lia].
    + destruct (IH (S i) H) as [k [-> [Hk [Hp Hfirst]]]].
      exists (S k). repeat split; [lia | cbn; lia | exact Hp |].
      intros [|j] Hj; [exact E | apply Hfirst; lia].
Qed.

Lemma indexOf_at_first (pat s : string) (i k : nat) :
  k <= String.length s ->
  String.prefix pat (sdrop k s) = true ->
  (forall j, j < k -> String.prefix pat (sdrop j s) = false) ->
  indexOf_at pat s i = Some (i + k).
Proof.
  revert s i. induction k as [|k IH]; intros s i Hk Hp Hfirst.
  - cbn [sdrop] in Hp. destruct s; cbn [indexOf_at]; rewrite Hp; f_equal; lia.
  - destruct s as [|c s]; cbn in Hk; [lia|].
    cbn [indexOf_at]. pose proof (Hfirst 0 ltac:(lia)) as H0.
    cbn [sdrop] in H0. rewrite H0.
    rewrite (IH s (S i)); [f_equal; lia | lia | exact Hp |].
    intros j Hj. apply (Hfirst (S j)). lia.
Qed.

Lemma startsWith_fence (input : string) :
  startsWith fence input = true -> input = (fence ++ sdrop 3 input)%string.
Proof. intros H. apply (prefix_split fence input H). Qed.

(** What the two functions find in an input with a closing fence. *)
Lemma frontmatter_found (input : string) (e : nat) :
  startsWith fence input = true ->
  indexOf closingFence input 3 = Some e ->
  input = (fence ++ slice 3 e input ++ closingFence ++ sdrop (e + 4) input)%string
  /\ forall j, j < String.length (slice 3 e input) ->
       String.prefix closingFence
         (sdrop j (slice 3 e input ++ closingFence ++ sdrop (e + 4) input))
       = false.
Proof.
  intros Hs He. unfold indexOf in He.
  destruct (indexOf_at_found _ _ _ _ He) as [k [-> [Hk [Hp Hfirst]]]].
  unfold slice. replace (3 + k - 3) with k by lia.
  set (rest := sdrop 3 input) in *.
  assert (rest = (stake k rest ++ closingFence ++ sdrop (3 + k + 4) input)%string)
    as Hrest.
  { rewrite <- (stake_sdrop k rest) at 1. f_equal.
    rewrite (prefix_split _ _ Hp) at 1. f_equal.
    change (String.length closingFence) with 4. subst rest.
    rewrite !sdrop_sdrop. f_equal; lia. }
  split.
  - rewrite <- Hrest. now apply startsWith_fence.
  - rewrite <- Hrest. intros j Hj. apply Hfirst.
    pose proof (stake_length_le k rest). lia.
Qed.

Lemma readFrontmatterBlock_found (input block : string) :
  readFrontmatterBlock input = Some block ->
  exists raw,
    input = (fence ++ raw ++ closingFence ++ stripFrontmatter input)%string
    /\ block = trim raw
    /\ forall j, j < String.length raw ->
         String.prefix closingFence
           (sdrop j (raw ++ closingFence ++ stripFrontmatter input))
         = false.
Proof.
  unfold readFrontmatterBlock, stripFrontmatter.
  destruct (startsWith fence input) eqn:Hs; [|discriminate].
  cbn [negb].
  destruct (indexOf closingFence input 3) as [e|] eqn:He; [|discriminate].
  intros H. injection H as <-.
  destruct (frontmatter_found input e Hs He) as [Hin Hfirst].
  exists (slice 3 e input). now repeat split.
Qed.

End FrontmatterFacts.

(** X16. When [readFrontmatterBlock] returns a block, the input is the
    opening fence, a raw block, a line feed with three hyphens, and then
    exactly what [stripFrontmatter] returns; the block is the raw block
    trimmed, and no line feed with three hyphens starts inside the raw
    block. *)
Theorem readFrontmatterBlock_splits_input (input block : string) :
  Frontmatter.readFrontmatterBlock input = Some block ->
  exists raw,
    input = (Frontmatter.fence ++ raw ++ Frontmatter.closingFence
             ++ Frontmatter.stripFrontmatter input)%string
    /\ block = trim raw
    /\ forall j, j < String.length raw ->
         String.prefix Frontmatter.closingFence
           (Frontmatter.sdrop j
              (raw ++ Frontmatter.closingFence
               ++ Frontmatter.stripFrontmatter input))
         = false.
Proof. apply readFrontmatterBlock_found. Qed.

Definition post_source : string :=
  (Frontmatter.fence
   ++ String Frontmatter.LF "title: Caching strategies"
   ++ String Frontmatter.LF "description: How to cache"
   ++ Frontmatter.closingFence
   ++ String Frontmatter.LF "# Caching")%string.

Lemma readFrontmatterBlock_splits_input_witness :
  exists raw,
    post_source
    = (Frontmatter.fence ++ raw ++ Frontmatter.closingFence
       ++ Frontmatter.stripFrontmatter post_source)%string
    /\ ("title: Caching strategies"
        ++ String Frontmatter.LF "description: How to cache")%string
       = trim raw
    /\ forall j, j < String.length raw ->
         String.prefix Frontmatter.closingFence
           (Frontmatter.sdrop j
              (raw ++ Frontmatter.closingFence
               ++ Frontmatter.stripFrontmatter post_source))
         = false.
Proof.
  apply (readFrontmatterBlock_splits_input post_source). reflexivity.
Defined.

(** X17. [readFrontmatterBlock] finds no block exactly when
    [stripFrontmatter] returns its input unchanged; otherwise the stripped
    text is shorter than the input by at least the two fences. *)
Theorem stripFrontmatter_identity_iff_no_block (input : string) :
  (Frontmatter.readFrontmatterBlock input = None
   <-> Frontmatter.stripFrontmatter input = input)
  /\ (Frontmatter.readFrontmatterBlock input <> None ->
      String.length (Frontmatter.stripFrontmatter input) + 7
      <= String.length input).
Proof.
  assert (Frontmatter.readFrontmatterBlock input <> None ->
          String.length (Frontmatter.stripFrontmatter input) + 7
          <= String.length input) as Hshort.
  { intros H.
    destruct (Frontmatter.readFrontmatterBlock input) as [block|] eqn:E;
      [clear H | congruence].
    destruct (readFrontmatterBlock_found input block E) as [raw [Hin _]].
    rewrite Hin at 2. rewrite !app_length_string. cbn. lia. }
  split; [|exact Hshort]. split.
  - unfold Frontmatter.readFrontmatterBlock, Frontmatter.stripFrontmatter.
    destruct (startsWith Frontmatter.fence input); cbn [negb]; [|reflexivity].
    now destruct (Frontmatter.indexOf Frontmatter.closingFence input 3).
  - intros Hid.
    assert (~ Frontmatter.readFrontmatterBlock input <> None) as Hn.
    { intros Hn. apply Hshort in Hn. rewrite Hid in Hn. lia. }
    destruct (Frontmatter.readFrontmatterBlock input);
      [exfalso; apply Hn; discriminate | reflexivity].
Qed.

Section FrontmatterBuild.

Import Frontmatter.

Lemma frontmatter_built (raw body : string) :
  (forall j, j < String.length raw ->
     String.prefix closingFence (sdrop j (raw ++ closingFence ++ body)) = false) ->
  startsWith fence (fence ++ raw ++ closingFence ++ body) = true
  /\ indexOf closingFence (fence ++ raw ++ closingFence ++ body) 3
     = Some (3 + String.length raw).
Proof.
  intros Hfirst. split; [apply prefix_app|].
  unfold indexOf. change 3 with (String.length fence) at 1.
  rewrite sdrop_app. apply indexOf_at_first.
  - rewrite app_length_string. lia.
  - rewrite sdrop_app. apply prefix_app.
  - exact Hfirst.
Qed.

Lemma frontmatter_rebuilt (raw body : string) :
  (forall j, j < String.length raw ->
     String.prefix closingFence (sdrop j (raw ++ closingFence ++ body)) = false) ->
  readFrontmatterBlock (fence ++ raw ++ closingFence ++ body) = Some (trim raw)
  /\ stripFrontmatter (fence ++ raw ++ closingFence ++ body) = body.
Proof.
  intros Hfirst. destruct (frontmatter_built raw body Hfirst) as [Hs He].
  unfold readFrontmatterBlock, stripFrontmatter.
  rewrite Hs, He. cbn [negb]. split.
  - f_equal. f_equal. unfold slice.
    replace (3 + String.length raw - 3) with (String.length raw) by lia.
    change 3 with (String.length fence).
    rewrite sdrop_app. apply stake_app.
  - replace (3 + String.length raw + 4)
      with (String.length fence
            + (String.length raw + String.length closingFence))
      by (cbn; lia).
    rewrite <- !sdrop_sdrop. now rewrite !sdrop_app.
Qed.

End FrontmatterBuild.

(** X18. An input that is the opening fence, a raw block in which no
    line feed with three hyphens starts, a line feed with three hyphens and
    a body, is taken apart again: [readFrontmatterBlock] returns the raw
    block trimmed and [stripFrontmatter] returns the body, whatever follows
    the closing hyphens. *)
Theorem frontmatter_round_trip (raw body : string) :
  (forall j, j < String.length raw ->
     String.prefix Frontmatter.closingFence
       (Frontmatter.sdrop j (raw ++ Frontmatter.closingFence ++ body)) = false) ->
  Frontmatter.readFrontmatterBlock
    (Frontmatter.fence ++ raw ++ Frontmatter.closingFence ++ body)
  = Some (trim raw)
  /\ Frontmatter.stripFrontmatter
       (Frontmatter.fence ++ raw ++ Frontmatter.closingFence ++ body)
     = body.
Proof. apply frontmatter_rebuilt. Qed.

Lemma frontmatter_round_trip_witness :
  Frontmatter.readFrontmatterBlock
    (Frontmatter.fence ++ String Frontmatter.LF "draft: true"
     ++ Frontmatter.closingFence ++ "-- body")
  = Some "draft: true"
  /\ Frontmatter.stripFrontmatter
       (Frontmatter.fence ++ String Frontmatter.LF "draft: true"
        ++ Frontmatter.closingFence ++ "-- body")
     = "-- body".
Proof.
  apply (frontmatter_round_trip (String Frontmatter.LF "draft: true") "-- body").
  intros j Hj. cbn in Hj.
  do 12 (destruct j as [|j]; [reflexivity|]). lia.
Defined.

(** * [parseSimpleYaml] and [extractFrontmatterMeta] *)

Module Yaml.

Import Frontmatter.

(** [block.split(/\r?\n/)]: the pieces between line feeds, without the
    carriage return that stands right before a line feed. [cur] is the
    piece being read, reversed. *)
Fixpoint splitLines_from (cur : string) (s : string) : list string :=
  match s with
  | EmptyString => [srev cur]
  | String c s' =>
      if Ascii.eqb c LF then
        srev (match cur with
              | String r cur' => if Ascii.eqb r CR then cur' else cur
              | EmptyString => cur
              end)
        :: splitLines_from EmptyString s'
      else splitLines_from (String c cur) s'
  end.

Definition splitLines (s : string) : list string :=
  splitLines_from EmptyString s.

(** The longest prefix of characters of a class, and the rest: what a
    greedy [+] or [*] over the class takes when what follows it in the
    pattern cannot start with a character of the class. *)
Fixpoint span (p : ascii -> bool) (s : string) : string * string :=
  match s with
  | EmptyString => (EmptyString, EmptyString)
  | String c s' =>
      if p c then let (a, b) := span p s' in (String c a, b)
      else (EmptyString, s)
  end.

(** The class of the key: letters, digits, underscore and hyphen. *)
Definition isKeyChar (c : ascii) : bool :=
  isUpperAZ c || isLowerAZ c || isDigit c || (code c =? 95) || (code c =? 45).

(** The characters that the dot of a pattern does not match. *)
Definition isLineTerminator (c : ascii) : bool :=
  (code c =? 10) || (code c =? 13).

(** The pattern of [parseSimpleYaml] on one line: a key of one or more
    key characters at the start, white space, a colon, white space, and
    the rest of the line, which must hold no line terminator. The result is
    the pair of the two groups. *)
Definition matchYamlLine (line : string) : option (string * string) :=
  let (key, rest) := span isKeyChar line in
  if negb (truthy key) then None
  else
    let (_, rest) := span isSpace rest in
    match rest with
    | String c rest =>
        if Ascii.eqb c ":" then
          let (_, value) := span isSpace rest in
          if sexistsb isLineTerminator value then None else Some (key, value)
        else None
    | EmptyString => None
    end.

(** [v.slice(1, -1)] when [v] starts and ends with the same kind of
    quote. *)
Definition unquote (v : string) : string :=
  if (startsWith (String doubleQuote EmptyString) v
      && endsWith (String doubleQuote EmptyString) v)
     || (startsWith (String singleQuote EmptyString) v
         && endsWith (String singleQuote EmptyString) v)
  then slice 1 (String.length v - 1) v
  else v.

(** [out[k] = v] on an object literal, as the lookups of [title] and
    [description] see it: the assignment of a string to [__proto__] stores
    nothing. *)
Definition assign (k v : string) (out : JSMap.t string) : JSMap.t string :=
  if String.eqb k "__proto__" then out else JSMap.set k v out.

Definition parseSimpleYaml (block : string) : JSMap.t string :=
  fold_left
    (fun out line =>
       match matchYamlLine line with
       | None => out
       | Some (k, v0) => assign k (unquote (trim v0)) out
       end)
    (splitLines block) [].

Section Meta.

(** [extractMetaFromAstroSource], which reads the front matter of an
    .astro file with patterns of its own. *)
Variable extractMetaFromAstroSource : string -> option string * option string.

Definition extractFrontmatterMeta (raw ext : string)
  : option string * option string :=
  if String.eqb ext ".md" || String.eqb ext ".mdx" then
    match readFrontmatterBlock raw with
    | Some block =>
        if truthy block then
          let m := parseSimpleYaml block in
          (JSMap.get "title" m, JSMap.get "description" m)
        else (None, None)
    | None => (None, None)
    end
  else if String.eqb ext ".astro" then extractMetaFromAstroSource raw
  else (None, None).

End Meta.

(** The values that the lines of a block give to a key, in order. *)
Definition valuesOf (k : string) (lines : list string) : list string :=
  flat_map
    (fun line =>
       match matchYamlLine line with
       | Some (k', v0) => if String.eqb k' k then [unquote (trim v0)] else []
       | None => []
       end)
    lines.

Definition startsWithChar (p : ascii -> bool) (s : string) : bool :=
  match s with
  | String c _ => p c
  | EmptyString => false
  end.

End Yaml.

Example matchYamlLine_samples :
  Yaml.matchYamlLine "title: Hello" = Some ("title", "Hello")%string
  /\ Yaml.matchYamlLine "og-image :  /a.png " = Some ("og-image", "/a.png ")%string
  /\ Yaml.matchYamlLine " title: x" = None
  /\ Yaml.matchYamlLine "- item" = None
  /\ Yaml.matchYamlLine ": x" = None.
Proof. repeat split; reflexivity. Qed.

Example parseSimpleYaml_sample :
  Yaml.parseSimpleYaml
    ("title: 'Old'"
     ++ String Frontmatter.CR (String Frontmatter.LF "tags:")
     ++ String Frontmatter.LF "  - seo"
     ++ String Frontmatter.LF "__proto__: x"
     ++ String Frontmatter.LF "title:  New title ")
  = [("title", "New title"); ("tags", "")]%string.
Proof. reflexivity. Qed.

Section YamlFacts.

Import Frontmatter Yaml.

Lemma span_spec (p : ascii -> bool) (s a b : string) :
  span p s = (a, b) ->
  s = (a ++ b)%string /\ sforallb p a = true /\ startsWithChar p b = false.
Proof.
  revert a b. induction s as [|c s IH]; intros a b H; cbn [span] in H.
  - injection H as <- <-. now repeat split.
  - destruct (p c) eqn:Ep.
    + destruct (span p s) as [a' b'] eqn:E. injection H as <- <-.
      destruct (IH a' b' eq_refl) as [-> [Ha Hb]].
      repeat split; [| exact Hb]. cbn [sforallb]. now rewrite Ep, Ha.
    + injection H as <- <-. repeat split. exact Ep.
Qed.

Lemma span_app (p : ascii -> bool) (a b : string) :
  sforallb p a = true -> startsWithChar p b = false -> span p (a ++ b) = (a, b).
Proof.
  intros Ha Hb. induction a as [|c a IH].
  - destruct b as [|d b]; [reflexivity|]. cbn in Hb |- *. now rewrite Hb.
  - cbn [sforallb] in Ha. apply andb_true_iff in Ha. destruct Ha as [Hc Ha].
    cbn [append span]. now rewrite Hc, (IH Ha).
Qed.

Lemma isSpace_not_keyChar (c : ascii) : isSpace c = true -> isKeyChar c = false.
Proof. destruct c as [[] [] [] [] [] [] [] []]; vm_compute; congruence. Qed.

Lemma startsWithChar_app (p : ascii -> bool) (a b : string) :
  startsWithChar p (a ++ b)
  = match a with EmptyString => startsWithChar p b | String c _ => p c end.
Proof. now destruct a. Qed.

(** The pattern matches a line exactly when the line is a key, white
    space, a colon, white space and a value without line terminator; the
    groups are the key and the value, which does not start with white
    space. *)
Lemma matchYamlLine_iff (line key value : string) :
  matchYamlLine line = Some (key, value)
  <-> exists ws1 ws2,
        line = (key ++ ws1 ++ ":" ++ ws2 ++ value)%string
        /\ key <> EmptyString
        /\ sforallb isKeyChar key = true
        /\ sforallb isSpace ws1 = true
        /\ sforallb isSpace ws2 = true
        /\ startsWithChar isSpace value = false
        /\ sexistsb isLineTerminator value = false.
Proof.
  unfold matchYamlLine. split.
  - destruct (span isKeyChar line) as [k rest] eqn:Ek.
    destruct (truthy k) eqn:Hk; cbn [negb]; [|discriminate].
    destruct (span isSpace rest) as [ws1 rest1] eqn:E1.
    destruct rest1 as [|c rest2]; [discriminate|].
    destruct (Ascii.eqb_spec c ":"%char) as [-> | _]; [|discriminate].
    destruct (span isSpace rest2) as [ws2 v] eqn:E2.
    destruct (sexistsb isLineTerminator v) eqn:Ev; [discriminate|].
    intros H. injection H as <- <-.
    destruct (span_spec _ _ _ _ Ek) as [-> [Hkey _]].
    destruct (span_spec _ _ _ _ E1) as [-> [Hws1 _]].
    destruct (span_spec _ _ _ _ E2) as [-> [Hws2 Hv]].
    exists ws1, ws2. repeat split; try assumption. now destruct k.
  - intros [ws1 [ws2 [-> [Hne [Hkey [Hws1 [Hws2 [Hv Hterm]]]]]]]].
    rewrite (span_app isKeyChar key).
    + destruct key; [congruence|]. cbn [truthy negb].
      rewrite (span_app isSpace ws1); [|exact Hws1 | reflexivity].
      cbn [append]. rewrite Ascii.eqb_refl.
      rewrite (span_app isSpace ws2 value Hws2 Hv). now rewrite Hterm.
    + exact Hkey.
    + rewrite startsWithChar_app. destruct ws1 as [|c ws1]; [reflexivity|].
      cbn [sforallb] in Hws1. apply andb_true_iff in Hws1.
      now apply isSpace_not_keyChar.
Qed.

Lemma last_nonempty {X : Type} (l : list X) (d d' : X) :
  l <> [] -> last l d = last l d'.
Proof.
  induction l as [|x l IH]; intros H; [congruence|].
  destruct l as [|y l]; [reflexivity|]. cbn [last] in *. apply IH. discriminate.
Qed.

Lemma last_app_default {X : Type} (a b : list X) (d : X) :
  last (a ++ b) d = last b (last a d).
Proof.
  induction a as [|x a IH]; [reflexivity|].
  destruct a as [|y a].
  - cbn [app]. destruct b as [|z b]; [reflexivity|].
    change (last (x :: z :: b) d) with (last (z :: b) d).
    apply last_nonempty. discriminate.
  - change (last ((x :: y :: a) ++ b) d) with (last ((y :: a) ++ b) d).
    rewrite IH. reflexivity.
Qed.

Lemma parseSimpleYaml_from (lines : list string) (acc : JSMap.t string)
  (k : string) :
  JSMap.get k
    (fold_left
       (fun out line =>
          match matchYamlLine line with
          | None => out
          | Some (k, v0) => assign k (unquote (trim v0)) out
          end)
       lines acc)
  = if String.eqb k "__proto__" then JSMap.get k acc
    else last (map Some (valuesOf k lines)) (JSMap.get k acc).
Proof.
  revert acc. induction lines as [|line lines IH]; intros acc.
  - cbn. now destruct (String.eqb k "__proto__").
  - cbn [fold_left]. rewrite IH. clear IH.
    unfold valuesOf. cbn [flat_map]. fold (valuesOf k lines).
    rewrite map_app, last_app_default.
    destruct (matchYamlLine line) as [[k' v0]|];
      [|now destruct (String.eqb k "__proto__")].
    unfold assign.
    destruct (String.eqb_spec k' k) as [-> | Hne].
    + destruct (String.eqb k "__proto__"); [reflexivity|].
      now rewrite get_set_same.
    + destruct (String.eqb k' "__proto__");
        [now destruct (String.eqb k "__proto__")|].
      rewrite get_set_other by congruence.
      now destruct (String.eqb k "__proto__").
Qed.

End YamlFacts.


(** X20. In the object that [parseSimpleYaml] returns, a key holds, as
    a property of the object itself, the value of the last line that
    assigns it, trimmed and without its surrounding quotes, and is missing
    when no line assigns it; lines that the pattern does not match change
    nothing, and [__proto__] is never stored. *)
Theorem parseSimpleYaml_last_assignment_wins (block k : string) :
  JSMap.get k (Yaml.parseSimpleYaml block)
  = (if String.eqb k "__proto__" then None
     else last (map Some (Yaml.valuesOf k (Yaml.splitLines block))) None)
  /\ (forall line before after,
        Yaml.matchYamlLine line = None ->
        Yaml.valuesOf k (before ++ line :: after)
        = Yaml.valuesOf k (before ++ after)).
Proof.
  split.
  - unfold Yaml.parseSimpleYaml. rewrite parseSimpleYaml_from.
    now destruct (String.eqb k "__proto__").
  - intros line before after Hline. unfold Yaml.valuesOf.
    rewrite !flat_map_app. cbn [flat_map]. now rewrite Hline.
Qed.

(** A value as it is written after the colon: not empty, without white
    space at either end, and without line feed or carriage return. *)
Definition isWrittenValue (v : string) : bool :=
  truthy v && String.eqb (trim v) v && negb (sexistsb Yaml.isLineTerminator v).

Section MetaFacts.

Import Frontmatter Yaml.

Definition noFenceIn (a rest : string) : Prop :=
  forall j, j < String.length a ->
    String.prefix closingFence (sdrop j (a ++ rest)) = false.

Lemma append_assoc (a b c : string) : ((a ++ b) ++ c = a ++ (b ++ c))%string.
Proof. induction a as [|x a IH]; [reflexivity | cbn; now rewrite IH]. Qed.

Lemma noFence_app (a b rest : string) :
  noFenceIn a (b ++ rest) -> noFenceIn b rest -> noFenceIn (a ++ b) rest.
Proof.
  intros Ha Hb j Hj. rewrite app_length_string in Hj. rewrite append_assoc.
  destruct (Nat.lt_ge_cases j (String.length a)) as [Hlt | Hge].
  - now apply Ha.
  - replace j with (String.length a + (j - String.length a)) by lia.
    rewrite <- sdrop_sdrop, sdrop_app. apply Hb. lia.
Qed.

Lemma noFence_plain (v rest : string) :
  sexistsb isLineTerminator v = false -> noFenceIn v rest.
Proof.
  induction v as [|c v IH]; intros Hv j Hj; cbn in Hj; [lia|].
  cbn [sexistsb] in Hv. apply orb_false_iff in Hv. destruct Hv as [Hc Hv].
  destruct j as [|j].
  - cbn [sdrop append]. unfold closingFence. cbn [String.prefix].
    destruct (Ascii.ascii_dec LF c) as [<- | _]; [discriminate | reflexivity].
  - cbn [append sdrop]. apply (IH Hv). lia.
Qed.

Lemma sexistsb_app (p : ascii -> bool) (a b : string) :
  sexistsb p (a ++ b) = sexistsb p a || sexistsb p b.
Proof.
  induction a as [|c a IH]; [reflexivity|]. cbn. rewrite IH.
  now destruct (p c).
Qed.

Lemma trimEnd_app (a b : string) :
  b <> EmptyString -> trimEnd b = b -> trimEnd (a ++ b) = (a ++ b)%string.
Proof.
  intros Hb Ht. induction a as [|c a IH]; [exact Ht|].
  cbn [append trimEnd]. rewrite IH.
  destruct (a ++ b)%string eqn:E; [|reflexivity].
  destruct a; [cbn in E; congruence | discriminate].
Qed.

Lemma written_value (v : string) :
  isWrittenValue v = true ->
  v <> EmptyString /\ trim v = v /\ trimEnd v = v
  /\ startsWithChar isSpace v = false
  /\ sexistsb isLineTerminator v = false.
Proof.
  unfold isWrittenValue. intros H.
  apply andb_true_iff in H. destruct H as [H Hterm].
  apply andb_true_iff in H. destruct H as [Hne Htrim].
  apply String.eqb_eq in Htrim. apply negb_true_iff in Hterm.
  assert (startsClean v = true) as Hclean.
  { rewrite <- Htrim. unfold trim.
    apply trimEnd_startsClean, trimStart_startsClean. }
  assert (trimEnd v = v) as Hend.
  { unfold trim in Htrim. now rewrite (trimStart_fixed v Hclean) in Htrim. }
  repeat split; try assumption.
  - now destruct v.
  - destruct v as [|c v]; [discriminate|]. cbn in *.
    now apply negb_true_iff.
Qed.

Definition stripCR (cur : string) : string :=
  match cur with
  | String r cur' => if Ascii.eqb r CR then cur' else cur
  | EmptyString => cur
  end.

Lemma splitLines_from_line (s cur rest : string) :
  sexistsb isLineTerminator s = false ->
  splitLines_from cur (s ++ String LF rest)
  = srev (stripCR (srev_app s cur)) :: splitLines_from EmptyString rest.
Proof.
  revert cur. induction s as [|c s IH]; intros cur Hs.
  - cbn [append splitLines_from]. rewrite Ascii.eqb_refl. reflexivity.
  - cbn [sexistsb] in Hs. apply orb_false_iff in Hs. destruct Hs as [Hc Hs].
    cbn [append splitLines_from srev_app].
    destruct (Ascii.eqb_spec c LF) as [-> | _]; [discriminate|].
    now apply IH.
Qed.

Lemma splitLines_from_end (s cur : string) :
  sexistsb isLineTerminator s = false ->
  splitLines_from cur s = [srev (srev_app s cur)].
Proof.
  revert cur. induction s as [|c s IH]; intros cur Hs; [reflexivity|].
  cbn [sexistsb] in Hs. apply orb_false_iff in Hs. destruct Hs as [Hc Hs].
  cbn [splitLines_from srev_app].
  destruct (Ascii.eqb_spec c LF) as [-> | _]; [discriminate|].
  now apply IH.
Qed.

Lemma srev_app_twice (s cur acc : string) :
  srev_app (srev_app s cur) acc = srev_app cur (s ++ acc).
Proof.
  revert cur acc. induction s as [|c s IH]; intros cur acc; [reflexivity|].
  cbn [srev_app append]. now rewrite IH.
Qed.

Lemma srev_involutive (s : string) : srev (srev s) = s.
Proof.
  unfold srev. rewrite srev_app_twice. cbn [srev_app].
  induction s as [|c s IH]; [reflexivity | cbn; now rewrite IH].
Qed.

Lemma stripCR_plain (s : string) :
  sexistsb isLineTerminator s = false -> stripCR (srev s) = srev s.
Proof.
  intros Hs.
  assert (sforallb (fun c => negb (isLineTerminator c)) (srev s) = true) as H.
  { rewrite sforallb_srev. induction s as [|c s IH]; [reflexivity|].
    cbn [sexistsb sforallb] in *. apply orb_false_iff in Hs.
    destruct Hs as [-> Hs]. now rewrite IH. }
  destruct (srev s) as [|r t]; [reflexivity|]. cbn [stripCR].
  cbn [sforallb] in H. apply andb_true_iff in H. destruct H as [Hr _].
  destruct (Ascii.eqb_spec r CR) as [-> | _]; [discriminate | reflexivity].
Qed.

Lemma splitLines_two (a b : string) :
  sexistsb isLineTerminator a = false ->
  sexistsb isLineTerminator b = false ->
  splitLines (a ++ String LF b) = [a; b].
Proof.
  intros Ha Hb. unfold splitLines.
  rewrite (splitLines_from_line a EmptyString b Ha).
  fold (srev a). rewrite (stripCR_plain a Ha), srev_involutive.
  rewrite (splitLines_from_end b EmptyString Hb).
  fold (srev b). now rewrite srev_involutive.
Qed.

Lemma matchYamlLine_written (key v : string) :
  key <> EmptyString -> sforallb isKeyChar key = true ->
  isWrittenValue v = true ->
  matchYamlLine (key ++ ": " ++ v) = Some (key, v).
Proof.
  intros Hne Hkey Hv. destruct (written_value v Hv) as [_ [_ [_ [Hs Ht]]]].
  apply matchYamlLine_iff. exists EmptyString, " "%string.
  now repeat split.
Qed.

End MetaFacts.

Section MetaRoundTrip.

Import Frontmatter Yaml.

Lemma noFence_title (rest : string) : noFenceIn (String LF "title: ") rest.
Proof.
  intros j Hj. cbn in Hj.
  do 8 (destruct j as [|j]; [reflexivity|]). lia.
Qed.

Lemma noFence_description (rest : string) :
  noFenceIn (String LF "description: ") rest.
Proof.
  intros j Hj. cbn in Hj.
  do 14 (destruct j as [|j]; [reflexivity|]). lia.
Qed.

Lemma metadata_block (tv dv body : string) :
  isWrittenValue tv = true -> isWrittenValue dv = true ->
  readFrontmatterBlock
    (fence ++ String LF ("title: " ++ tv ++ String LF ("description: " ++ dv))
     ++ closingFence ++ body)
  = Some ("title: " ++ tv ++ String LF ("description: " ++ dv))%string.
Proof.
  intros Ht Hd.
  destruct (written_value tv Ht) as [_ [_ [_ [_ Htt]]]].
  destruct (written_value dv Hd) as [Hdne [_ [Hdend [_ Hdt]]]].
  set (raw := String LF ("title: " ++ tv ++ String LF ("description: " ++ dv))).
  assert (noFenceIn raw (closingFence ++ body)) as Hfirst.
  { change raw
      with (String LF "title: "
            ++ (tv ++ (String LF "description: " ++ dv)))%string.
    apply noFence_app; [apply noFence_title|].
    apply noFence_app; [now apply noFence_plain|].
    apply noFence_app; [apply noFence_description | now apply noFence_plain]. }
  destruct (frontmatter_rebuilt raw body Hfirst) as [-> _].
  f_equal. subst raw. unfold trim.
  change (trimStart (String LF ("title: " ++ tv ++ String LF ("description: " ++ dv))))
    with ("title: " ++ tv ++ String LF ("description: " ++ dv))%string.
  change ("title: " ++ tv ++ String LF ("description: " ++ dv))%string
    with ("title: " ++ (tv ++ (String LF "description: " ++ dv)))%string.
  rewrite <- !append_assoc. now apply trimEnd_app.
Qed.

Lemma metadata_parsed (tv dv : string) :
  isWrittenValue tv = true -> isWrittenValue dv = true ->
  parseSimpleYaml ("title: " ++ tv ++ String LF ("description: " ++ dv))
  = [("title"%string, unquote tv); ("description"%string, unquote dv)].
Proof.
  intros Ht Hd.
  destruct (written_value tv Ht) as [_ [Httrim [_ [_ Htt]]]].
  destruct (written_value dv Hd) as [_ [Hdtrim [_ [_ Hdt]]]].
  unfold parseSimpleYaml.
  change ("title: " ++ tv ++ String LF ("description: " ++ dv))%string
    with (("title: " ++ tv) ++ String LF ("description: " ++ dv))%string
    at 1.
  rewrite splitLines_two.
  - pose proof (matchYamlLine_written "title" tv
                  ltac:(discriminate) eq_refl Ht) as M1.
    pose proof (matchYamlLine_written "description" dv
                  ltac:(discriminate) eq_refl Hd) as M2.
    cbn [append] in M1, M2 |- *. cbn [fold_left].
    rewrite M1, M2, Httrim, Hdtrim. reflexivity.
  - now rewrite sexistsb_app, Htt.
  - now rewrite sexistsb_app, Hdt.
Qed.

Lemma metadata_extracted
  (extractMetaFromAstroSource : string -> option string * option string)
  (tv dv body ext : string) :
  isWrittenValue tv = true -> isWrittenValue dv = true ->
  ext = ".md"%string \/ ext = ".mdx"%string ->
  extractFrontmatterMeta extractMetaFromAstroSource
    (fence ++ String LF ("title: " ++ tv ++ String LF ("description: " ++ dv))
     ++ closingFence ++ body) ext
  = (Some (unquote tv), Some (unquote dv)).
Proof.
  intros Ht Hd Hext. unfold extractFrontmatterMeta.
  assert (String.eqb ext ".md" || String.eqb ext ".mdx" = true) as ->
      by (destruct Hext as [-> | ->]; reflexivity).
  rewrite (metadata_block tv dv body Ht Hd).
  rewrite (metadata_parsed tv dv Ht Hd). reflexivity.
Qed.

End MetaRoundTrip.

(** X21. For an .md or .mdx file whose front matter is a title line and
    a description line, each value written without white space around it
    and without line break, [extractFrontmatterMeta] returns the two values
    without their surrounding quotes, whatever the body of the file is. *)
Theorem extractFrontmatterMeta_reads_metadata
  (extractMetaFromAstroSource : string -> option string * option string)
  (tv dv body ext : string) :
  isWrittenValue tv = true -> isWrittenValue dv = true ->
  ext = ".md"%string \/ ext = ".mdx"%string ->
  Yaml.extractFrontmatterMeta extractMetaFromAstroSource
    (Frontmatter.fence
     ++ String Frontmatter.LF
          ("title: " ++ tv ++ String Frontmatter.LF ("description: " ++ dv))
     ++ Frontmatter.closingFence ++ body) ext
  = (Some (Yaml.unquote tv), Some (Yaml.unquote dv)).
Proof. apply metadata_extracted. Qed.

Lemma extractFrontmatterMeta_reads_metadata_witness :
  Yaml.extractFrontmatterMeta (fun _ => (None, None))
    (Frontmatter.fence
     ++ String Frontmatter.LF
          ("title: " ++ "'Caching strategies'"
           ++ String Frontmatter.LF ("description: " ++ "How to cache"))
     ++ Frontmatter.closingFence ++ String Frontmatter.LF "# Caching") ".mdx"
  = (Some "Caching strategies"%string, Some "How to cache"%string).
Proof.
  apply (extractFrontmatterMeta_reads_metadata (fun _ => (None, None))
           "'Caching strategies'" "How to cache"
           (String Frontmatter.LF "# Caching") ".mdx");
    [reflexivity | reflexivity | now right].
Defined.

(** * [extractMdHeadings] *)

Module MdHeadings.

Import Frontmatter Yaml.

Fixpoint hashes (n : nat) : string :=
  match n with
  | O => EmptyString
  | S n' => String "#" (hashes n')
  end.

(** The patterns of [extractMdHeadings] on one line, for one, two and
    three hash signs: white space, the hash signs, one or more white space
    characters, and one or more characters other than line terminators up to
    the end of the line. The white space after the hash signs is taken
    greedily; when it reaches the end of the line, the pattern gives its
    last character back to the group. The result is the group. *)
Definition matchHeading (level : nat) (line : string) : option string :=
  let (_, rest) := span isSpace line in
  if negb (startsWith (hashes level) rest) then None
  else
    let (ws, text) := span isSpace (sdrop level rest) in
    match text with
    | String _ _ =>
        if negb (truthy ws) || sexistsb isLineTerminator text then None
        else Some text
    | EmptyString =>
        match last_char ws with
        | Some c =>
            if (String.length ws <? 2) || isLineTerminator c then None
            else Some (String c EmptyString)
        | None => None
        end
    end.

Definition extractMdHeadings (md : string) : Analyzer.Headings :=
  fold_left
    (fun hs line =>
       match matchHeading 1 line with
       | Some m1 =>
           {| Analyzer.h1 := Analyzer.h1 hs ++ [trim m1];
              Analyzer.h2 := Analyzer.h2 hs;
              Analyzer.h3 := Analyzer.h3 hs |}
       | None =>
           match matchHeading 2 line with
           | Some m2 =>
               {| Analyzer.h1 := Analyzer.h1 hs;
                  Analyzer.h2 := Analyzer.h2 hs ++ [trim m2];
                  Analyzer.h3 := Analyzer.h3 hs |}
           | None =>
               match matchHeading 3 line with
               | Some m3 =>
                   {| Analyzer.h1 := Analyzer.h1 hs;
                      Analyzer.h2 := Analyzer.h2 hs;
                      Analyzer.h3 := Analyzer.h3 hs ++ [trim m3] |}
               | None => hs
               end
           end
       end)
    (splitLines md)
    {| Analyzer.h1 := []; Analyzer.h2 := []; Analyzer.h3 := [] |}.

(** The headings of one level among some lines, in order. *)
Definition headingsAt (level : nat) (lines : list string) : list string :=
  flat_map
    (fun line =>
       match matchHeading level line with
       | Some m => [trim m]
       | None => []
       end)
    lines.

End MdHeadings.

Example matchHeading_samples :
  MdHeadings.matchHeading 1 "# Title" = Some "Title"%string
  /\ MdHeadings.matchHeading 1 "## Title" = None
  /\ MdHeadings.matchHeading 2 "  ##   Two words " = Some "Two words "%string
  /\ MdHeadings.matchHeading 1 "#Title" = None
  /\ MdHeadings.matchHeading 1 "# " = None
  /\ MdHeadings.matchHeading 1 "#  " = Some " "%string
  /\ MdHeadings.matchHeading 3 "#### Deep" = None.
Proof. repeat split; reflexivity. Qed.

Example extractMdHeadings_sample :
  MdHeadings.extractMdHeadings
    ("# Caching"
     ++ String Frontmatter.LF "Some text # not a heading"
     ++ String Frontmatter.LF "## Keys "
     ++ String Frontmatter.CR (String Frontmatter.LF "### TTL")
     ++ String Frontmatter.LF "# Again")
  = {| Analyzer.h1 := ["Caching"; "Again"]%string;
       Analyzer.h2 := ["Keys"%string];
       Analyzer.h3 := ["TTL"%string] |}.
Proof. reflexivity. Qed.

Section MdHeadingFacts.

Import Frontmatter Yaml MdHeadings.

Lemma hashes_length (n : nat) : String.length (hashes n) = n.
Proof. induction n as [|n IH]; [reflexivity | cbn; now rewrite IH]. Qed.

Lemma append_nil_r (s : string) : (s ++ "")%string = s.
Proof. induction s as [|c s IH]; [reflexivity | cbn; now rewrite IH]. Qed.

Lemma sforallb_app (p : ascii -> bool) (a b : string) :
  sforallb p (a ++ b) = sforallb p a && sforallb p b.
Proof.
  induction a as [|c a IH]; [reflexivity|]. cbn. rewrite IH.
  now destruct (p c).
Qed.

Lemma last_char_split (s : string) (c : ascii) :
  last_char s = Some c -> exists s', s = (s' ++ String c EmptyString)%string.
Proof.
  induction s as [|a s IH]; [discriminate|].
  destruct s as [|b s].
  - intros H. injection H as <-. now exists EmptyString.
  - intros H. destruct (IH H) as [s' Hs]. exists (String a s').
    cbn [append]. now rewrite <- Hs.
Qed.




(** What a matched line looks like after its leading white space. *)
Lemma matchHeading_found (level : nat) (line t : string) :
  matchHeading level line = Some t ->
  exists ws0 ws,
    line = (ws0 ++ hashes level ++ ws ++ t)%string
    /\ sforallb isSpace ws0 = true
    /\ sforallb isSpace ws = true
    /\ ws <> EmptyString
    /\ t <> EmptyString
    /\ sexistsb isLineTerminator t = false.
Proof.
  unfold matchHeading.
  destruct (span isSpace line) as [ws0 rest] eqn:E0.
  destruct (span_spec _ _ _ _ E0) as [-> [Hws0 _]].
  destruct (startsWith (hashes level) rest) eqn:Hh; cbn [negb]; [|discriminate].
  apply prefix_split in Hh. rewrite hashes_length in Hh.
  destruct (span isSpace (sdrop level rest)) as [ws text] eqn:E1.
  destruct (span_spec _ _ _ _ E1) as [Hrest [Hws _]].
  rewrite Hrest in Hh. clear E0 E1 Hrest.
  destruct text as [|c text].
  - destruct (last_char ws) as [c|] eqn:El; [|discriminate].
    destruct (String.length ws <? 2) eqn:Hlen; cbn [orb]; [discriminate|].
    destruct (isLineTerminator c) eqn:Hc; [discriminate|].
    intros H. injection H as <-.
    destruct (last_char_split ws c El) as [ws' ->].
    rewrite sforallb_app in Hws. apply andb_true_iff in Hws.
    destruct Hws as [Hws' _].
    exists ws0, ws'. rewrite append_nil_r in Hh.
    repeat split; try assumption.
    + now rewrite Hh.
    + intros ->. cbn in Hlen. discriminate.
    + discriminate.
    + cbn. now rewrite Hc.
  - destruct (truthy ws) eqn:Hne; cbn [negb orb]; [|discriminate].
    destruct (sexistsb isLineTerminator (String c text)) eqn:Ht; [discriminate|].
    intros H. injection H as <-.
    exists ws0, ws. repeat split; try assumption.
    + now rewrite Hh.
    + intros ->. discriminate.
    + discriminate.
Qed.

Lemma matchHeading_front (n : nat) (ws0 x : string) :
  sforallb isSpace ws0 = true ->
  matchHeading (S n) (ws0 ++ hashes (S n) ++ x)
  = let (ws, text) := span isSpace x in
    match text with
    | String _ _ =>
        if negb (truthy ws) || sexistsb isLineTerminator text then None
        else Some text
    | EmptyString =>
        match last_char ws with
        | Some c =>
            if (String.length ws <? 2) || isLineTerminator c then None
            else Some (String c EmptyString)
        | None => None
        end
    end.
Proof.
  intros Hws0. unfold matchHeading.
  rewrite (span_app isSpace ws0 (hashes (S n) ++ x) Hws0 eq_refl).
  unfold startsWith. rewrite prefix_app. cbn [negb].
  replace (sdrop (S n) (hashes (S n) ++ x)) with x; [reflexivity|].
  rewrite <- (hashes_length (S n)) at 1. now rewrite sdrop_app.
Qed.


Lemma hashes_add (a b : nat) : hashes (a + b) = (hashes a ++ hashes b)%string.
Proof. induction a as [|a IH]; [reflexivity | cbn; now rewrite IH]. Qed.

Lemma prefix_more_hashes (a d : nat) (c : ascii) (y : string) :
  isSpace c = true ->
  String.prefix (hashes (a + S d)) (hashes a ++ String c y) = false.
Proof.
  intros Hc. induction a as [|a IH].
  - cbn [Nat.add hashes append String.prefix].
    destruct (Ascii.ascii_dec "#" c) as [<- | _]; [discriminate | reflexivity].
  - cbn [Nat.add hashes append String.prefix].
    destruct (Ascii.ascii_dec "#" "#"); [exact IH | reflexivity].
Qed.

(** A line is a heading of at most one level. *)
Lemma matchHeading_exclusive (a b : nat) (line t : string) :
  a <> b -> matchHeading (S a) line = Some t -> matchHeading (S b) line = None.
Proof.
  intros Hab H.
  destruct (matchHeading_found (S a) line t H)
    as [ws0 [ws [-> [Hws0 [Hws [Hne _]]]]]].
  destruct ws as [|c ws]; [congruence|]. clear Hne H.
  cbn [sforallb] in Hws. apply andb_true_iff in Hws. destruct Hws as [Hc _].
  destruct (Nat.lt_ge_cases b a) as [Hlt | Hge].
  - replace (S a) with (S b + S (a - S b)) by lia.
    rewrite hashes_add, append_assoc.
    rewrite (matchHeading_front b ws0 _ Hws0). reflexivity.
  - unfold matchHeading.
    rewrite (span_app isSpace ws0 (hashes (S a) ++ String c ws ++ t)
               Hws0 eq_refl).
    replace (S b) with (S a + S (b - S a)) by lia.
    unfold startsWith.
    change (String c ws ++ t)%string with (String c (ws ++ t)).
    now rewrite (prefix_more_hashes (S a) (b - S a) c (ws ++ t) Hc).
Qed.

Lemma extractMdHeadings_from (lines : list string) (hs : Analyzer.Headings) :
  fold_left
    (fun hs line =>
       match matchHeading 1 line with
       | Some m1 =>
           {| Analyzer.h1 := Analyzer.h1 hs ++ [trim m1];
              Analyzer.h2 := Analyzer.h2 hs;
              Analyzer.h3 := Analyzer.h3 hs |}
       | None =>
           match matchHeading 2 line with
           | Some m2 =>
               {| Analyzer.h1 := Analyzer.h1 hs;
                  Analyzer.h2 := Analyzer.h2 hs ++ [trim m2];
                  Analyzer.h3 := Analyzer.h3 hs |}
           | None =>
               match matchHeading 3 line with
               | Some m3 =>
                   {| Analyzer.h1 := Analyzer.h1 hs;
                      Analyzer.h2 := Analyzer.h2 hs;
                      Analyzer.h3 := Analyzer.h3 hs ++ [trim m3] |}
               | None => hs
               end
           end
       end)
    lines hs
  = {| Analyzer.h1 := Analyzer.h1 hs ++ headingsAt 1 lines;
       Analyzer.h2 := Analyzer.h2 hs ++ headingsAt 2 lines;
       Analyzer.h3 := Analyzer.h3 hs ++ headingsAt 3 lines |}.
Proof.
  revert hs. induction lines as [|line lines IH]; intros hs.
  - cbn. rewrite !app_nil_r. now destruct hs.
  - cbn [fold_left]. rewrite IH. clear IH.
    unfold headingsAt. cbn [flat_map].
    destruct (matchHeading 1 line) as [m1|] eqn:E1.
    + rewrite (matchHeading_exclusive 0 1 line m1), (matchHeading_exclusive 0 2 line m1)
        by (assumption || lia).
      cbn [Analyzer.h1 Analyzer.h2 Analyzer.h3 app]. now rewrite <- app_assoc.
    + destruct (matchHeading 2 line) as [m2|] eqn:E2.
      * rewrite (matchHeading_exclusive 1 2 line m2) by (assumption || lia).
        cbn [Analyzer.h1 Analyzer.h2 Analyzer.h3 app]. now rewrite <- app_assoc.
      * destruct (matchHeading 3 line) as [m3|] eqn:E3.
        -- cbn [Analyzer.h1 Analyzer.h2 Analyzer.h3 app]. now rewrite <- app_assoc.
        -- reflexivity.
Qed.

End MdHeadingFacts.


(** X23. Each of the three lists of [extractMdHeadings] holds, in the
    order of the lines, the trimmed headings of its own level; a line is
    a heading of at most one level, and a line with more than three hash
    signs is no heading. *)
Theorem extractMdHeadings_levels (md : string) :
  MdHeadings.extractMdHeadings md
  = {| Analyzer.h1 := MdHeadings.headingsAt 1 (Yaml.splitLines md);
       Analyzer.h2 := MdHeadings.headingsAt 2 (Yaml.splitLines md);
       Analyzer.h3 := MdHeadings.headingsAt 3 (Yaml.splitLines md) |}
  /\ (forall a b line m,
        a <> b ->
        MdHeadings.matchHeading (S a) line = Some m ->
        MdHeadings.matchHeading (S b) line = None)
  /\ (forall k extra ws0 rest,
        k < 3 -> sforallb isSpace ws0 = true ->
        MdHeadings.matchHeading (S k)
          (ws0 ++ MdHeadings.hashes (4 + extra) ++ rest) = None).
Proof.
  split; [|split].
  - unfold MdHeadings.extractMdHeadings. now rewrite extractMdHeadings_from.
  - apply matchHeading_exclusive.
  - intros k extra ws0 rest Hk Hws0.
    replace (4 + extra) with (S k + S (2 - k + extra)) by lia.
    rewrite hashes_add, append_assoc.
    rewrite (matchHeading_front k ws0 _ Hws0). reflexivity.
Qed.

(** * [guessRouteHint] *)

Module Route.

Import Frontmatter Yaml.

(** [s.split("/")]; [cur] is the piece being read, reversed. *)
Fixpoint splitSlash_from (cur : string) (s : string) : list string :=
  match s with
  | EmptyString => [srev cur]
  | String c s' =>
      if Ascii.eqb c "/" then srev cur :: splitSlash_from EmptyString s'
      else splitSlash_from (String c cur) s'
  end.

Definition splitSlash (s : string) : list string :=
  splitSlash_from EmptyString s.

(** [parts.join("/")]. *)
Fixpoint joinSlash (parts : list string) : string :=
  match parts with
  | [] => EmptyString
  | [p] => p
  | p :: parts' => (p ++ "/" ++ joinSlash parts')%string
  end.

(** [parts.indexOf(x)], [None] for -1. *)
Fixpoint indexOfPart (x : string) (parts : list string) : option nat :=
  match parts with
  | [] => None
  | p :: parts' =>
      if String.eqb p x then Some 0
      else match indexOfPart x parts' with
           | Some i => Some (S i)
           | None => None
           end
  end.

Definition notDot (c : ascii) : bool := negb (Ascii.eqb c ".").

(** [s.replace(/\.[^.]+$/, "")], and with [withIndex] the pattern
    [(index)?\.[^.]+$]: the match is the last dot of [s] with the one or
    more characters after it, and the word index right before that dot when
    it stands there. The string is read from its end. *)
Definition stripExtension (withIndex : bool) (s : string) : string :=
  let (ext, rest) := span notDot (srev s) in
  match rest with
  | String _ stem =>
      if truthy ext then
        srev (if withIndex && startsWith "xedni" stem then sdrop 5 stem
              else stem)
      else s
  | EmptyString => s
  end.

(** [s.replace(/\/index$/, "")]. *)
Definition stripIndexSuffix (s : string) : string :=
  if endsWith "/index" s then stake (String.length s - 6) s else s.

Section RouteHint.

(** [path.relative(rootDir, filePath)] of the platform. *)
Variable path_relative : string -> string -> string.

Definition guessRouteHint (filePath rootDir : string) : string :=
  let rel := Analyzer.slashes (path_relative rootDir filePath) in
  let parts := splitSlash rel in
  match indexOfPart "pages" parts with
  | Some pagesIdx =>
      let after := joinSlash (skipn (pagesIdx + 1) parts) in
      if negb (truthy after) then "/"
      else
        let noExt := stripExtension true after in
        ("/" ++ stripIndexSuffix noExt)%string
  | None => ("/" ++ stripExtension false rel)%string
  end.

End RouteHint.

(** A path segment: a string without slash. *)
Definition isSegment (p : string) : bool :=
  sforallb (fun c => negb (Ascii.eqb c "/")) p.

End Route.

Example guessRouteHint_samples :
  let rel := fun (_ p : string) => p in
  Route.guessRouteHint rel "pages/index.astro" "" = "/"%string
  /\ Route.guessRouteHint rel "pages/blog/index.astro" "" = "/blog/"%string
  /\ Route.guessRouteHint rel "pages/blog/index" "" = "/blog"%string
  /\ Route.guessRouteHint rel "pages/about.astro" "" = "/about"%string
  /\ Route.guessRouteHint rel "pages/og/[type]-[slug].png.ts" ""
     = "/og/[type]-[slug].png"%string
  /\ Route.guessRouteHint rel "pages" "" = "/"%string
  /\ Route.guessRouteHint rel "content/writing/post.md" ""
     = "/content/writing/post"%string
  /\ Route.guessRouteHint rel "content/v1.0/post" "" = "/content/v1"%string
  /\ Route.guessRouteHint rel "content\notes.md" "" = "/content/notes"%string.
Proof. repeat split; reflexivity. Qed.

Section RouteFacts.

Import Frontmatter Yaml Route.

Lemma srev_app_spec (s acc : string) : srev_app s acc = (srev s ++ acc)%string.
Proof.
  unfold srev. revert acc. induction s as [|c s IH]; intros acc; [reflexivity|].
  cbn [srev_app]. rewrite (IH (String c acc)), (IH (String c EmptyString)).
  now rewrite append_assoc.
Qed.

Lemma srev_append (a b : string) : srev (a ++ b) = (srev b ++ srev a)%string.
Proof.
  induction a as [|c a IH].
  - cbn [append]. now rewrite append_nil_r.
  - change (srev (String c a ++ b))
      with (srev_app (a ++ b) (String c EmptyString)).
    change (srev (String c a)) with (srev_app a (String c EmptyString)).
    rewrite !srev_app_spec, IH. apply append_assoc.
Qed.

Lemma srev_length (s : string) : String.length (srev s) = String.length s.
Proof.
  induction s as [|c s IH]; [reflexivity|].
  change (String c s) with (String c EmptyString ++ s)%string.
  rewrite srev_append, !app_length_string, IH. cbn. lia.
Qed.

(** The extension pattern on a string with a last dot and an
    extension. *)
Lemma stripExtension_dot (withIndex : bool) (stem ext : string) :
  ext <> EmptyString -> sforallb notDot ext = true ->
  stripExtension withIndex (stem ++ "." ++ ext)
  = srev (if withIndex && startsWith "xedni" (srev stem)
          then sdrop 5 (srev stem) else srev stem).
Proof.
  intros Hne Hext. unfold stripExtension.
  rewrite srev_append, srev_append, append_assoc.
  change (srev ".") with "."%string.
  rewrite (span_app notDot (srev ext) ("." ++ srev stem)).
  - cbn [append]. destruct (srev ext) eqn:E; [|reflexivity].
    exfalso. apply Hne. apply (f_equal String.length) in E.
    rewrite srev_length in E. now destruct ext.
  - now rewrite sforallb_srev.
  - reflexivity.
Qed.

Lemma stripExtension_none (withIndex : bool) (s : string) :
  sforallb notDot s = true -> stripExtension withIndex s = s.
Proof.
  intros Hs. unfold stripExtension.
  rewrite <- (append_nil_r (srev s)).
  rewrite (span_app notDot (srev s) EmptyString); [reflexivity | | reflexivity].
  now rewrite sforallb_srev.
Qed.

Lemma stripExtension_trailing_dot (withIndex : bool) (s : string) :
  stripExtension withIndex (s ++ ".") = (s ++ ".")%string.
Proof.
  unfold stripExtension. rewrite srev_append. change (srev ".") with "."%string.
  reflexivity.
Qed.

Lemma splitSlash_from_segment (p cur rest : string) :
  isSegment p = true ->
  splitSlash_from cur (p ++ rest) = splitSlash_from (srev_app p cur) rest.
Proof.
  revert cur. induction p as [|c p IH]; intros cur Hp; [reflexivity|].
  unfold isSegment in Hp. cbn [sforallb] in Hp. apply andb_true_iff in Hp.
  destruct Hp as [Hc Hp]. apply negb_true_iff in Hc.
  cbn [append splitSlash_from srev_app]. rewrite Hc. now apply IH.
Qed.

Lemma splitSlash_joinSlash (p : string) (ps : list string) :
  Forall (fun p => isSegment p = true) (p :: ps) ->
  splitSlash (joinSlash (p :: ps)) = p :: ps.
Proof.
  revert p. induction ps as [|q ps IH]; intros p H.
  - inversion H as [|? ? Hp _]; subst. unfold splitSlash. cbn [joinSlash].
    rewrite <- (append_nil_r p) at 1.
    rewrite (splitSlash_from_segment p _ _ Hp). cbn [splitSlash_from].
    fold (srev p). now rewrite srev_involutive.
  - inversion H as [|? ? Hp Hps]; subst.
    change (joinSlash (p :: q :: ps))
      with (p ++ String "/" (joinSlash (q :: ps)))%string.
    unfold splitSlash. rewrite (splitSlash_from_segment p _ _ Hp).
    cbn [splitSlash_from Ascii.eqb Bool.eqb].
    fold (srev p). rewrite srev_involutive. f_equal.
    apply (IH q Hps).
Qed.

Lemma indexOfPart_first (x : string) (before after : list string) :
  ~ In x before ->
  indexOfPart x (before ++ x :: after) = Some (List.length before).
Proof.
  induction before as [|p before IH]; intros Hnot.
  - cbn. now rewrite String.eqb_refl.
  - cbn [app indexOfPart List.length].
    destruct (String.eqb_spec p x) as [-> | _]; [exfalso; apply Hnot; now left|].
    rewrite IH; [reflexivity|]. intros Hin. apply Hnot. now right.
Qed.

Lemma indexOfPart_none (x : string) (parts : list string) :
  ~ In x parts -> indexOfPart x parts = None.
Proof.
  induction parts as [|p parts IH]; intros Hnot; [reflexivity|].
  cbn [indexOfPart].
  destruct (String.eqb_spec p x) as [-> | _]; [exfalso; apply Hnot; now left|].
  rewrite IH; [reflexivity|]. intros Hin. apply Hnot. now right.
Qed.

Lemma skipn_after {X : Type} (before after : list X) (x : X) :
  skipn (List.length before + 1) (before ++ x :: after) = after.
Proof. induction before as [|p before IH]; [reflexivity | exact IH]. Qed.

End RouteFacts.

(** X24. The extension pattern removes, from a string with a last dot
    and one or more characters after it, that dot and what follows, and
    with the optional group also the word index right before the dot; a
    string without dot, or that ends in a dot, is left as it is. *)
Theorem stripExtension_spec (stem ext : string) :
  ext <> EmptyString -> sforallb Route.notDot ext = true ->
  Route.stripExtension false (stem ++ "." ++ ext) = stem
  /\ Route.stripExtension true (stem ++ "index" ++ "." ++ ext) = stem
  /\ (endsWith "index" stem = false ->
      Route.stripExtension true (stem ++ "." ++ ext) = stem)
  /\ (forall withIndex,
        Route.stripExtension withIndex (stem ++ ".") = (stem ++ ".")%string)
  /\ (forall withIndex,
        sforallb Route.notDot stem = true ->
        Route.stripExtension withIndex stem = stem).
Proof.
  intros Hne Hext. split; [|split; [|split; [|split]]].
  - rewrite (stripExtension_dot false stem ext Hne Hext). cbn [andb].
    apply srev_involutive.
  - rewrite <- append_assoc.
    rewrite (stripExtension_dot true (stem ++ "index") ext Hne Hext).
    rewrite srev_append. change (srev "index") with "xedni"%string.
    unfold startsWith. rewrite prefix_app. cbn [andb].
    change 5 with (String.length "xedni"). rewrite sdrop_app.
    apply srev_involutive.
  - intros Hidx. rewrite (stripExtension_dot true stem ext Hne Hext).
    unfold endsWith in Hidx. change (srev "index") with "xedni"%string in Hidx.
    unfold startsWith. rewrite Hidx. cbn [andb]. apply srev_involutive.
  - intros withIndex. apply stripExtension_trailing_dot.
  - intros withIndex. apply stripExtension_none.
Qed.

Lemma stripExtension_spec_witness :
  Route.stripExtension false ("content/v1.0/post" ++ "." ++ "md")
  = "content/v1.0/post"%string
  /\ Route.stripExtension true ("blog/" ++ "index" ++ "." ++ "astro")
     = "blog/"%string
  /\ (endsWith "index" "blog/" = false ->
      Route.stripExtension true ("blog/" ++ "." ++ "astro") = "blog/"%string)
  /\ (forall withIndex,
        Route.stripExtension withIndex ("blog/" ++ ".") = ("blog/" ++ ".")%string)
  /\ (forall withIndex,
        sforallb Route.notDot "blog/" = true ->
        Route.stripExtension withIndex "blog/" = "blog/"%string).
Proof.
  destruct (stripExtension_spec "content/v1.0/post" "md") as [H1 _];
    [discriminate | reflexivity |].
  destruct (stripExtension_spec "blog/" "astro") as [_ H2];
    [discriminate | reflexivity |].
  split; [exact H1 | exact H2].
Defined.

Section RouteHintFacts.

Import Frontmatter Yaml Route.

Variable path_relative : string -> string -> string.

Lemma prefix_app_left (p q s : string) :
  String.prefix (p ++ q) s = true -> String.prefix p s = true.
Proof.
  revert s. induction p as [|c p IH]; intros s H; [now destruct s|].
  destruct s as [|d s]; [discriminate|]. cbn [append String.prefix] in *.
  destruct (Ascii.ascii_dec c d); [now apply IH | discriminate].
Qed.

(** A slash-free pattern that starts a string whose first part is
    followed by a slash, or by nothing, starts that first part. *)
Lemma prefix_before_slash (p a rest : string) :
  isSegment p = true ->
  rest = EmptyString \/ (exists rest', rest = String "/" rest') ->
  String.prefix p (a ++ rest) = true -> String.prefix p a = true.
Proof.
  intros Hp Hrest. revert a. induction p as [|c p IH]; intros a H;
    [now destruct a|].
  unfold isSegment in Hp. cbn [sforallb] in Hp. apply andb_true_iff in Hp.
  destruct Hp as [Hc Hp]. apply negb_true_iff in Hc.
  destruct a as [|d a].
  - exfalso. cbn [append] in H.
    destruct Hrest as [-> | [rest' ->]]; [discriminate|].
    cbn [String.prefix] in H.
    destruct (Ascii.ascii_dec c "/") as [-> | _]; discriminate.
  - cbn [append String.prefix] in *.
    destruct (Ascii.ascii_dec c d); [now apply (IH Hp) | discriminate].
Qed.

Lemma joinSlash_snoc (dirs : list string) (file : string) :
  joinSlash (dirs ++ [file])
  = match dirs with
    | [] => file
    | _ => (joinSlash dirs ++ "/" ++ file)%string
    end.
Proof.
  induction dirs as [|d dirs IH]; [reflexivity|].
  destruct dirs as [|e dirs]; [reflexivity|].
  change (joinSlash ((d :: e :: dirs) ++ [file]))
    with (d ++ "/" ++ joinSlash ((e :: dirs) ++ [file]))%string.
  rewrite IH.
  change (joinSlash (d :: e :: dirs))
    with (d ++ "/" ++ joinSlash (e :: dirs))%string.
  now rewrite !append_assoc.
Qed.

(** The last part of a joined path, with what it adds in front. *)
Lemma joinSlash_last (dirs : list string) (file : string) :
  exists front,
    (forall name, joinSlash (dirs ++ [name]) = (front ++ name)%string)
    /\ (srev front = EmptyString \/ exists r, srev front = String "/" r).
Proof.
  destruct dirs as [|d dirs].
  - exists EmptyString. split; [reflexivity | now left].
  - exists (joinSlash (d :: dirs) ++ "/")%string. split.
    + intros name. rewrite joinSlash_snoc. now rewrite append_assoc.
    + right. rewrite srev_append. now exists (srev (joinSlash (d :: dirs))).
Qed.

Lemma endsWith_after_slash (p front name : string) :
  isSegment (srev p) = true ->
  srev front = EmptyString \/ (exists r, srev front = String "/" r) ->
  endsWith p name = false -> endsWith p (front ++ name) = false.
Proof.
  intros Hp Hfront Hname. unfold endsWith in *. rewrite srev_append.
  destruct (String.prefix (srev p) (srev name ++ srev front)) eqn:E;
    [|reflexivity].
  apply (prefix_before_slash _ _ _ Hp Hfront) in E. congruence.
Qed.

Lemma stripIndexSuffix_kept (front name : string) :
  srev front = EmptyString \/ (exists r, srev front = String "/" r) ->
  endsWith "index" name = false ->
  stripIndexSuffix (front ++ name) = (front ++ name)%string.
Proof.
  intros Hfront Hname. unfold stripIndexSuffix.
  assert (endsWith "/index" (front ++ name) = false) as ->; [|reflexivity].
  unfold endsWith in *. rewrite srev_append.
  change (srev "/index") with ("xedni" ++ "/")%string.
  change (srev "index") with "xedni"%string in Hname.
  destruct (String.prefix ("xedni" ++ "/") (srev name ++ srev front)) eqn:E;
    [|reflexivity].
  apply prefix_app_left in E.
  apply (prefix_before_slash "xedni" _ _ eq_refl Hfront) in E. congruence.
Qed.

Lemma route_in_pages (filePath rootDir : string) (before after : list string) :
  Analyzer.slashes (path_relative rootDir filePath)
  = joinSlash (before ++ "pages"%string :: after) ->
  Forall (fun p => isSegment p = true) (before ++ after) ->
  ~ In "pages"%string before ->
  guessRouteHint path_relative filePath rootDir
  = if negb (truthy (joinSlash after)) then "/"%string
    else ("/" ++ stripIndexSuffix (stripExtension true (joinSlash after)))%string.
Proof.
  intros Hrel Hseg Hnot. unfold guessRouteHint. cbn zeta. rewrite Hrel.
  assert (splitSlash (joinSlash (before ++ "pages"%string :: after))
          = before ++ "pages"%string :: after) as ->.
  { assert (Forall (fun p => isSegment p = true)
              (before ++ "pages"%string :: after)) as H.
    { apply Forall_app in Hseg. destruct Hseg as [Hb Ha].
      apply Forall_app. split; [exact Hb|]. now constructor. }
    destruct (before ++ "pages"%string :: after) as [|p ps] eqn:E.
    - destruct before; discriminate.
    - now apply splitSlash_joinSlash. }
  rewrite (indexOfPart_first _ before after Hnot).
  now rewrite skipn_after.
Qed.

Lemma route_page_file (dirs : list string) (name ext : string) :
  ext <> EmptyString -> sforallb notDot ext = true ->
  exists front,
    (forall n, joinSlash (dirs ++ [n]) = (front ++ n)%string)
    /\ (srev front = EmptyString \/ exists r, srev front = String "/" r)
    /\ truthy (joinSlash (dirs ++ [(name ++ "." ++ ext)%string])) = true
    /\ stripExtension true (joinSlash (dirs ++ [(name ++ "." ++ ext)%string]))
       = srev (if startsWith "xedni" (srev (front ++ name)%string)
               then sdrop 5 (srev (front ++ name)%string)
               else srev (front ++ name)%string).
Proof.
  intros Hne Hext. destruct (joinSlash_last dirs name) as [front [Hjoin Hfront]].
  exists front. split; [exact Hjoin | split; [exact Hfront | split]].
  - rewrite Hjoin. destruct front; [|reflexivity]. cbn [append].
    destruct name; reflexivity.
  - rewrite Hjoin, <- append_assoc.
    now rewrite (stripExtension_dot true (front ++ name) ext Hne Hext).
Qed.

End RouteHintFacts.

(** X25. For a file below a pages directory, the first part named pages
    of the relative path, with a file name that has an extension:
    the route is the path after pages without the extension when the
    name before the extension does not end in index; and when the name ends
    in index the word is removed as well, so that the index file of the
    pages directory itself has the route of a single slash and the index
    file of a subdirectory has a route that ends in a slash. *)
Theorem guessRouteHint_pages
  (path_relative : string -> string -> string)
  (filePath rootDir : string) (before dirs : list string) (name ext : string) :
  Analyzer.slashes (path_relative rootDir filePath)
  = Route.joinSlash
      (before ++ "pages"%string :: dirs ++ [(name ++ "." ++ ext)%string]) ->
  Forall (fun p => Route.isSegment p = true)
         (before ++ dirs ++ [(name ++ "." ++ ext)%string]) ->
  ~ In "pages"%string before ->
  ext <> EmptyString -> sforallb Route.notDot ext = true ->
  (endsWith "index" name = false ->
   Route.guessRouteHint path_relative filePath rootDir
   = ("/" ++ Route.joinSlash (dirs ++ [name]))%string)
  /\ (forall pre,
        name = (pre ++ "index")%string -> endsWith "index" pre = false ->
        Route.guessRouteHint path_relative filePath rootDir
        = ("/" ++ Route.joinSlash (dirs ++ [pre]))%string).
Proof.
  intros Hrel Hseg Hnot Hne Hext.
  rewrite (route_in_pages path_relative filePath rootDir before _ Hrel Hseg Hnot).
  destruct (route_page_file dirs name ext Hne Hext)
    as [front [Hjoin [Hfront [-> ->]]]].
  cbn [negb]. split.
  - intros Hidx.
    assert (startsWith "xedni" (srev (front ++ name)%string) = false) as ->
        by (apply (endsWith_after_slash "index" front name eq_refl Hfront Hidx)).
    rewrite srev_involutive, (stripIndexSuffix_kept front name Hfront Hidx).
    now rewrite Hjoin.
  - intros pre -> Hidx. rewrite <- append_assoc, srev_append.
    change (srev "index") with "xedni"%string.
    unfold startsWith. rewrite prefix_app.
    change 5 with (String.length "xedni"). rewrite sdrop_app, srev_involutive.
    rewrite (stripIndexSuffix_kept front pre Hfront Hidx).
    now rewrite Hjoin.
Qed.

Definition below_src (rootDir p : string) : string :=
  if String.eqb rootDir "/site/src" then Frontmatter.sdrop 10 p else p.

Lemma guessRouteHint_pages_witness :
  Route.guessRouteHint below_src "/site/src/pages/blog/index.astro" "/site/src"
  = "/blog/"%string
  /\ Route.guessRouteHint below_src "/site/src/pages/about.astro" "/site/src"
     = "/about"%string.
Proof.
  split.
  - apply (proj2 (guessRouteHint_pages below_src
                    "/site/src/pages/blog/index.astro" "/site/src"
                    [] ["blog"%string] "index" "astro" eq_refl
                    ltac:(repeat constructor) ltac:(intros [])
                    ltac:(discriminate) eq_refl)
                 EmptyString eq_refl eq_refl).
  - apply (proj1 (guessRouteHint_pages below_src
                    "/site/src/pages/about.astro" "/site/src"
                    [] [] "about" "astro" eq_refl
                    ltac:(repeat constructor) ltac:(intros [])
                    ltac:(discriminate) eq_refl)
                 eq_refl).
Defined.

Section ContentRouteFacts.

Import Frontmatter Yaml Route.

Variable path_relative : string -> string -> string.

Lemma route_outside_pages (filePath rootDir : string) (parts : list string) :
  Analyzer.slashes (path_relative rootDir filePath) = joinSlash parts ->
  parts <> [] ->
  Forall (fun p => isSegment p = true) parts ->
  ~ In "pages"%string parts ->
  guessRouteHint path_relative filePath rootDir
  = ("/" ++ stripExtension false (joinSlash parts))%string.
Proof.
  intros Hrel Hne Hseg Hnot. unfold guessRouteHint. cbn zeta. rewrite Hrel.
  destruct parts as [|p ps]; [congruence|].
  rewrite (splitSlash_joinSlash p ps Hseg).
  now rewrite (indexOfPart_none _ _ Hnot).
Qed.

End ContentRouteFacts.

(** X26. For a file whose relative path has no part named pages, the
    route is a slash and the relative path without the extension of the
    file; a path without any dot is kept whole. *)
Theorem guessRouteHint_content
  (path_relative : string -> string -> string)
  (filePath rootDir : string) (dirs : list string) (file : string) :
  Analyzer.slashes (path_relative rootDir filePath)
  = Route.joinSlash (dirs ++ [file]) ->
  Forall (fun p => Route.isSegment p = true) (dirs ++ [file]) ->
  ~ In "pages"%string (dirs ++ [file]) ->
  (forall name ext,
     file = (name ++ "." ++ ext)%string ->
     ext <> EmptyString -> sforallb Route.notDot ext = true ->
     Route.guessRouteHint path_relative filePath rootDir
     = ("/" ++ Route.joinSlash (dirs ++ [name]))%string)
  /\ (Forall (fun p => sforallb Route.notDot p = true) (dirs ++ [file]) ->
      Route.guessRouteHint path_relative filePath rootDir
      = ("/" ++ Route.joinSlash (dirs ++ [file]))%string).
Proof.
  intros Hrel Hseg Hnot.
  rewrite (route_outside_pages path_relative filePath rootDir (dirs ++ [file])
             Hrel ltac:(now destruct dirs) Hseg Hnot).
  split.
  - intros name ext -> Hne Hext.
    destruct (joinSlash_last dirs name) as [front [Hjoin _]].
    rewrite !Hjoin, <- append_assoc.
    rewrite (stripExtension_dot false (front ++ name) ext Hne Hext).
    cbn [andb]. now rewrite srev_involutive.
  - intros Hdots. f_equal. apply stripExtension_none.
    clear -Hdots. induction (dirs ++ [file]) as [|p ps IH]; [reflexivity|].
    inversion Hdots as [|? ? Hp Hps]; subst.
    destruct ps as [|q ps]; [exact Hp|].
    change (Route.joinSlash (p :: q :: ps))
      with (p ++ "/" ++ Route.joinSlash (q :: ps))%string.
    rewrite !sforallb_app, Hp, (IH Hps). reflexivity.
Qed.

Lemma guessRouteHint_content_witness :
  (forall name ext,
     "post.md"%string = (name ++ "." ++ ext)%string ->
     ext <> EmptyString -> sforallb Route.notDot ext = true ->
     Route.guessRouteHint below_src "/site/src/content/writing/post.md"
       "/site/src"
     = ("/" ++ Route.joinSlash (["content"; "writing"]%string ++ [name]))%string)
  /\ (Forall (fun p => sforallb Route.notDot p = true)
             (["content"; "writing"]%string ++ ["post.md"%string]) ->
      Route.guessRouteHint below_src "/site/src/content/writing/post.md"
        "/site/src"
      = ("/" ++ Route.joinSlash
                  (["content"; "writing"]%string ++ ["post.md"%string]))%string).
Proof.
  apply (guessRouteHint_content below_src "/site/src/content/writing/post.md"
           "/site/src" ["content"; "writing"]%string "post.md").
  - reflexivity.
  - repeat constructor.
  - intros [H | [H | [H | []]]]; discriminate.
Defined.

(** * [decodeHtmlEntities] *)

Module Entities.

Import Frontmatter.

(** The literal [pat] stands at the start of [s]. *)
Fixpoint matchesAt (pat s : string) : bool :=
  match pat with
  | EmptyString => true
  | String a pat' =>
      match s with
      | EmptyString => false
      | String b s' => Ascii.eqb a b && matchesAt pat' s'
      end
  end.

(** [s.replace(/pat/g, rep)] for a literal, non-empty pattern: the
    matches are taken from left to right and do not overlap. [skip] counts
    the characters of a match that are still to be passed over. *)
Fixpoint replaceAll_from (pat rep : string) (skip : nat) (s : string) : string :=
  match s with
  | EmptyString => EmptyString
  | String c s' =>
      match skip with
      | S k => replaceAll_from pat rep k s'
      | O =>
          if matchesAt pat s
          then (rep ++ replaceAll_from pat rep (String.length pat - 1) s')%string
          else String c (replaceAll_from pat rep 0 s')
      end
  end.

Definition replaceAll (pat rep s : string) : string :=
  replaceAll_from pat rep 0 s.

Definition decodeHtmlEntities (s : string) : string :=
  replaceAll "&#39;" (String singleQuote EmptyString)
    (replaceAll "&quot;" (String doubleQuote EmptyString)
       (replaceAll "&gt;" ">"
          (replaceAll "&lt;" "<"
             (replaceAll "&amp;" "&" s)))).

Definition notAmpersand (c : ascii) : bool := negb (Ascii.eqb c "&").

End Entities.

Example decodeHtmlEntities_sample :
  Entities.decodeHtmlEntities "Tom &amp; Jerry &lt;3 &#39;cheese&#39; &copy;"
  = ("Tom & Jerry <3 " ++ String Frontmatter.singleQuote "cheese"
     ++ String Frontmatter.singleQuote " &copy;")%string.
Proof. reflexivity. Qed.

Section EntityFacts.

Import Frontmatter Entities.

Lemma replaceAll_absent (c : ascii) (pat rep s : string) :
  sforallb (fun a => negb (Ascii.eqb a c)) s = true ->
  replaceAll (String c pat) rep s = s.
Proof.
  unfold replaceAll. induction s as [|a s IH]; [reflexivity|].
  cbn [sforallb]. intros H. apply andb_true_iff in H. destruct H as [Ha Hs].
  apply negb_true_iff in Ha. cbn [replaceAll_from matchesAt].
  rewrite Ascii.eqb_sym, Ha. cbn [andb]. now rewrite (IH Hs).
Qed.

Lemma matchesAt_length (p s : string) :
  matchesAt p s = true -> String.length p <= String.length s.
Proof.
  revert s. induction p as [|c p IH]; intros s H; [cbn; lia|].
  destruct s as [|a s]; [discriminate|]. cbn [matchesAt] in H.
  apply andb_true_iff in H. destruct H as [_ H].
  specialize (IH s H). cbn. lia.
Qed.

Lemma replaceAll_from_length (pat rep : string) (skip : nat) (s : string) :
  String.length rep <= String.length pat ->
  String.length (replaceAll_from pat rep skip s) + Nat.min skip (String.length s)
  <= String.length s.
Proof.
  intros Hrep. revert skip. induction s as [|c s IH]; intros skip.
  - cbn. lia.
  - destruct skip as [|k].
    + cbn [replaceAll_from].
      destruct (matchesAt pat (String c s)) eqn:E.
      * apply matchesAt_length in E. cbn [String.length] in E |- *.
        rewrite app_length_string.
        specialize (IH (String.length pat - 1)). lia.
      * specialize (IH 0). cbn [String.length]. lia.
    + cbn [replaceAll_from String.length]. specialize (IH k). lia.
Qed.

Lemma replaceAll_length (pat rep s : string) :
  String.length rep <= String.length pat ->
  String.length (replaceAll pat rep s) <= String.length s.
Proof.
  intros H. pose proof (replaceAll_from_length pat rep 0 s H). unfold replaceAll.
  lia.
Qed.

End EntityFacts.

(** X27. [decodeHtmlEntities] returns a text without ampersand
    unchanged and never returns a longer text. At the start of a text it
    turns each of the entities for the less-than sign, the greater-than
    sign, the double quote and the apostrophe into its character and goes
    on with the rest. Because the ampersand entity is replaced first, the
    escaped form of the less-than entity is decoded twice, down to the
    less-than sign. *)
Theorem decodeHtmlEntities_spec (s : string) :
  (sforallb Entities.notAmpersand s = true -> Entities.decodeHtmlEntities s = s)
  /\ String.length (Entities.decodeHtmlEntities s) <= String.length s
  /\ Entities.decodeHtmlEntities ("&lt;" ++ s)
     = ("<" ++ Entities.decodeHtmlEntities s)%string
  /\ Entities.decodeHtmlEntities ("&gt;" ++ s)
     = (">" ++ Entities.decodeHtmlEntities s)%string
  /\ Entities.decodeHtmlEntities ("&quot;" ++ s)
     = String Frontmatter.doubleQuote (Entities.decodeHtmlEntities s)
  /\ Entities.decodeHtmlEntities ("&#39;" ++ s)
     = String Frontmatter.singleQuote (Entities.decodeHtmlEntities s)
  /\ Entities.decodeHtmlEntities ("&amp;lt;" ++ s)
     = ("<" ++ Entities.decodeHtmlEntities s)%string.
Proof.
  split; [|split; [|repeat split; reflexivity]].
  - intros H. unfold Entities.decodeHtmlEntities.
    now rewrite !(replaceAll_absent "&" _ _ s H).
  - unfold Entities.decodeHtmlEntities.
    repeat (etransitivity; [apply replaceAll_length; cbn; lia|]).
    apply Nat.le_refl.
Qed.

(** * [parseArgs] *)

Module Cli.

Section Args.

(** [path.resolve(a, b)] and [process.cwd()] of the platform. *)
Variable path_resolve : string -> string -> string.
Variable cwd : string.

(** The loop of [parseArgs] over [args], with its two variables. A
    flag with a value skips its value; a missing or empty value makes the
    flag an ordinary argument. *)
Fixpoint scanArgs (args : list string) (rootDir : string)
  (outFile : option string) : string * option string :=
  match args with
  | [] => (rootDir, outFile)
  | arg :: rest =>
      match rest with
      | next :: rest' =>
          if String.eqb arg "--root" && truthy next
          then scanArgs rest' next outFile
          else if String.eqb arg "--out" && truthy next
          then scanArgs rest' rootDir (Some next)
          else if String.eqb arg "--stdout"
          then scanArgs rest rootDir None
          else scanArgs rest rootDir outFile
      | [] =>
          if String.eqb arg "--stdout" then (rootDir, None)
          else (rootDir, outFile)
      end
  end.

(** [args] is [process.argv.slice(2)]. *)
Definition parseArgs (args : list string) : string * option string :=
  let '(rootDir, outFile) := scanArgs args "./src" (Some "./seo-report.json") in
  (path_resolve cwd rootDir,
   match outFile with
   | Some o => if truthy o then Some (path_resolve cwd o) else None
   | None => None
   end).

End Args.

End Cli.

Example parseArgs_samples :
  let resolve := fun cwd p : string => (cwd ++ "/" ++ p)%string in
  Cli.parseArgs resolve "/site" [] = ("/site/./src", Some "/site/./seo-report.json")%string
  /\ Cli.parseArgs resolve "/site" ["--root"; "docs"; "--stdout"]%string
     = ("/site/docs"%string, None)
  /\ Cli.parseArgs resolve "/site" ["--stdout"; "--out"; "r.json"]%string
     = ("/site/./src", Some "/site/r.json")%string
  /\ Cli.parseArgs resolve "/site" ["--out"; "--stdout"]%string
     = ("/site/./src", Some "/site/--stdout")%string
  /\ Cli.parseArgs resolve "/site" ["--root"]%string
     = ("/site/./src", Some "/site/./seo-report.json")%string.
Proof. repeat split; reflexivity. Qed.

Section CliFacts.

Import Cli.

Lemma scanArgs_two (arg next : string) (rest : list string) (rootDir : string)
  (outFile : option string) :
  scanArgs (arg :: next :: rest) rootDir outFile
  = if String.eqb arg "--root" && truthy next
    then scanArgs rest next outFile
    else if String.eqb arg "--out" && truthy next
    then scanArgs rest rootDir (Some next)
    else if String.eqb arg "--stdout"
    then scanArgs (next :: rest) rootDir None
    else scanArgs (next :: rest) rootDir outFile.
Proof. reflexivity. Qed.

Lemma scanArgs_rootDir (args : list string) (rootDir : string)
  (outFile : option string) :
  ~ In "--root"%string args -> fst (scanArgs args rootDir outFile) = rootDir.
Proof.
  revert rootDir outFile.
  induction args as [args IH] using (well_founded_induction
                                       (Wf_nat.well_founded_ltof _ (@List.length string))).
  intros rootDir outFile Hnot. destruct args as [|arg [|next rest]].
  - reflexivity.
  - cbn. now destruct (String.eqb arg "--stdout").
  - rewrite scanArgs_two.
    destruct (String.eqb_spec arg "--root") as [-> | _];
      [exfalso; apply Hnot; now left|].
    cbn [andb].
    assert (~ In "--root"%string (next :: rest)) as Hrest
        by (intros H; apply Hnot; now right).
    assert (~ In "--root"%string rest) as Hrest'
        by (intros H; apply Hrest; now right).
    destruct (String.eqb arg "--out" && truthy next);
      [apply IH; [unfold ltof; cbn; lia | exact Hrest']|].
    destruct (String.eqb arg "--stdout");
      apply IH; try exact Hrest; unfold ltof; cbn; lia.
Qed.

Lemma scanArgs_outFile (args : list string) (rootDir : string)
  (outFile : option string) :
  (~ In "--stdout"%string args ->
   (exists o, outFile = Some o /\ truthy o = true) ->
   exists o, snd (scanArgs args rootDir outFile) = Some o /\ truthy o = true)
  /\ (~ In "--out"%string args ->
      snd (scanArgs args rootDir outFile) = outFile
      \/ snd (scanArgs args rootDir outFile) = None).
Proof.
  revert rootDir outFile.
  induction args as [args IH] using (well_founded_induction
                                       (Wf_nat.well_founded_ltof _ (@List.length string))).
  intros rootDir outFile. destruct args as [|arg [|next rest]].
  - split; [intros _ H; exact H | intros _; now left].
  - split.
    + intros Hnot H. cbn.
      destruct (String.eqb_spec arg "--stdout") as [-> | _];
        [exfalso; apply Hnot; now left | exact H].
    + intros _. cbn. destruct (String.eqb arg "--stdout"); [now right | now left].
  - assert (ltof _ (@List.length string) rest (arg :: next :: rest))
      as Hlt2 by (unfold ltof; cbn; lia).
    assert (ltof _ (@List.length string) (next :: rest) (arg :: next :: rest))
      as Hlt1 by (unfold ltof; cbn; lia).
    split.
    + intros Hnot H. rewrite scanArgs_two.
      assert (~ In "--stdout"%string (next :: rest)) as Hrest
          by (intros Hin; apply Hnot; now right).
      assert (~ In "--stdout"%string rest) as Hrest'
          by (intros Hin; apply Hrest; now right).
      destruct (String.eqb arg "--root" && truthy next);
        [now apply (IH rest Hlt2)|].
      destruct (String.eqb arg "--out" && truthy next) eqn:E.
      * apply (IH rest Hlt2); [exact Hrest'|].
        apply andb_true_iff in E. destruct E as [_ E]. now exists next.
      * destruct (String.eqb_spec arg "--stdout") as [-> | _];
          [exfalso; apply Hnot; now left|].
        now apply (IH (next :: rest) Hlt1).
    + intros Hnot. rewrite scanArgs_two.
      assert (~ In "--out"%string (next :: rest)) as Hrest
          by (intros Hin; apply Hnot; now right).
      assert (~ In "--out"%string rest) as Hrest'
          by (intros Hin; apply Hrest; now right).
      destruct (String.eqb arg "--root" && truthy next);
        [now apply (IH rest Hlt2)|].
      destruct (String.eqb_spec arg "--out") as [-> | _];
        [exfalso; apply Hnot; now left|].
      cbn [andb].
      destruct (String.eqb arg "--stdout").
      * right.
        destruct (proj2 (IH (next :: rest) Hlt1 rootDir None) Hrest) as [H | H];
          exact H.
      * now apply (IH (next :: rest) Hlt1).
Qed.

End CliFacts.

(** X28. Without the root flag among the arguments the root directory
    is the default; without the two output flags the report file is the
    default; without the flag for standard output there is always a report
    file; and without the flag for an output file the report file is the
    default or none. *)
Theorem parseArgs_defaults
  (path_resolve : string -> string -> string) (cwd : string)
  (args : list string) :
  (~ In "--root"%string args ->
   fst (Cli.parseArgs path_resolve cwd args) = path_resolve cwd "./src")
  /\ (~ In "--out"%string args -> ~ In "--stdout"%string args ->
      snd (Cli.parseArgs path_resolve cwd args)
      = Some (path_resolve cwd "./seo-report.json"))
  /\ (~ In "--stdout"%string args ->
      snd (Cli.parseArgs path_resolve cwd args) <> None)
  /\ (~ In "--out"%string args ->
      snd (Cli.parseArgs path_resolve cwd args)
      = Some (path_resolve cwd "./seo-report.json")
      \/ snd (Cli.parseArgs path_resolve cwd args) = None).
Proof.
  unfold Cli.parseArgs.
  pose proof (scanArgs_rootDir args "./src" (Some "./seo-report.json"%string))
    as Hroot.
  destruct (scanArgs_outFile args "./src" (Some "./seo-report.json"%string))
    as [Hfile Hout].
  destruct (Cli.scanArgs args "./src" (Some "./seo-report.json"%string))
    as [rootDir outFile].
  cbn [fst snd] in *.
  assert (~ In "--stdout"%string args ->
          exists o, outFile = Some o /\ truthy o = true) as Hsome.
  { intros Hnot. apply Hfile; [exact Hnot|]. now exists "./seo-report.json"%string. }
  split; [|split; [|split]].
  - intros Hnot. now rewrite (Hroot Hnot).
  - intros Hno Hns. destruct (Hsome Hns) as [o [-> Ho]].
    destruct (Hout Hno) as [H | H]; [|discriminate]. now injection H as ->.
  - intros Hns. destruct (Hsome Hns) as [o [-> Ho]]. rewrite Ho. discriminate.
  - intros Hno. destruct (Hout Hno) as [-> | ->]; [now left | now right].
Qed.

(** * From the front matter to the warnings *)

(** X29. A Markdown document whose front matter gives a title and a
    description, both non-empty, gets them as its title and description,
    has an H1, and gets none of the three missing-metadata warnings,
    whatever its text and its headings are. *)
Theorem analyzeFile_markdown_frontmatter
  (extractMetaFromAstroSource : string -> option string * option string)
  (ex : Analyzer.Extracted) (tv dv body : string) :
  Analyzer.ex_ext ex = ".md"%string \/ Analyzer.ex_ext ex = ".mdx"%string ->
  isWrittenValue tv = true -> isWrittenValue dv = true ->
  Yaml.unquote tv <> EmptyString -> Yaml.unquote dv <> EmptyString ->
  (Analyzer.ex_fmTitle ex, Analyzer.ex_fmDescription ex)
  = Yaml.extractFrontmatterMeta extractMetaFromAstroSource
      (Frontmatter.fence
       ++ String Frontmatter.LF
            ("title: " ++ tv ++ String Frontmatter.LF ("description: " ++ dv))
       ++ Frontmatter.closingFence ++ body)
      (Analyzer.ex_ext ex) ->
  Analyzer.title (Analyzer.analyzeFile ex) = Some (Yaml.unquote tv)
  /\ Analyzer.description (Analyzer.analyzeFile ex) = Some (Yaml.unquote dv)
  /\ Analyzer.h1 (Analyzer.headings (Analyzer.analyzeFile ex)) <> []
  /\ ~ In "Missing <title>"%string (Analyzer.warnings (Analyzer.analyzeFile ex))
  /\ ~ In "Missing meta description"%string
          (Analyzer.warnings (Analyzer.analyzeFile ex))
  /\ ~ In "Missing H1 heading"%string
          (Analyzer.warnings (Analyzer.analyzeFile ex)).
Proof.
  intros Hext Ht Hd Htne Hdne Hmeta.
  rewrite (metadata_extracted _ tv dv body _ Ht Hd Hext) in Hmeta.
  injection Hmeta as Hfmt Hfmd.
  assert (Analyzer.title (Analyzer.analyzeFile ex) = Some (Yaml.unquote tv)
          /\ Analyzer.description (Analyzer.analyzeFile ex)
             = Some (Yaml.unquote dv)) as [Htitle Hdesc].
  { cbn [Analyzer.title Analyzer.description Analyzer.analyzeFile].
    rewrite Hfmt, Hfmd. destruct Hext as [-> | ->]; now split. }
  assert (Analyzer.h1 (Analyzer.headings (Analyzer.analyzeFile ex)) <> [])
    as Hh1.
  { cbn [Analyzer.analyzeFile Analyzer.headings Analyzer.title] in *.
    rewrite Htitle. unfold Analyzer.backfillH1.
    destruct (Analyzer.h1 (Analyzer.ex_headings ex)) as [|h hs] eqn:E.
    - cbn [List.length Nat.eqb andb Analyzer.present].
      destruct (Yaml.unquote tv); [congruence|]. cbn. discriminate.
    - cbn [List.length Nat.eqb andb]. rewrite E. discriminate. }
  assert (forall msg,
            In msg (Analyzer.warnings (Analyzer.analyzeFile ex)) ->
            exists n, msg = Analyzer.descriptionLengthMessage n
                      \/ msg = Analyzer.titleLengthMessage n) as Hlen.
  { intros msg Hin.
    cbn [Analyzer.warnings Analyzer.analyzeFile] in Hin.
    cbn [Analyzer.analyzeFile Analyzer.headings Analyzer.title
         Analyzer.description] in Htitle, Hdesc, Hh1.
    rewrite collectWarnings_slots, Htitle, Hdesc in Hin.
    rewrite Htitle in Hh1.
    unfold Analyzer.slot in Hin. cbn [Analyzer.present] in Hin.
    assert (truthy (Yaml.unquote tv) = true) as Et
        by (destruct (Yaml.unquote tv); [congruence | reflexivity]).
    assert (truthy (Yaml.unquote dv) = true) as Ed
        by (destruct (Yaml.unquote dv); [congruence | reflexivity]).
    rewrite Et, Ed in Hin. cbn [negb app] in Hin.
    destruct (List.length _ =? 0) eqn:E0.
    { apply Nat.eqb_eq, length_zero_iff_nil in E0. exfalso. exact (Hh1 E0). }
    cbn [app] in Hin. apply in_app_or in Hin.
    destruct Hin as [Hin | Hin];
      match type of Hin with
      | In _ (if ?b then _ else _) => destruct b
      end; try destruct Hin as [<- | []]; try destruct Hin; eauto. }
  repeat split; try assumption;
    intros Hin; destruct (Hlen _ Hin) as [n [H | H]];
    unfold Analyzer.descriptionLengthMessage, Analyzer.titleLengthMessage in H;
    cbn in H; discriminate.
Qed.

Definition markdown_post : Analyzer.Extracted :=
  {| Analyzer.ex_filePath := "/site/src/content/writing/caching.md";
     Analyzer.ex_ext := ".md";
     Analyzer.ex_htmlTitle := None;
     Analyzer.ex_htmlDescription := None;
     Analyzer.ex_fmTitle := Some "Caching strategies";
     Analyzer.ex_fmDescription := Some "How to cache";
     Analyzer.ex_headings :=
       {| Analyzer.h1 := []; Analyzer.h2 := []; Analyzer.h3 := [] |};
     Analyzer.ex_jsonName := None;
     Analyzer.ex_text := "Caching strategies compared." |}.

Lemma analyzeFile_markdown_frontmatter_witness :
  Analyzer.title (Analyzer.analyzeFile markdown_post)
  = Some "Caching strategies"%string
  /\ Analyzer.description (Analyzer.analyzeFile markdown_post)
     = Some "How to cache"%string
  /\ Analyzer.h1 (Analyzer.headings (Analyzer.analyzeFile markdown_post)) <> []
  /\ ~ In "Missing <title>"%string
          (Analyzer.warnings (Analyzer.analyzeFile markdown_post))
  /\ ~ In "Missing meta description"%string
          (Analyzer.warnings (Analyzer.analyzeFile markdown_post))
  /\ ~ In "Missing H1 heading"%string
          (Analyzer.warnings (Analyzer.analyzeFile markdown_post)).
Proof.
  apply (analyzeFile_markdown_frontmatter (fun _ => (None, None)) markdown_post
           "'Caching strategies'" "How to cache"
           (String Frontmatter.LF "# Caching"));
    [now left | reflexivity | reflexivity | discriminate | discriminate
    | reflexivity].
Defined.
